(** * A shallow embedding of [src/localizer.ts]

    The localizer keeps, per instance, the active locales and modules, the
    load promises, the settled resources, the bound notifiers and the compiled
    formatters.  Every closure of [createLocalizer] becomes a function over an
    explicit [State]; a thrown JavaScript error becomes the [Throw] case of
    [Result].

    Conventions of the embedding:
    - a JavaScript string is a [string]: one [ascii] per code unit, so the
      texts covered are those over code units 0..255;
    - an object used as a dictionary ([Resource], the tag map, the caches) is
      a [gmap string _]: a property read is an own-property read.  The
      program reads plain objects, where a name of [Object.prototype] that is
      not an own key finds the inherited member; such reads are outside the
      embedding, and each statement that depends on a read carries the
      hypothesis that the names it meets are ordinary ([ordinary],
      [raw_known], [read_known], [names_known], [run_known]);
    - [load], [parse], a formatter and a notifier are functions that may
      throw; [params.notify] itself, the subscribed handlers and the tag
      wrappers return; none of them calls back into the localizer;
    - a tag wrapper computes its result from the children it is given, as
      they are when it is called: it does not keep the array to read it
      later;
    - the proxy's table of children only makes a repeated read of a property
      return the node made at the first read, which a function does anyway;
    - a promise chain is run to its end by one [settle] step, which the event
      loop may take at any time after the load was started;
    - [read] recurses without bound in the source: the embedding gives it the
      number of frames left on the call stack, and running out of them is the
      engine's [RangeError];
    - every call of a collaborator, and every [console.warn], is recorded in
      the [log] of the state. *)

From Stdlib Require Import Ascii String.
From stdpp Require Import gmap strings list fin_maps.

Local Open Scope char_scope.
Local Open Scope string_scope.
Local Open Scope nat_scope.
Local Open Scope list_scope.
Local Open Scope stdpp_scope.

(** ** Thrown errors *)

(** [Error('intl - key missing')] and [Error('intl - key partial')] are the
    two errors [read] throws itself; [TypeError] is what the engine throws on
    a call or property read through [undefined]; [RangeError] is the call
    stack running out; [Thrown] is whatever a collaborator throws. *)
Inductive Error : Type :=
| KeyMissing
| KeyPartial
| TypeError
| RangeError
| Thrown (msg : string).

Inductive Result (A : Type) : Type :=
| Ok (a : A)
| Throw (e : Error).
Arguments Ok {A} a.
Arguments Throw {A} e.

#[global] Instance result_ret : MRet Result := fun A a => Ok a.
#[global] Instance result_bind : MBind Result := fun A B k r =>
  match r with
  | Ok a => k a
  | Throw e => Throw e
  end.

#[global] Instance result_fmap : FMap Result := fun A B f r =>
  match r with
  | Ok a => Ok (f a)
  | Throw e => Throw e
  end.

(** ** Strings *)

Module Str.

(** [a.join(sep)] *)
Definition join (sep : string) (parts : list string) : string :=
  String.concat sep parts.

(** [text.slice(from, to)] for [0 <= from <= to]. *)
Definition slice (from to : nat) (text : string) : string :=
  String.substring from (to - from) text.

(** [text.slice(from)] *)
Definition slice_from (from : nat) (text : string) : string :=
  String.substring from (String.length text - from) text.

(** [s.at(i)] for [i >= 0] and [s.at(-i)] for [i > 0]. *)
Definition at_ (i : nat) (s : string) : option ascii := String.get i s.
Definition at_back (i : nat) (s : string) : option ascii :=
  if decide (i ≤ String.length s)%nat then String.get (String.length s - i) s else None.

(** The longest prefix whose characters satisfy [p], and the rest. *)
Fixpoint span (p : ascii → bool) (s : string) : string * string :=
  match s with
  | EmptyString => (EmptyString, EmptyString)
  | String c s' =>
      if p c then let '(a, b) := span p s' in (String c a, b)
      else (EmptyString, s)
  end.

(** [s.split(sep)] for a one-character separator: never the empty list. *)
Fixpoint split_aux (sep : ascii) (cur : string) (s : string) : list string :=
  match s with
  | EmptyString => [cur]
  | String c s' =>
      if Ascii.eqb c sep then cur :: split_aux sep EmptyString s'
      else split_aux sep (cur +:+ String c EmptyString) s'
  end.
Definition split (sep : ascii) (s : string) : list string :=
  split_aux sep EmptyString s.

(** [\s] restricted to the code units a [string] holds: tab, line feed,
    vertical tab, form feed, carriage return, space, no-break space. *)
Definition is_space (c : ascii) : bool :=
  let n := nat_of_ascii c in
  ((9 <=? n) && (n <=? 13)) || (n =? 32) || (n =? 160).

(** The characters the regular expression dot refuses. *)
Definition is_line_terminator (c : ascii) : bool :=
  let n := nat_of_ascii c in (n =? 10) || (n =? 13).

Definition starts_with (p s : string) : bool := String.prefix p s.

(** Some character of [s] satisfies [p]; [s] contains the character [c]. *)
Fixpoint any (p : ascii → bool) (s : string) : bool :=
  match s with
  | EmptyString => false
  | String d s' => p d || any p s'
  end.
Definition mem (c : ascii) (s : string) : bool := any (fun d => Ascii.eqb d c) s.

End Str.

(** ** The tag parser: [createTagger] *)

Module Tagger.

(** One result of [text.matchAll(/<\/?([^:>/\s]+)\/?>/g)]: the matched
    text (['0']), the captured name (['1']) and the [index]. *)
Record Match : Type := { m_text : string; m_name : string; m_index : nat }.

(** [[^:>/\s]] *)
Definition is_name_char (c : ascii) : bool :=
  negb (Ascii.eqb c ":") && negb (Ascii.eqb c ">") && negb (Ascii.eqb c "/")
  && negb (Str.is_space c).

(** The match of [<\/?([^:>/\s]+)\/?>] that starts at the first character
    of [s].  Both optional slashes and the name are greedy, and no shorter
    choice can succeed: a name character is neither [/] nor [>], so the
    greedy choice is the only candidate. *)
Definition match_at (s : string) : option (string * string) :=
  match s with
  | String "<" r =>
      let '(slash1, r1) :=
        match r with String "/" r' => ("/", r') | _ => ("", r) end in
      let '(name, r2) := Str.span is_name_char r1 in
      match name with
      | EmptyString => None
      | _ =>
          let '(slash2, r3) :=
            match r2 with String "/" r' => ("/", r') | _ => ("", r2) end in
          match r3 with
          | String ">" _ => Some ("<" +:+ slash1 +:+ name +:+ slash2 +:+ ">", name)
          | _ => None
          end
      end
  | _ => None
  end.

(** All matches, left to right, not overlapping: [skip] characters still
    belong to the previous match, [pos] is the index of the head of [s]. *)
Fixpoint matchAll_from (skip pos : nat) (s : string) : list Match :=
  match s with
  | EmptyString => []
  | String _ s' =>
      match skip with
      | S k => matchAll_from k (S pos) s'
      | O =>
          match match_at s with
          | Some (m, t) =>
              {| m_text := m; m_name := t; m_index := pos |}
                :: matchAll_from (String.length m - 1) (S pos) s'
          | None => matchAll_from 0 (S pos) s'
          end
      end
  end.
Definition matchAll (text : string) : list Match := matchAll_from 0 0 text.

Section Parser.
(** [V] is [TTag | string]; [of_text] injects a text slice into it. *)
Context {V : Type}.
Variable of_text : string → V.

(** [Tagger<TTag>[string]]: a wrapper receives the children and the name. *)
Definition Wrapper : Type := list V → string → V.

(** The fallback wrapper given to [createTagger]. *)
Variable tag : Wrapper.

(** The stack of child lists; the head of the list is [stack.at(-1)],
    and each child list is in push order. *)
Definition Stack : Type := list (list V).

(** [stack.at(-1)!.push(x)]: a [TypeError] when the stack is empty. *)
Definition push_top (x : V) (stack : Stack) : Result Stack :=
  match stack with
  | [] => Throw TypeError
  | top :: rest => Ok ((top ++ [x]) :: rest)
  end.

(** [tags[t] ?? tag] *)
Definition wrapper_of (tags : gmap string Wrapper) (t : string) : Wrapper :=
  default tag (tags !! t).

(** One iteration of the [for] loop over the matches. *)
Definition step (text : string) (tags : gmap string Wrapper)
    (st : Stack * nat) (m : Match) : Result (Stack * nat) :=
  let '(stack, done) := st in
  let index := m_index m in
  let t := m_name m in
  stack1 ← (if decide (done < index)%nat
            then push_top (of_text (Str.slice done index text)) stack
            else Ok stack);
  stack2 ←
    (if bool_decide (Str.at_back 2 (m_text m) = Some "/"%char) then
       push_top (wrapper_of tags t [] t) stack1
     else if bool_decide (Str.at_ 1 (m_text m) ≠ Some "/"%char) then
       Ok ([] :: stack1)
     else
       match stack1 with
       | [] => Throw TypeError
       | children :: below =>
           let popped := if decide (1 < length stack1)%nat then below else stack1 in
           push_top (wrapper_of tags t children t) popped
       end);
  Ok (stack2, index + String.length (m_text m)).

Fixpoint loop (text : string) (tags : gmap string Wrapper)
    (st : Stack * nat) (ms : list Match) : Result (Stack * nat) :=
  match ms with
  | [] => Ok st
  | m :: ms' => st' ← step text tags st m; loop text tags st' ms'
  end.

(** [stack.flat()]: the frames concatenated, the root frame first. *)
Definition flat (stack : Stack) : list V := concat (rev stack).

(** The frames left on the stack when the scan is over, with the
    trailing text pushed. *)
Definition scan (text : string) (tags : gmap string Wrapper) : Result Stack :=
  '(stack, done) ← loop text tags ([[]], 0) (matchAll text);
  if decide (done < String.length text)%nat
  then push_top (of_text (Str.slice_from done text)) stack
  else Ok stack.

(** The function [createTagger(tag)] returns. *)
Definition createTagger (text : string) (tags : gmap string Wrapper) : Result V :=
  stack ← scan text tags;
  Ok (tag (flat stack) "").

End Parser.

(** The default [params.tag]: [children => children.join('')]. *)
Definition default_tag : @Wrapper string := fun children _ => Str.join "" children.

(** The wrapper of the test suite:
    [(children, tag) => `<${tag}>${children.join('')}</${tag}>`]. *)
Definition wrap : @Wrapper string :=
  fun children name => "<" +:+ name +:+ ">" +:+ Str.join "" children +:+ "</" +:+ name +:+ ">".

End Tagger.

(** ** Resources and the values a lookup can produce *)

(** [type Resource = { [_ in string]: Resource | string }] *)
#[warnings="-register-all"]
Inductive Entry : Type :=
| Leaf (s : string)
| Nested (r : gmap string Entry).

Abbreviation Resource := (gmap string Entry).

(** The values [raw] can hold in [read]: [undefined], a string, a resource
    object, or a number (the [length] of a string leaf). *)
Inductive JsVal : Type :=
| VUndef
| VStr (s : string)
| VObj (r : Resource)
| VNum (n : nat).

Module Js.

Definition of_entry (e : Entry) : JsVal :=
  match e with
  | Leaf s => VStr s
  | Nested r => VObj r
  end.

Definition is_digit (c : ascii) : bool :=
  let n := nat_of_ascii c in (48 <=? n) && (n <=? 57).

Fixpoint digits_value (acc : nat) (s : string) : option nat :=
  match s with
  | EmptyString => Some acc
  | String c s' =>
      if is_digit c then digits_value (10 * acc + (nat_of_ascii c - 48)) s'
      else None
  end.

(** The array index a property key denotes: decimal digits with no leading
    zero. *)
Definition array_index (k : string) : option nat :=
  match k with
  | EmptyString => None
  | String "0" EmptyString => Some 0
  | String "0" _ => None
  | _ => digits_value 0 k
  end.

(** [v?.[k]]: [undefined] through [undefined]; an own property of an
    object; of a string, its [length] and its indices. *)
Definition get_prop (v : JsVal) (k : string) : JsVal :=
  match v with
  | VUndef => VUndef
  | VObj r => from_option of_entry VUndef (r !! k)
  | VStr s =>
      if decide (k = "length") then VNum (String.length s)
      else match array_index k ≫= (fun i => String.get i s) with
           | Some c => VStr (String c EmptyString)
           | None => VUndef
           end
  | VNum _ => VUndef
  end.

(** [!v] *)
Definition falsy (v : JsVal) : bool :=
  match v with
  | VUndef => true
  | VStr s => bool_decide (s = "")
  | VObj _ => false
  | VNum n => bool_decide (n = 0)
  end.

End Js.

(** ** Reference markers: [raw.replaceAll(/<:(.+?)\/>/g, ...)] *)

Module Nest.

(** The text cut at the matches: a character outside every match, or the
    captured inner text of a match. *)
Inductive Piece : Type :=
| Lit (c : ascii)
| Ref (nestedId : string).

(** [(.+?)\/>]: the shortest non-empty run of characters other than line
    terminators that is followed by [/>]. *)
Fixpoint capture (s : string) : option string :=
  match s with
  | EmptyString => None
  | String c s' =>
      if Str.is_line_terminator c then None
      else if Str.starts_with "/>" s' then Some (String c EmptyString)
      else String c <$> capture s'
  end.

(** The match of [<:(.+?)\/>] that starts at the first character of [s]. *)
Definition match_at (s : string) : option string :=
  match s with
  | String "<" (String ":" r) => capture r
  | _ => None
  end.

(** No two characters of [s] are [<:], the start of a marker. *)
Fixpoint plain (s : string) : bool :=
  match s with
  | EmptyString => true
  | String _ s' => negb (Str.starts_with "<:" s) && plain s'
  end.

(** The matches left to right, not overlapping, with the text between
    them: [skip] characters still belong to the previous match. *)
Fixpoint pieces_from (skip : nat) (s : string) : list Piece :=
  match s with
  | EmptyString => []
  | String c s' =>
      match skip with
      | S k => pieces_from k s'
      | O =>
          match match_at s with
          | Some nestedId => Ref nestedId :: pieces_from (String.length nestedId + 3) s'
          | None => Lit c :: pieces_from 0 s'
          end
      end
  end.
Definition pieces (s : string) : list Piece := pieces_from 0 s.

(** [const [key, ns = module] = nestedId.split(':').reverse()] and then
    [key.split('.')]: the module and the key path a marker names. *)
Definition target (module nestedId : string) : Result (string * list string) :=
  match rev (Str.split ":" nestedId) with
  | [] => Throw TypeError
  | [key] => Ok (module, Str.split "." key)
  | key :: ns :: _ => Ok (ns, Str.split "." key)
  end.

(** The replacement callback [f] is called for each match in order; the
    first one that throws ends the replacement. *)
Fixpoint replaceAll {E} (f : string → list E * Result string) (ps : list Piece)
    : list E * Result string :=
  match ps with
  | [] => ([], Ok EmptyString)
  | Lit c :: ps' =>
      let '(evs, r) := replaceAll f ps' in (evs, String c <$> r)
  | Ref nestedId :: ps' =>
      match f nestedId with
      | (evs, Throw e) => (evs, Throw e)
      | (evs, Ok s) =>
          let '(evs', r) := replaceAll f ps' in (evs ++ evs', String.append s <$> r)
      end
  end.

End Nest.

(** ** The state of one localizer instance *)

(** [values?: object], the argument of a formatter. *)
Definition Values : Type := option (list (string * string)).

(** [Formatter<TTag>] at [TTag = string], called with the values only. *)
Abbreviation Formatter := (Values → Result string).

(** What [params.notify] returns: [(key, raw) => void], which may throw. *)
Abbreviation Notifier := (list string → JsVal → Result unit).

(** The collaborators given to [createLocalizer].  [load] stands for the
    outcome of [Promise.try(() => params.load(locale, module))]: [Throw] when
    it threw or rejected. *)
Record Params : Type := {
  load : string → string → Result Resource;
  parse : string → string → list string → string → Result Formatter;
  notify : string → string → Notifier;
  tag : @Tagger.Wrapper string;
}.

(** [params.parse ??= (_, __, ___, raw) => () => raw] and
    [params.notify ??= () => () => {}]; [params.tag ??= children => children.join('')]
    is [Tagger.default_tag]. *)
Definition default_parse : string → string → list string → string → Result Formatter :=
  fun _ _ _ raw => Ok (fun _ => Ok raw).
Definition default_notify : string → string → Notifier :=
  fun _ _ _ _ => Ok ().

(** The promise stored in [promises[locale][module]]. *)
Inductive Promise : Type :=
| Pending
| Fulfilled (r : Resource)
| Rejected (e : Error).

(** The state of the promise [Promise.all] returns. *)
Inductive AllState : Type := AllPending | AllFulfilled | AllRejected.

#[global] Instance AllState_eq_dec : EqDecision AllState.
Proof. solve_decision. Defined.

(** What the log records: a call of [params.load], the warning after a
    failed load, a call of [params.notify], a call of a notifier, a call of
    [params.parse], the warning after a failed attempt of [format], a call of
    a subscribed handler. *)
Inductive Event : Type :=
| ELoad (locale module : string)
| EWarnLoad (locale module : string) (error : Error)
| EBind (locale module : string)
| ENotify (locale module : string) (key : list string) (raw : JsVal)
| EParse (locale module : string) (key : list string) (raw : string)
| EWarnFormat (locale module : string) (key : list string) (error : Error)
| EHandler (handler : nat) (locales modules : list string).

Record State : Type := {
  locales : list string;
  modules : list string;
  subscriptions : list nat;
  promises : gmap string (gmap string Promise);
  resources : gmap string (gmap string Resource);
  notifiers : gmap string (gmap string Notifier);
  formatters : gmap string Formatter;
  log : list Event;
}.

Definition init : State :=
  {| locales := []; modules := []; subscriptions := [];
     promises := ∅; resources := ∅; notifiers := ∅; formatters := ∅; log := [] |}.

Definition set_locales (v : list string) (st : State) : State :=
  {| locales := v; modules := modules st; subscriptions := subscriptions st;
     promises := promises st; resources := resources st; notifiers := notifiers st;
     formatters := formatters st; log := log st |}.
Definition set_modules (v : list string) (st : State) : State :=
  {| locales := locales st; modules := v; subscriptions := subscriptions st;
     promises := promises st; resources := resources st; notifiers := notifiers st;
     formatters := formatters st; log := log st |}.
Definition set_subscriptions (v : list nat) (st : State) : State :=
  {| locales := locales st; modules := modules st; subscriptions := v;
     promises := promises st; resources := resources st; notifiers := notifiers st;
     formatters := formatters st; log := log st |}.
Definition set_promises (v : gmap string (gmap string Promise)) (st : State) : State :=
  {| locales := locales st; modules := modules st; subscriptions := subscriptions st;
     promises := v; resources := resources st; notifiers := notifiers st;
     formatters := formatters st; log := log st |}.
Definition set_resources (v : gmap string (gmap string Resource)) (st : State) : State :=
  {| locales := locales st; modules := modules st; subscriptions := subscriptions st;
     promises := promises st; resources := v; notifiers := notifiers st;
     formatters := formatters st; log := log st |}.
Definition set_notifiers (v : gmap string (gmap string Notifier)) (st : State) : State :=
  {| locales := locales st; modules := modules st; subscriptions := subscriptions st;
     promises := promises st; resources := resources st; notifiers := v;
     formatters := formatters st; log := log st |}.
Definition set_formatters (v : gmap string Formatter) (st : State) : State :=
  {| locales := locales st; modules := modules st; subscriptions := subscriptions st;
     promises := promises st; resources := resources st; notifiers := notifiers st;
     formatters := v; log := log st |}.
Definition add_log (evs : list Event) (st : State) : State :=
  {| locales := locales st; modules := modules st; subscriptions := subscriptions st;
     promises := promises st; resources := resources st; notifiers := notifiers st;
     formatters := formatters st; log := log st ++ evs |}.

(** [table[locale]?.[module]] *)
Definition lookup2 {A} (table : gmap string (gmap string A)) (locale module : string)
    : option A :=
  table !! locale ≫= (.!! module).

(** [(table[locale] ??= {})[module] = v] *)
Definition insert2 {A} (locale module : string) (v : A)
    (table : gmap string (gmap string A)) : gmap string (gmap string A) :=
  <[locale := <[module := v]> (default ∅ (table !! locale))]> table.

(** [[...new Set(xs)]]: the first occurrence of each element, in order. *)
Fixpoint uniq_from (seen : list string) (xs : list string) : list string :=
  match xs with
  | [] => []
  | x :: xs' =>
      if decide (x ∈ seen) then uniq_from seen xs'
      else x :: uniq_from (x :: seen) xs'
  end.
Definition uniq (xs : list string) : list string := uniq_from [] xs.

(** [locales.flatMap(locale => modules.map(module => ({ locale, module })))] *)
Definition cross (ls ms : list string) : list (string * string) :=
  l ← ls; (fun m => (l, m)) <$> ms.

Section Localizer.
Variable params : Params.

(** The body of [forEach] in [reload]: the load is started, the promise
    and the notifier are stored. *)
Definition start_load (st : State) (pair : string * string) : State :=
  let '(locale, module) := pair in
  let st := add_log [ELoad locale module] st in
  let st := set_promises (insert2 locale module Pending (promises st)) st in
  let st := add_log [EBind locale module] st in
  set_notifiers (insert2 locale module (notify params locale module) (notifiers st)) st.

Definition call_handlers (st : State) : State :=
  add_log ((fun h => EHandler h (locales st) (modules st)) <$> subscriptions st) st.

Definition reload (st : State) : State :=
  let todo :=
    filter (fun pair => lookup2 (promises st) pair.1 pair.2 = None)
           (cross (locales st) (modules st)) in
  call_handlers (foldl start_load st todo).

Definition setLocales (locales_ : list string) (st : State) : State :=
  reload (set_locales (uniq locales_) st).
Definition setModules (modules_ : list string) (st : State) : State :=
  reload (set_modules (uniq modules_) st).

Definition subscribe (handler : nat) (st : State) : State :=
  let subs := if decide (handler ∈ subscriptions st) then subscriptions st
              else subscriptions st ++ [handler] in
  add_log [EHandler handler (locales st) (modules st)] (set_subscriptions subs st).
Definition unsubscribe (handler : nat) (st : State) : State :=
  set_subscriptions (filter (fun h => h ≠ handler) (subscriptions st)) st.

(** The promise chain of one pair runs to its end:
    [.catch(error => (console.warn(...), {}))] then
    [.then(resource => ((resources[locale] ??= {})[module] = resource))]. *)
Definition settle (locale module : string) (st : State) : State :=
  match lookup2 (promises st) locale module with
  | Some Pending =>
      let '(st, caught) :=
        match load params locale module with
        | Ok resource => (st, Ok resource)
        | Throw error => (add_log [EWarnLoad locale module error] st, Ok (∅ : Resource))
        end in
      match caught with
      | Ok resource =>
          let st := set_resources (insert2 locale module resource (resources st)) st in
          set_promises (insert2 locale module (Fulfilled resource) (promises st)) st
      | Throw error =>
          set_promises (insert2 locale module (Rejected error) (promises st)) st
      end
  | _ => st
  end.

(** What [wait()] hands to [Promise.all]: for each pair of the cross
    product the stored promise, named by its pair, or [undefined]; a
    [TypeError] when [promises[locale]] is [undefined]. *)
Definition wait (st : State) : Result (list (option (string * string))) :=
  mapM (fun pair : string * string =>
          match promises st !! pair.1 with
          | None => Throw TypeError
          | Some row => Ok ((fun _ => pair) <$> row !! pair.2)
          end)
       (cross (locales st) (modules st)).

(** The state of [Promise.all(awaited)]: rejected once an element is,
    fulfilled once all are; [undefined] counts as fulfilled. *)
Definition settled_as (st : State) (a : option (string * string)) : AllState :=
  match a with
  | None => AllFulfilled
  | Some (locale, module) =>
      match lookup2 (promises st) locale module with
      | Some (Fulfilled _) => AllFulfilled
      | Some (Rejected _) => AllRejected
      | _ => AllPending
      end
  end.

Definition all_state (st : State) (awaited : list (option (string * string))) : AllState :=
  let states := settled_as st <$> awaited in
  if bool_decide (AllRejected ∈ states) then AllRejected
  else if bool_decide (AllPending ∈ states) then AllPending
  else AllFulfilled.

(** [resource?.[key.join('.')] ?? key.reduce(($, k) => $?.[k], resource)] *)
Definition raw_of (resource : option Resource) (key : list string) : JsVal :=
  let obj := from_option VObj VUndef resource in
  match Js.get_prop obj (Str.join "." key) with
  | VUndef => foldl Js.get_prop obj key
  | v => v
  end.

(** [read(locale, module, key)].  [depth] is the room left on the call
    stack: each nested [read] takes one frame, and running out of frames
    is the engine's [RangeError].  The result comes with the notifier
    calls made, in order. *)
Fixpoint read (depth : nat) (st : State) (locale module : string) (key : list string)
    : list Event * Result string :=
  match depth with
  | O => ([], Throw RangeError)
  | S depth' =>
      let resource := lookup2 (resources st) locale module in
      let raw := raw_of resource key in
      match lookup2 (notifiers st) locale module with
      | None => ([], Throw TypeError)
      | Some notifier =>
          let called := [ENotify locale module key raw] in
          match notifier key raw with
          | Throw e => (called, Throw e)
          | Ok _ =>
              if Js.falsy raw then (called, Throw KeyMissing)
              else
                match raw with
                | VObj _ => (called, Throw KeyPartial)
                | VStr s =>
                    let '(evs, r) :=
                      Nest.replaceAll
                        (fun nestedId =>
                           match Nest.target module nestedId with
                           | Throw e => ([], Throw e)
                           | Ok (ns, key') => read depth' st locale ns key'
                           end)
                        (Nest.pieces s) in
                    (called ++ evs, r)
                | _ => (called, Throw TypeError)
                end
          end
      end
  end.

(** [`${locale}:${module}:${key}`]: an array in a template literal is
    its elements joined by commas. *)
Definition formatter_id (locale module : string) (key : list string) : string :=
  locale +:+ ":" +:+ module +:+ ":" +:+ Str.join "," key.

(** The body of [try] in [format]:
    [(formatters[id] ??= params.parse!(locale, module, [], read(locale, module, key)))(values)].
    The right side of [??=] is evaluated only when no formatter is stored. *)
Definition attempt (depth : nat) (st : State) (locale module : string)
    (key : list string) (values : Values) : State * Result string :=
  let id := formatter_id locale module key in
  match formatters st !! id with
  | Some formatter => (st, formatter values)
  | None =>
      let '(evs, r) := read depth st locale module key in
      let st := add_log evs st in
      match r with
      | Throw e => (st, Throw e)
      | Ok raw =>
          let st := add_log [EParse locale module [] raw] st in
          match parse params locale module [] raw with
          | Throw e => (st, Throw e)
          | Ok formatter =>
              (set_formatters (<[id := formatter]> (formatters st)) st, formatter values)
          end
      end
  end.

(** [`${locales.join('|')}:${module}:${key.join('.')}`] *)
Definition fallback (ls : list string) (module : string) (key : list string) : string :=
  Str.join "|" ls +:+ ":" +:+ module +:+ ":" +:+ Str.join "." key.

(** The [for] loop of [format] over the locales still to try; [all] is
    the whole sequence, for the fallback string. *)
Fixpoint format_from (depth : nat) (all todo : list string) (st : State)
    (module : string) (key : list string) (values : Values) : State * Result string :=
  match todo with
  | [] => (st, Ok (fallback all module key))
  | locale :: todo' =>
      let resource := lookup2 (resources st) locale module in
      match attempt depth st locale module key values with
      | (st, Ok v) => (st, Ok v)
      | (st, Throw error) =>
          let st := match resource with
                    | Some _ => add_log [EWarnFormat locale module key error] st
                    | None => st
                    end in
          format_from depth all todo' st module key values
      end
  end.

Definition format (depth : nat) (st : State) (module : string) (key : list string)
    (values : Values) : State * Result string :=
  format_from depth (locales st) (locales st) st module key values.

(** *** The proxy *)

(** [ProxyObject]; the memo table [children] only makes repeated
    navigation return the same node, which a pure function does anyway. *)
Record ProxyObject : Type := { px_module : string; px_key : list string }.

Definition proxy_root : ProxyObject := {| px_module := ""; px_key := [] |}.

(** The [get] trap for a string property. *)
Definition proxy_get (target : ProxyObject) (p : string) : ProxyObject :=
  if decide (p = "$") then target
  else
    {| px_module := if decide (px_module target = "") then p else px_module target;
       px_key := if decide (px_module target = "") then px_key target
                 else if decide (length (px_key target) = 0) then [p]
                 else px_key target ++ [p] |}.

(** The [apply] trap: [format], then [createTagger(params.tag)] when
    [tags] is given. *)
Definition proxy_apply (depth : nat) (st : State) (target : ProxyObject)
    (values : Values) (tags : option (gmap string (@Tagger.Wrapper string)))
    : State * Result string :=
  match format depth st (px_module target) (px_key target) values with
  | (st, Ok text) =>
      match tags with
      | Some tags => (st, Tagger.createTagger id (tag params) text tags)
      | None => (st, Ok text)
      end
  | (st, Throw e) => (st, Throw e)
  end.

(** *** Runs of an instance *)

(** What a client, or the event loop, can do to a localizer. *)
Inductive Op : Type :=
| OSetLocales (locales_ : list string)
| OSetModules (modules_ : list string)
| OSubscribe (handler : nat)
| OUnsubscribe (handler : nat)
| OSettle (locale module : string)
| ORead (depth : nat) (locale module : string) (key : list string)
| OFormat (depth : nat) (module : string) (key : list string) (values : Values).

Definition step (st : State) (op : Op) : State :=
  match op with
  | OSetLocales ls => setLocales ls st
  | OSetModules ms => setModules ms st
  | OSubscribe h => subscribe h st
  | OUnsubscribe h => unsubscribe h st
  | OSettle locale module => settle locale module st
  | ORead depth locale module key => add_log (read depth st locale module key).1 st
  | OFormat depth module key values => (format depth st module key values).1
  end.

Definition run (ops : list Op) (st : State) : State := foldl step st ops.

(** The resource a pair settles to: the loaded one, or [{}] after a
    failed load. *)
Definition settled_resource (locale module : string) : Resource :=
  match load params locale module with
  | Ok resource => resource
  | Throw _ => ∅
  end.

End Localizer.

(** The replacement [read] performs on a leaf [s] of [module], with [depth]
    frames left for the nested reads. *)
Definition expand (depth : nat) (st : State) (locale module : string) (s : string)
    : list Event * Result string :=
  Nest.replaceAll
    (fun nestedId =>
       match Nest.target module nestedId with
       | Throw e => ([], Throw e)
       | Ok (ns, key') => read depth st locale ns key'
       end)
    (Nest.pieces s).

(** ** The two addressing forms of a key path *)

(** [{ "a.b.c": x }] *)
Definition flat_resource (key : list string) (x : string) : Resource :=
  {[ Str.join "." key := Leaf x ]}.

(** [{ a: { b: { c: x } } }] for the key path [a :: [b; c]] *)
Fixpoint nested_entry (key : list string) (x : string) : Entry :=
  match key with
  | [] => Leaf x
  | k :: key' => Nested {[ k := nested_entry key' x ]}
  end.
Definition nested_resource (k : string) (key : list string) (x : string) : Resource :=
  {[ k := nested_entry key x ]}.

(** A pair is part of the cross product of the active locales and modules. *)
Definition in_cross (st : State) (locale module : string) : Prop :=
  locale ∈ locales st ∧ module ∈ modules st.

(** The calls of the parse collaborator and of the notifiers that a log
    records. *)
Definition is_parse (ev : Event) : bool :=
  match ev with EParse _ _ _ _ => true | _ => false end.
Definition is_notify (ev : Event) : bool :=
  match ev with ENotify _ _ _ _ => true | _ => false end.
Definition parse_calls (evs : list Event) : nat := length (List.filter is_parse evs).
Definition notify_calls (evs : list Event) : list Event := List.filter is_notify evs.

(** ** The invariant of an instance *)

(** What every reachable state satisfies: the locales hold no duplicate;
    each pair of the cross product has a promise; a pair has a promise
    exactly when it has a notifier; and a promise is pending, or fulfilled
    with the resource the pair settles to, which is then the stored one. *)
Definition Inv (params : Params) (st : State) : Prop :=
  NoDup (locales st)
  ∧ (∀ l m, in_cross st l m → is_Some (lookup2 (promises st) l m))
  ∧ (∀ l m, is_Some (lookup2 (promises st) l m) ↔ is_Some (lookup2 (notifiers st) l m))
  ∧ (∀ l m p, lookup2 (promises st) l m = Some p →
       p = Pending
       ∨ (p = Fulfilled (settled_resource params l m)
          ∧ lookup2 (resources st) l m = Some (settled_resource params l m))).

(** ** The first locale that succeeds *)

(** The first result that is not a throw, else [Ok fallback]. *)
Fixpoint first_ok (results : list (Result string)) (fallback : string) : Result string :=
  match results with
  | [] => Ok fallback
  | Ok v :: _ => Ok v
  | Throw _ :: results' => first_ok results' fallback
  end.

(** Two states hold the same resources and notifiers, and the same
    formatter under each of the [ids]. *)
Definition agree_on (ids : list string) (st st' : State) : Prop :=
  resources st = resources st' ∧ notifiers st = notifiers st'
  ∧ ∀ id, id ∈ ids → formatters st !! id = formatters st' !! id.

(** ** Instances used in the examples *)

Module Demo.

(** The resource of module [m1]: the nesting example of the README, an
    empty leaf, a marker that names no key, a cross-module marker, and a
    key with a comma next to a nested key. *)
Definition m1 : Resource :=
  <["app" := Leaf "X"]> (
  <["welcome" := Leaf "Hi <:app/>"]> (
  <["empty" := Leaf ""]> (
  <["dangling" := Leaf "<:nope/>"]> (
  <["k" := Leaf "<:m2:other/>"]> (
  <["a,b" := Leaf "AB"]> (
  <["a" := Nested {[ "b" := Leaf "nested" ]}]> ∅)))))).

Definition m2 : Resource := {[ "other" := Leaf "Y" ]}.

(** Only [en-US] has resources; every other load fails. *)
Definition load_en (locale module : string) : Result Resource :=
  if decide (locale = "en-US") then
    if decide (module = "m1") then Ok m1
    else if decide (module = "m2") then Ok m2
    else Throw (Thrown "no such module")
  else Throw (Thrown "no such locale").

Definition params : Params :=
  {| load := load_en; parse := default_parse; notify := default_notify;
     tag := Tagger.default_tag |}.

(** A parse collaborator that refuses every string. *)
Definition strict_params : Params :=
  {| load := load_en;
     parse := fun _ _ _ _ => Throw (Thrown "syntax error");
     notify := default_notify;
     tag := Tagger.default_tag |}.

Definition scheduled (p : Params) : State :=
  setModules p ["m1"; "m2"] (setLocales p ["pt-BR"; "en-US"] init).

(** All four loads have settled. *)
Definition loaded (p : Params) : State :=
  run p [OSettle "pt-BR" "m1"; OSettle "en-US" "m2"; OSettle "en-US" "m1";
         OSettle "pt-BR" "m2"] (scheduled p).

(** The loaded instance with the resource of [en-US], [m1] replaced. *)
Definition with_m1 (r : Resource) : State :=
  set_resources (insert2 "en-US" "m1" r (resources (loaded params))) (loaded params).

(** A key with a line feed in its name, and a leaf whose marker names it. *)
Definition line_feed : string := String (ascii_of_nat 10) "".
Definition m5 : Resource :=
  <["k" := Leaf ("<:a" +:+ line_feed +:+ "b/>")]> {[ "a" +:+ line_feed +:+ "b" := Leaf "X" ]}.

End Demo.

(** ** Reading the log *)

(** The kind of an event and, for the events of a pair, the pair. *)
Inductive Kind : Type :=
| KLoad | KWarnLoad | KBind | KNotify | KParse | KWarnFormat | KHandler.

#[global] Instance Kind_eq_dec : EqDecision Kind.
Proof. solve_decision. Defined.

Definition kind_of (ev : Event) : Kind :=
  match ev with
  | ELoad _ _ => KLoad
  | EWarnLoad _ _ _ => KWarnLoad
  | EBind _ _ => KBind
  | ENotify _ _ _ _ => KNotify
  | EParse _ _ _ _ => KParse
  | EWarnFormat _ _ _ _ => KWarnFormat
  | EHandler _ _ _ => KHandler
  end.

Definition pair_of (ev : Event) : option (string * string) :=
  match ev with
  | ELoad l m | EWarnLoad l m _ | EBind l m | ENotify l m _ _ | EParse l m _ _
  | EWarnFormat l m _ _ => Some (l, m)
  | EHandler _ _ _ => None
  end.

(** How many events of kind [k] the log holds for the pair. *)
Definition count_of (k : Kind) (locale module : string) (evs : list Event) : nat :=
  length (filter (fun ev => kind_of ev = k ∧ pair_of ev = Some (locale, module)) evs).


(** The locales [format] warned about, in order. *)
Definition warned (evs : list Event) : list string :=
  omap (fun ev => match ev with EWarnFormat l _ _ _ => Some l | _ => None end) evs.

(** ** The tokens of a text *)

(** A token found in [text]: its name is not empty and holds only the
    characters the pattern allows, none of them a colon; the matched text
    is the one that [text] holds at the index. *)
Definition token_ok (text : string) (mt : Tagger.Match) : Prop :=
  Tagger.m_name mt ≠ ""
  ∧ Str.any (fun c => negb (Tagger.is_name_char c)) (Tagger.m_name mt) = false
  ∧ Str.mem ":" (Tagger.m_name mt) = false
  ∧ String.substring (Tagger.m_index mt) (String.length (Tagger.m_text mt)) text
    = Tagger.m_text mt.

(** Where a token ends: [index + match.length]. *)
Definition token_end (mt : Tagger.Match) : nat :=
  Tagger.m_index mt + String.length (Tagger.m_text mt).

(** [[of_text s]], or nothing when [s] is empty: the push the tagger
    guards by [done < index]. *)
Definition pushed {V} (of_text : string → V) (s : string) : list V :=
  if decide (s = "") then [] else [of_text s].

(** The text of a token: [<name>], [</name>], [<name/>] or [</name/>],
    as [slash1] and [slash2] are empty or [/]. *)
Definition token (slash1 name slash2 : string) : string :=
  "<" +:+ slash1 +:+ name +:+ slash2 +:+ ">".

(** A name the tag pattern accepts. *)
Definition tag_name (name : string) : Prop :=
  name ≠ "" ∧ Str.any (fun c => negb (Tagger.is_name_char c)) name = false.

(** ** Walking the proxy *)

(** [t[p1][p2]...]: the node reached from the root by reading the
    properties of [path] one after the other. *)
Definition navigate (path : list string) : ProxyObject := foldl proxy_get proxy_root path.

(** ** What is stored stays consistent *)

(** A stored resource belongs to a fulfilled promise that holds it; the
    modules hold no duplicate; neither do the subscriptions. *)
Definition Stored (st : State) : Prop :=
  NoDup (modules st) ∧ NoDup (subscriptions st)
  ∧ ∀ l m r, lookup2 (resources st) l m = Some r →
      lookup2 (promises st) l m = Some (Fulfilled r).

(** The log agrees with the tables: the load collaborator and
    [params.notify] were called once for each pair that has a promise and
    never for another, and a failed load was reported once, when the
    promise was fulfilled. *)
Definition Counted (params : Params) (st : State) : Prop :=
  ∀ l m,
    count_of KLoad l m (log st)
    = match lookup2 (promises st) l m with Some _ => 1 | None => 0 end
    ∧ count_of KBind l m (log st)
      = match lookup2 (promises st) l m with Some _ => 1 | None => 0 end
    ∧ count_of KWarnLoad l m (log st)
      = match lookup2 (promises st) l m, load params l m with
        | Some (Fulfilled _), Throw _ => 1
        | _, _ => 0
        end.

(** The events of the loads [reload] starts. *)
Definition loads_of (todo : list (string * string)) : list Event :=
  todo ≫= (fun pair => [ELoad pair.1 pair.2; EBind pair.1 pair.2]).

(** A stored notifier is the one [params.notify] returned for the pair. *)
Definition Bound (params : Params) (st : State) : Prop :=
  ∀ l m n, lookup2 (notifiers st) l m = Some n → n = notify params l m.

(** What the proofs about runs carry along. *)
Definition Reach (params : Params) (st : State) : Prop :=
  Inv params st ∧ Stored st ∧ Counted params st ∧ Bound params st.

(** ** Names the built-in prototypes define *)

(** The property names of [Object.prototype].  The dictionaries of the
    program are plain objects, so a read such as [tags[t]] or
    [promises[locale]] that finds no own property under one of these names
    finds the inherited member instead.  The embedding reads own properties
    only: it describes the program where no read meets such a name, and the
    predicates below say where that is. *)
Definition object_proto_names : list string :=
  ["constructor"; "__defineGetter__"; "__defineSetter__"; "hasOwnProperty";
   "__lookupGetter__"; "__lookupSetter__"; "isPrototypeOf"; "propertyIsEnumerable";
   "toString"; "valueOf"; "__proto__"; "toLocaleString"].

Definition ordinary (name : string) : bool :=
  negb (bool_decide (name ∈ object_proto_names)).

(** No built-in member has a name that is empty or starts with a digit. *)
Definition digit_led (k : string) : bool :=
  match k with
  | EmptyString => true
  | String c _ => Js.is_digit c
  end.

(** The read [v?.[k]] finds what [Js.get_prop v k] says: on an object the
    name is an own key or is not inherited; on a string it is [length] or
    cannot name an inherited member; on a number it cannot name one. *)
Definition known_prop (v : JsVal) (k : string) : bool :=
  match v with
  | VUndef => true
  | VObj r => bool_decide (is_Some (r !! k)) || ordinary k
  | VStr _ => bool_decide (k = "length") || digit_led k
  | VNum _ => digit_led k
  end.

Fixpoint known_walk (v : JsVal) (key : list string) : bool :=
  match key with
  | [] => true
  | k :: key' => known_prop v k && known_walk (Js.get_prop v k) key'
  end.

(** Every read that computes the raw value of [key] is a known one. *)
Definition raw_known (resource : option Resource) (key : list string) : bool :=
  let obj := from_option VObj VUndef resource in
  known_prop obj (Str.join "." key)
  && match Js.get_prop obj (Str.join "." key) with
     | VUndef => known_walk obj key
     | _ => true
     end.

(** The reads of one frame of [read] are known ones: the locale and the
    module are ordinary names and the raw value of [key] is a known one. *)
Definition pair_known (st : State) (locale module : string) (key : list string) : bool :=
  ordinary locale && ordinary module
  && raw_known (lookup2 (resources st) locale module) key.

(** Every read a call of [read] makes, nested calls included, is a known
    one. *)
Fixpoint read_known (depth : nat) (st : State) (locale module : string)
    (key : list string) : bool :=
  match depth with
  | O => true
  | S depth' =>
      let resource := lookup2 (resources st) locale module in
      pair_known st locale module key
      && match raw_of resource key with
         | VStr s =>
             forallb (fun piece =>
                        match piece with
                        | Nest.Lit _ => true
                        | Nest.Ref nestedId =>
                            match Nest.target module nestedId with
                            | Ok (ns, key') => read_known depth' st locale ns key'
                            | Throw _ => true
                            end
                        end) (Nest.pieces s)
         | _ => true
         end
  end.

(** [format] on ordinary names, with every read it may make a known one. *)
Definition format_known (depth : nat) (st : State) (module : string)
    (key : list string) : Prop :=
  ordinary module = true
  ∧ ∀ l, l ∈ locales st → ordinary l = true ∧ read_known depth st l module key = true.

(** An operation that meets no inherited name in the state it is applied to. *)
Definition step_known (st : State) (op : Op) : Prop :=
  match op with
  | OSetLocales ls =>
      Forall (fun l => ordinary l = true) ls ∧ Forall (fun m => ordinary m = true) (modules st)
  | OSetModules ms =>
      Forall (fun l => ordinary l = true) (locales st) ∧ Forall (fun m => ordinary m = true) ms
  | OSubscribe _ | OUnsubscribe _ | OSettle _ _ => True
  | ORead depth locale module key => read_known depth st locale module key = true
  | OFormat depth module key _ => format_known depth st module key
  end.

(** [tags[t] ?? tag] is the wrapper the tag map owns under the name, or the
    fallback tag: the name is an own key or an ordinary name. *)
Definition name_known {V} (tags : gmap string (@Tagger.Wrapper V)) (name : string) : Prop :=
  is_Some (tags !! name) ∨ ordinary name = true.

(** The names of the tokens of [text] are all such names. *)
Definition names_known {V} (tags : gmap string (@Tagger.Wrapper V)) (text : string) : Prop :=
  Forall (fun mt => name_known tags (Tagger.m_name mt)) (Tagger.matchAll text).

(** A run whose operations all meet no inherited name. *)
Fixpoint run_known (params : Params) (ops : list Op) (st : State) : Prop :=
  match ops with
  | [] => True
  | op :: ops' => step_known st op ∧ run_known params ops' (step params st op)
  end.

(** ** Balanced markup *)

(** How deep the stack is after a token, counted above the root: [None]
    when the token closes an element and none is open. *)
Definition depth_step (depth : nat) (mt : Tagger.Match) : option nat :=
  if bool_decide (Str.at_back 2 (Tagger.m_text mt) = Some "/"%char) then Some depth
  else if bool_decide (Str.at_ 1 (Tagger.m_text mt) ≠ Some "/"%char) then Some (S depth)
  else match depth with
       | O => None
       | S depth' => Some depth'
       end.

Fixpoint depth_walk (depth : nat) (ms : list Tagger.Match) : option nat :=
  match ms with
  | [] => Some depth
  | mt :: ms' => depth_step depth mt ≫= fun depth' => depth_walk depth' ms'
  end.

(** Every closing tag closes an open element and no element stays open. *)
Definition balanced (text : string) : Prop :=
  depth_walk 0 (Tagger.matchAll text) = Some 0.

(** * Properties *)

#[local] Arguments String.append !_ _ / : simpl nomatch.

(** ** The tag parser never runs out of frames *)

Section TaggerFacts.
Context {V : Type}.
Variable of_text : string → V.
Variable tag : @Tagger.Wrapper V.

Lemma push_top_nonempty (x : V) (stack : Tagger.Stack) :
  stack ≠ [] → ∃ stack', Tagger.push_top x stack = Ok stack' ∧ stack' ≠ [].
Proof.
  destruct stack as [|top rest]; [done|].
  intros _. eexists. split; [reflexivity|done].
Qed.

Lemma step_nonempty text tags (stack : Tagger.Stack) (done : nat) (m : Tagger.Match) :
  stack ≠ [] →
  ∃ stack' done',
    Tagger.step of_text tag text tags (stack, done) m = Ok (stack', done')
    ∧ stack' ≠ [].
Proof.
  intros Hne. unfold Tagger.step.
  assert (∃ stack1,
    (if decide (done < Tagger.m_index m)
     then Tagger.push_top (of_text (Str.slice done (Tagger.m_index m) text)) stack
     else Ok stack) = Ok stack1 ∧ stack1 ≠ []) as (stack1 & -> & Hne1).
  { case_decide; [by apply push_top_nonempty|by exists stack]. }
  cbn [mbind result_bind].
  case_bool_decide as Hself.
  - destruct (push_top_nonempty (Tagger.wrapper_of tag tags (Tagger.m_name m) []
                                   (Tagger.m_name m)) stack1 Hne1) as (s2 & -> & Hs2).
    cbn. eauto.
  - case_bool_decide as Hopen.
    + cbn. eexists _, _. split; [reflexivity|done].
    + destruct stack1 as [|children below] eqn:E; [done|].
      set (popped := if decide (1 < length (children :: below)) then below
                     else children :: below).
      assert (popped ≠ []) as Hp.
      { subst popped. case_decide as Hlen; [|done].
        destruct below; [cbn in Hlen; lia|done]. }
      destruct (push_top_nonempty (Tagger.wrapper_of tag tags (Tagger.m_name m) children
                                     (Tagger.m_name m)) popped Hp) as (s2 & -> & Hs2).
      cbn. eauto.
Qed.

Lemma loop_nonempty text tags (ms : list Tagger.Match) :
  ∀ (stack : Tagger.Stack) (done : nat),
    stack ≠ [] →
    ∃ stack' done',
      Tagger.loop of_text tag text tags (stack, done) ms = Ok (stack', done')
      ∧ stack' ≠ [].
Proof.
  induction ms as [|m ms IH]; intros stack done Hne.
  - cbn. eauto.
  - cbn [Tagger.loop].
    destruct (step_nonempty text tags stack done m Hne) as (s1 & d1 & -> & Hs1).
    cbn [mbind result_bind]. by apply IH.
Qed.

Lemma scan_nonempty text tags :
  ∃ stack, Tagger.scan of_text tag text tags = Ok stack ∧ stack ≠ [].
Proof.
  unfold Tagger.scan.
  destruct (loop_nonempty text tags (Tagger.matchAll text) [[]] 0) as (s & d & Hloop & Hs);
    [done|].
  unfold Tagger.Stack in *. rewrite Hloop.
  cbn [mbind result_bind]. case_decide; [by apply push_top_nonempty|eauto].
Qed.

End TaggerFacts.

Section TaggerDepth.
Context {V : Type}.
Variable of_text : string → V.
Variable tag : @Tagger.Wrapper V.

Lemma push_top_length (x : V) (stack : Tagger.Stack) (n : nat) :
  length stack = S n →
  ∃ stack', Tagger.push_top x stack = Ok stack' ∧ length stack' = S n.
Proof.
  destruct stack as [|top rest]; [done|]. intros H. eexists. split; [reflexivity|done].
Qed.

Lemma step_depth text tags (stack : Tagger.Stack) (done depth depth' : nat)
    (m : Tagger.Match) :
  length stack = S depth → depth_step depth m = Some depth' →
  ∃ stack' done',
    Tagger.step of_text tag text tags (stack, done) m = Ok (stack', done')
    ∧ length stack' = S depth'.
Proof.
  intros Hlen Hstep. unfold Tagger.step.
  assert (∃ stack1,
    (if decide (done < Tagger.m_index m)
     then Tagger.push_top (of_text (Str.slice done (Tagger.m_index m) text)) stack
     else Ok stack) = Ok stack1 ∧ length stack1 = S depth) as (stack1 & -> & Hlen1).
  { case_decide; [by apply push_top_length|by exists stack]. }
  cbn [mbind result_bind]. unfold depth_step in Hstep. revert Hstep.
  case_bool_decide as Hself.
  - intros [= <-].
    destruct (push_top_length (Tagger.wrapper_of tag tags (Tagger.m_name m) []
                                 (Tagger.m_name m)) stack1 depth Hlen1) as (s2 & -> & Hs2).
    cbn. eauto.
  - case_bool_decide as Hopen.
    + intros [= <-]. cbn. eexists _, _. split; [reflexivity|]. cbn. by rewrite Hlen1.
    + destruct depth as [|d]; [done|]. intros [= <-].
      destruct stack1 as [|children below] eqn:E; [done|].
      cbn in Hlen1. rewrite decide_True by (cbn; lia).
      destruct (push_top_length (Tagger.wrapper_of tag tags (Tagger.m_name m) children
                                   (Tagger.m_name m)) below d) as (s2 & -> & Hs2); [lia|].
      cbn. eauto.
Qed.

Lemma loop_depth text tags (ms : list Tagger.Match) :
  ∀ (stack : Tagger.Stack) (done depth depth' : nat),
    length stack = S depth → depth_walk depth ms = Some depth' →
    ∃ stack' done',
      Tagger.loop of_text tag text tags (stack, done) ms = Ok (stack', done')
      ∧ length stack' = S depth'.
Proof.
  induction ms as [|m ms IH]; intros stack done depth depth' Hlen Hwalk.
  - cbn in *. injection Hwalk as <-. eauto.
  - cbn [Tagger.loop depth_walk] in *.
    destruct (depth_step depth m) as [d1|] eqn:Hd; [|done]. cbn in Hwalk.
    destruct (step_depth text tags stack done depth d1 m Hlen Hd) as (s1 & dn & -> & Hs1).
    cbn [mbind result_bind]. by eapply IH.
Qed.

(** On balanced markup the scan ends with the root frame alone. *)
Lemma scan_balanced text tags :
  balanced text → ∃ root, Tagger.scan of_text tag text tags = Ok [root].
Proof.
  intros Hbal. unfold Tagger.scan.
  destruct (loop_depth text tags (Tagger.matchAll text) [[]] 0 0 0 eq_refl Hbal)
    as (s & d & Hloop & Hs).
  unfold Tagger.Stack in *. rewrite Hloop. cbn [mbind result_bind].
  destruct s as [|root [|? ?]]; try done.
  case_decide; cbn; eauto.
Qed.

End TaggerDepth.

(** C8, as the code has it.  On ["0<a>1<b/>2</a>3"] with [{ a: wrap, b: wrap }]
    the children collected at the root are ["0"], ["<a>1<b></b>2</a>"] and
    ["3"], which join to ["0<a>1<b></b>2</a>3"], and the result is the fallback
    tag applied to them with the empty name.  In general, for a text whose tag
    names are keys of the tag map or ordinary names, what the fallback tag
    receives, with the empty name, is the children of every frame left on the
    stack, the root frame first.  On balanced markup the root frame is the only
    one left, so its children are what is passed; an element left open keeps
    its frame, and the children of that frame are passed along. *)
Theorem createTagger_root_aggregate :
  let tags : gmap string (@Tagger.Wrapper string) :=
    <["a" := Tagger.wrap]> (<["b" := Tagger.wrap]> ∅) in
  (∀ tag : @Tagger.Wrapper string,
     Tagger.createTagger id tag "0<a>1<b/>2</a>3" tags
     = Ok (tag ["0"; "<a>1<b></b>2</a>"; "3"] ""))
  ∧ Str.join "" ["0"; "<a>1<b></b>2</a>"; "3"] = "0<a>1<b></b>2</a>3"
  ∧ Tagger.createTagger id Tagger.wrap "0<a>1<b/>2</a>3" tags
    = Ok "<>0<a>1<b></b>2</a>3</>"
  ∧ (∀ (V : Type) (of_text : string → V) (tag : @Tagger.Wrapper V)
       (text : string) (tags : gmap string (@Tagger.Wrapper V)),
       names_known tags text →
       ∃ root rest,
         Tagger.scan of_text tag text tags = Ok (rest ++ [root])
         ∧ Tagger.createTagger of_text tag text tags
           = Ok (tag (root ++ concat (rev rest)) ""))
  ∧ (∀ (V : Type) (of_text : string → V) (tag : @Tagger.Wrapper V)
       (text : string) (tags : gmap string (@Tagger.Wrapper V)),
       names_known tags text → balanced text →
       ∃ root,
         Tagger.scan of_text tag text tags = Ok [root]
         ∧ Tagger.createTagger of_text tag text tags = Ok (tag root "")).
Proof.
  cbn zeta. split; [|split; [|split; [|split]]].
  - intros tag. vm_compute. reflexivity.
  - vm_compute. reflexivity.
  - vm_compute. reflexivity.
  - intros V of_text tag text tags _. unfold Tagger.createTagger.
    destruct (scan_nonempty of_text tag text tags) as (stack & Hscan & Hne).
    destruct (exists_last Hne) as (rest & root & ->).
    exists root, rest. rewrite Hscan. split; [done|].
    cbn. unfold Tagger.flat. by rewrite rev_unit.
  - intros V of_text tag text tags _ Hbal. unfold Tagger.createTagger.
    destruct (scan_balanced of_text tag text tags Hbal) as (root & Hscan).
    exists root. rewrite Hscan. split; [done|].
    cbn. by rewrite app_nil_r.
Qed.

Lemma createTagger_root_aggregate_witness :
  ∃ root,
    Tagger.scan id Tagger.default_tag "0<a>1</a>" ∅ = Ok [root]
    ∧ Tagger.createTagger id Tagger.default_tag "0<a>1</a>" ∅
      = Ok (Tagger.default_tag root "").
Proof.
  apply (proj2 (proj2 (proj2 (proj2 createTagger_root_aggregate))) string id
           Tagger.default_tag "0<a>1</a>" ∅).
  - apply Forall_forall. intros mt Hmt. vm_compute in Hmt.
    apply list_elem_of_In in Hmt. cbn in Hmt.
    destruct Hmt as [<-|[<-|[]]]; right; reflexivity.
  - reflexivity.
Defined.

(** C8 as stated fails: in ["<a>x"] the element is left open, the root frame
    holds nothing and the frame of the element holds ["x"]; the fallback tag
    receives ["x"], not the children of the root frame. *)
Lemma root_frame_counterexample :
  Tagger.scan id Tagger.wrap "<a>x" ∅ = Ok [["x"]; []]
  ∧ Tagger.createTagger id Tagger.wrap "<a>x" ∅ = Ok (Tagger.wrap ["x"] "")
  ∧ Tagger.wrap ["x"] "" ≠ Tagger.wrap [] "".
Proof. vm_compute. repeat split. discriminate. Qed.

(** ** Strings *)

Lemma append_length (a b : string) :
  String.length (a +:+ b) = String.length a + String.length b.
Proof. induction a as [|c a IH]; simpl; [done|by rewrite IH]. Qed.

Lemma append_assoc (a b c : string) : (a +:+ b) +:+ c = a +:+ (b +:+ c).
Proof. induction a as [|x a IH]; simpl; [done|by rewrite IH]. Qed.

Lemma append_empty_r (a : string) : a +:+ "" = a.
Proof. induction a as [|x a IH]; simpl; [done|by rewrite IH]. Qed.

Lemma append_inv_tail (a b c : string) : a +:+ c = b +:+ c → a = b.
Proof.
  revert b. induction a as [|x a IH]; intros [|y b] H; cbn in H.
  - done.
  - apply (f_equal String.length) in H. cbn in H. rewrite append_length in H. lia.
  - apply (f_equal String.length) in H. cbn in H. rewrite append_length in H. lia.
  - injection H as -> H. f_equal. by apply IH.
Qed.

Lemma join_cons2 (sep k k' : string) (key : list string) :
  Str.join sep (k :: k' :: key) = k +:+ sep +:+ Str.join sep (k' :: key).
Proof. reflexivity. Qed.

Lemma join_longer (k k' : string) (key : list string) :
  Str.join "." (k :: k' :: key) ≠ k.
Proof.
  rewrite join_cons2. intros H. apply (f_equal String.length) in H.
  rewrite !append_length in H. cbn in H. lia.
Qed.

(** ** Reference markers *)

Lemma match_at_no_start (s : string) :
  Str.starts_with "<:" s = false → Nest.match_at s = None.
Proof.
  unfold Str.starts_with, Nest.match_at.
  destruct s as [|c [|c' r]]; cbn [String.prefix]; try done.
  - by destruct c as [[] [] [] [] [] [] [] []].
  - destruct (ascii_dec "<" c) as [<-|Hc].
    + destruct (ascii_dec ":" c') as [<-|Hc']; [by destruct r|].
      intros _. destruct c' as [[] [] [] [] [] [] [] []]; done.
    + intros _. destruct c as [[] [] [] [] [] [] [] []]; done.
Qed.

Lemma replaceAll_plain {E} (f : string → list E * Result string) (s : string) :
  Nest.plain s = true → Nest.replaceAll f (Nest.pieces_from 0 s) = ([], Ok s).
Proof.
  induction s as [|c s IH]; cbn [Nest.plain Nest.pieces_from]; [done|].
  intros [Hc Hs]%andb_prop. apply negb_true_iff in Hc.
  rewrite match_at_no_start by done.
  cbn [Nest.replaceAll]. rewrite (IH Hs). done.
Qed.

(** ** Reading a key *)

(** One frame of [read], with the replacement named. *)
Lemma read_unfold (d : nat) (st : State) (locale module : string) (key : list string) :
  read (S d) st locale module key =
    let raw := raw_of (lookup2 (resources st) locale module) key in
    match lookup2 (notifiers st) locale module with
    | None => ([], Throw TypeError)
    | Some notifier =>
        let called := [ENotify locale module key raw] in
        match notifier key raw with
        | Throw e => (called, Throw e)
        | Ok _ =>
            if Js.falsy raw then (called, Throw KeyMissing)
            else
              match raw with
              | VObj _ => (called, Throw KeyPartial)
              | VStr s => let '(evs, r) := expand d st locale module s in (called ++ evs, r)
              | _ => (called, Throw TypeError)
              end
        end
    end.
Proof. reflexivity. Qed.

Lemma read_plain_leaf d st locale module key notifier s :
  lookup2 (notifiers st) locale module = Some notifier →
  raw_of (lookup2 (resources st) locale module) key = VStr s →
  notifier key (VStr s) = Ok () →
  s ≠ "" → Nest.plain s = true →
  read (S d) st locale module key = ([ENotify locale module key (VStr s)], Ok s).
Proof.
  intros Hn Hraw Hcall Hs Hplain. rewrite read_unfold, Hn, Hraw. cbn zeta.
  rewrite Hcall. cbn [Js.falsy]. rewrite bool_decide_eq_false_2 by done.
  unfold expand, Nest.pieces. rewrite replaceAll_plain by done. done.
Qed.

(** ** Flattened and nested addressing *)

Lemma raw_of_flat_first (r : Resource) (key : list string) (e : Entry) :
  r !! Str.join "." key = Some e → raw_of (Some r) key = Js.of_entry e.
Proof.
  intros H. unfold raw_of. cbn. rewrite H. cbn. by destruct e.
Qed.

Lemma walk_nested_entry (key : list string) (x : string) :
  foldl Js.get_prop (Js.of_entry (nested_entry key x)) key = VStr x.
Proof.
  induction key as [|k key IH]; cbn; [done|].
  rewrite lookup_singleton_eq. cbn. apply IH.
Qed.

Lemma raw_of_flat_resource (key : list string) (x : string) :
  raw_of (Some (flat_resource key x)) key = VStr x.
Proof.
  apply (raw_of_flat_first _ _ (Leaf x)). unfold flat_resource.
  apply lookup_singleton_eq.
Qed.

Lemma raw_of_nested_resource (k : string) (key : list string) (x : string) :
  raw_of (Some (nested_resource k key x)) (k :: key) = VStr x.
Proof.
  unfold raw_of, nested_resource. cbn [from_option Js.get_prop].
  destruct key as [|k' key].
  - cbn. rewrite lookup_singleton_eq. done.
  - rewrite lookup_singleton_ne by (intros H; by apply (join_longer k k' key)).
    cbn [from_option foldl Js.get_prop]. rewrite lookup_singleton_eq.
    cbn [from_option]. apply (walk_nested_entry (k' :: key)).
Qed.

(** C4, as the code has it.  The flattened resource [{ "a.b": x }] and the
    nested resource
    [{ a: { b: x } }] hold the same raw value [x] for the key path; the value
    stored under the flattened key, when there is one, is the one taken,
    whatever the segment-by-segment traversal would find; and for a leaf that
    [read] returns as it is (non-empty, no marker) both forms read as [x]. *)
Theorem flat_and_nested_addressing :
  (∀ (k : string) (key : list string) (x : string),
     raw_of (Some (flat_resource (k :: key) x)) (k :: key) = VStr x
     ∧ raw_of (Some (nested_resource k key x)) (k :: key) = VStr x)
  ∧ (∀ (r : Resource) (key : list string) (e : Entry),
       r !! Str.join "." key = Some e → raw_of (Some r) key = Js.of_entry e)
  ∧ (∀ (d : nat) (st : State) (locale module k : string) (key : list string)
       (x : string) (notifier : Notifier) (r : Resource),
       lookup2 (notifiers st) locale module = Some notifier →
       notifier (k :: key) (VStr x) = Ok () →
       lookup2 (resources st) locale module = Some r →
       r = flat_resource (k :: key) x ∨ r = nested_resource k key x →
       x ≠ "" → Nest.plain x = true →
       (read (S d) st locale module (k :: key)).2 = Ok x).
Proof.
  split; [|split].
  - intros k key x. split; [apply raw_of_flat_resource|apply raw_of_nested_resource].
  - apply raw_of_flat_first.
  - intros d st locale module k key x notifier r Hn Hcall Hr Hform Hx Hplain.
    erewrite read_plain_leaf; eauto.
    rewrite Hr. destruct Hform as [-> | ->];
      [apply raw_of_flat_resource|apply raw_of_nested_resource].
Qed.

Lemma flat_and_nested_addressing_witness :
  (read 1 (set_resources (insert2 "en-US" "m1" (nested_resource "a" ["b"] "x")
                            (resources (Demo.loaded Demo.params)))
             (Demo.loaded Demo.params))
     "en-US" "m1" ["a"; "b"]).2 = Ok "x".
Proof.
  apply (proj2 (proj2 flat_and_nested_addressing) 0 _ "en-US" "m1" "a" ["b"] "x"
           (default_notify "en-US" "m1") (nested_resource "a" ["b"] "x")).
  - vm_compute. reflexivity.
  - reflexivity.
  - vm_compute. reflexivity.
  - right. reflexivity.
  - discriminate.
  - reflexivity.
Defined.

(** C4 as stated fails for leaves that [read] does not return as they are.
    With the empty leaf both forms throw KeyMissing and yield no leaf; with
    the leaf [<:a.b.0/>] the nested form reads ["<"], the first character of
    the leaf itself, and the flattened form throws KeyMissing. *)
Lemma flat_nested_counterexample :
  (read 8 (Demo.with_m1 (flat_resource ["a"; "b"] "")) "en-US" "m1" ["a"; "b"]).2
  = Throw KeyMissing
  ∧ (read 8 (Demo.with_m1 (nested_resource "a" ["b"] "")) "en-US" "m1" ["a"; "b"]).2
    = Throw KeyMissing
  ∧ (read 8 (Demo.with_m1 (flat_resource ["a"; "b"] "<:a.b.0/>")) "en-US" "m1"
       ["a"; "b"]).2 = Throw KeyMissing
  ∧ (read 8 (Demo.with_m1 (nested_resource "a" ["b"] "<:a.b.0/>")) "en-US" "m1"
       ["a"; "b"]).2 = Ok "<".
Proof. vm_compute. repeat split. Qed.

(** ** What [read] does with the raw value *)

(** C3, as the code has it.  For a pair with a notifier that returns, on
    ordinary names (no read meets a name the prototypes define), [read] looks
    at the raw value (the one under the flattened key, else the one the
    traversal finds): a falsy raw value ([undefined], but also the empty
    string) gives KeyMissing; a nested resource gives KeyPartial; a non-empty
    string gives the string with its markers replaced, which is the string
    itself when it has none; and [read] returns only when the raw value is a
    non-empty string. *)
Theorem read_outcomes (d : nat) (st : State) (locale module : string)
    (key : list string) (notifier : Notifier) :
  let raw := raw_of (lookup2 (resources st) locale module) key in
  let called := [ENotify locale module key raw] in
  read_known (S d) st locale module key = true →
  lookup2 (notifiers st) locale module = Some notifier →
  notifier key raw = Ok () →
  (Js.falsy raw = true → read (S d) st locale module key = (called, Throw KeyMissing))
  ∧ (∀ r, raw = VObj r → read (S d) st locale module key = (called, Throw KeyPartial))
  ∧ (∀ s, raw = VStr s → s ≠ "" →
       read (S d) st locale module key
       = (called ++ (expand d st locale module s).1, (expand d st locale module s).2))
  ∧ (∀ s, raw = VStr s → s ≠ "" → Nest.plain s = true →
       read (S d) st locale module key = (called, Ok s))
  ∧ (∀ evs out, read (S d) st locale module key = (evs, Ok out) →
       ∃ s, raw = VStr s ∧ s ≠ "").
Proof.
  intros raw called _ Hn Hcall. subst called.
  rewrite read_unfold, Hn. cbn zeta. fold raw. rewrite Hcall.
  repeat split.
  - by intros ->.
  - by intros r ->.
  - intros s -> Hs. cbn [Js.falsy]. rewrite bool_decide_eq_false_2 by done.
    by destruct (expand d st locale module s).
  - intros s -> Hs Hplain. cbn [Js.falsy]. rewrite bool_decide_eq_false_2 by done.
    unfold expand, Nest.pieces. by rewrite replaceAll_plain.
  - intros evs out. destruct raw as [|s|r|n]; cbn [Js.falsy]; try done.
    + case_bool_decide as Hs; [done|]. eauto.
    + by case_bool_decide.
Qed.

Lemma read_outcomes_witness :
  read 3 (Demo.loaded Demo.params) "en-US" "m1" ["a"; "b"]
  = ([ENotify "en-US" "m1" ["a"; "b"] (VStr "nested")], Ok "nested").
Proof.
  refine (proj1 (proj2 (proj2 (proj2
            (read_outcomes 2 (Demo.loaded Demo.params) "en-US" "m1" ["a"; "b"]
               (default_notify "en-US" "m1") _ _ _)))) "nested" _ _ _).
  - vm_compute. reflexivity.
  - vm_compute. reflexivity.
  - reflexivity.
  - vm_compute. reflexivity.
  - discriminate.
  - reflexivity.
Defined.

(** C3 as stated fails: at the key [empty] of the loaded module [m1] there
    is a string leaf, the empty string, and [read] throws KeyMissing; at the
    key [dangling] there is a string leaf too, and [read] throws KeyMissing
    because the marker in it names a key that is absent. *)
Lemma read_leaf_counterexample :
  let st := Demo.loaded Demo.params in
  raw_of (lookup2 (resources st) "en-US" "m1") ["empty"] = VStr ""
  ∧ (read 8 st "en-US" "m1" ["empty"]).2 = Throw KeyMissing
  ∧ raw_of (lookup2 (resources st) "en-US" "m1") ["dangling"] = VStr "<:nope/>"
  ∧ (read 8 st "en-US" "m1" ["dangling"]).2 = Throw KeyMissing.
Proof. vm_compute. repeat split. Qed.

(** ** Markers inside a leaf *)

Lemma pieces_from_match (c : ascii) (s nestedId : string) :
  Nest.match_at (String c s) = Some nestedId →
  Nest.pieces_from 0 (String c s)
  = Nest.Ref nestedId :: Nest.pieces_from (String.length nestedId + 3) s.
Proof. intros H. cbn [Nest.pieces_from]. by rewrite H. Qed.

Lemma pieces_skip (x rest : string) :
  Nest.pieces_from (String.length x) (x +:+ rest) = Nest.pieces_from 0 rest.
Proof.
  induction x as [|c x IH]; simpl; [|done].
  by destruct rest.
Qed.

Lemma starts_with_second (c a : ascii) (s : string) :
  Ascii.eqb a ">" = false → Str.starts_with "/>" (String c (String a s)) = false.
Proof.
  intros Ha. unfold Str.starts_with. cbn [String.prefix].
  destruct (ascii_dec "/" c); [|done].
  destruct (ascii_dec ">" a) as [<-|]; done.
Qed.

Lemma capture_marker (c : ascii) (ref post : string) :
  Str.mem ">" (String c ref) = false →
  Str.any Str.is_line_terminator (String c ref) = false →
  Nest.capture (String c ref +:+ "/>" +:+ post) = Some (String c ref).
Proof.
  revert c. induction ref as [|c' ref IH]; intros c Hgt Hlt.
  - cbn [Str.any] in Hlt. apply orb_false_elim in Hlt as [Hc _].
    change (String c "" +:+ "/>" +:+ post) with (String c (String "/" (String ">" post))).
    cbn [Nest.capture]. rewrite Hc.
    unfold Str.starts_with. cbn [String.prefix].
    destruct (ascii_dec "/" "/"); [|done]. destruct (ascii_dec ">" ">"); [|done].
    by destruct post.
  - cbn [Str.any] in Hlt. apply orb_false_elim in Hlt as [Hc Hlt].
    unfold Str.mem in Hgt. cbn [Str.any] in Hgt.
    apply orb_false_elim in Hgt as [_ Hgt].
    change (String c (String c' ref) +:+ "/>" +:+ post)
      with (String c (String c' ref +:+ "/>" +:+ post)).
    cbn [Nest.capture]. rewrite Hc.
    assert (Str.starts_with "/>" (String c' ref +:+ "/>" +:+ post) = false) as ->.
    { destruct ref as [|c'' ref].
      - change (String c' "" +:+ "/>" +:+ post)
          with (String c' (String "/" (String ">" post))).
        by apply starts_with_second.
      - change (String c' (String c'' ref) +:+ "/>" +:+ post)
          with (String c' (String c'' (ref +:+ "/>" +:+ post))).
        apply starts_with_second.
        cbn [Str.any] in Hgt. apply orb_false_elim in Hgt as [_ Hgt].
        by apply orb_false_elim in Hgt as [Hc'' _]. }
    rewrite IH; [done| |done].
    exact Hgt.
Qed.

Lemma starts_with_marker_app (c : ascii) (pre rest : string) :
  Str.starts_with ":" rest = false →
  Str.starts_with "<:" (String c pre) = false →
  Str.starts_with "<:" (String c (pre +:+ rest)) = false.
Proof.
  unfold Str.starts_with. cbn [String.prefix]. intros Hrest.
  destruct (ascii_dec "<" c); [|done].
  destruct pre as [|c' pre].
  - intros _. exact Hrest.
  - change (String c' pre +:+ rest) with (String c' (pre +:+ rest)).
    cbn [String.prefix]. destruct (ascii_dec ":" c'); [|done].
    by destruct pre.
Qed.

Lemma replaceAll_lit_prefix {E} (f : string → list E * Result string) (pre rest : string) :
  Nest.plain pre = true → Str.starts_with ":" rest = false →
  Nest.replaceAll f (Nest.pieces_from 0 (pre +:+ rest))
  = ((Nest.replaceAll f (Nest.pieces_from 0 rest)).1,
     String.append pre <$> (Nest.replaceAll f (Nest.pieces_from 0 rest)).2).
Proof.
  intros Hpre Hrest. induction pre as [|c pre IH].
  - simpl. destruct (Nest.replaceAll f (Nest.pieces_from 0 rest)) as [evs [s|e]]; done.
  - cbn [Nest.plain] in Hpre. apply andb_prop in Hpre as [Hc Hpre].
    apply negb_true_iff in Hc.
    change (String c pre +:+ rest) with (String c (pre +:+ rest)).
    cbn [Nest.pieces_from].
    rewrite match_at_no_start by (by apply starts_with_marker_app).
    cbn [Nest.replaceAll]. rewrite (IH Hpre).
    destruct (Nest.replaceAll f (Nest.pieces_from 0 rest)) as [evs [s|e]]; done.
Qed.

(** A marker after plain text: the text, the replacement of the marker,
    then whatever the rest becomes. *)
Lemma replaceAll_marker {E} (f : string → list E * Result string)
    (pre ref post : string) :
  Nest.plain pre = true →
  ref ≠ "" → Str.mem ">" ref = false → Str.any Str.is_line_terminator ref = false →
  (Nest.replaceAll f (Nest.pieces (pre +:+ "<:" +:+ ref +:+ "/>" +:+ post))).2
  = (inner ← (f ref).2;
     rest ← (Nest.replaceAll f (Nest.pieces post)).2;
     Ok (pre +:+ inner +:+ rest)).
Proof.
  intros Hpre Href Hgt Hlt. unfold Nest.pieces.
  rewrite replaceAll_lit_prefix by done. cbn [snd].
  destruct ref as [|c ref]; [done|].
  change ("<:" +:+ String c ref +:+ "/>" +:+ post)
    with (String "<" (String ":" (String c ref +:+ "/>" +:+ post))).
  rewrite (pieces_from_match _ _ (String c ref))
    by (cbn [Nest.match_at]; by apply capture_marker).
  replace (String ":" (String c ref +:+ "/>" +:+ post))
    with ((":" +:+ String c ref +:+ "/>") +:+ post)
    by (by rewrite !append_assoc).
  replace (String.length (String c ref) + 3)
    with (String.length (":" +:+ String c ref +:+ "/>"))
    by (rewrite !append_length; simpl; lia).
  rewrite pieces_skip. cbn [Nest.replaceAll].
  destruct (f (String c ref)) as [evs [inner|e]]; [|done].
  destruct (Nest.replaceAll f (Nest.pieces_from 0 post)) as [evs' [rest|e]]; done.
Qed.

Lemma split_aux_plain (sep : ascii) (cur x : string) :
  Str.mem sep x = false → Str.split_aux sep cur x = [cur +:+ x].
Proof.
  revert cur. induction x as [|c x IH]; intros cur Hx.
  - simpl. by rewrite append_empty_r.
  - unfold Str.mem in Hx. cbn [Str.any] in Hx.
    apply orb_false_elim in Hx as [Hc Hx].
    cbn [Str.split_aux]. rewrite Hc, (IH _ Hx), append_assoc. done.
Qed.

Lemma split_aux_sep (sep : ascii) (cur a b : string) :
  Str.split_aux sep cur (a +:+ String sep b)
  = Str.split_aux sep cur a ++ Str.split sep b.
Proof.
  revert cur. induction a as [|c a IH]; intros cur.
  - simpl. rewrite Ascii.eqb_refl. done.
  - change (String c a +:+ String sep b) with (String c (a +:+ String sep b)).
    cbn [Str.split_aux]. destruct (Ascii.eqb c sep); by rewrite IH.
Qed.

Lemma target_same_module (module ref : string) :
  Str.mem ":" ref = false → Nest.target module ref = Ok (module, Str.split "." ref).
Proof.
  intros H. unfold Nest.target, Str.split. rewrite split_aux_plain by done. done.
Qed.

Lemma target_other_module (module ns ref : string) :
  Str.mem ":" ns = false → Str.mem ":" ref = false →
  Nest.target module (ns +:+ ":" +:+ ref) = Ok (ns, Str.split "." ref).
Proof.
  intros Hns Href. unfold Nest.target, Str.split.
  change (":" +:+ ref) with (String ":" ref).
  rewrite split_aux_sep. unfold Str.split.
  rewrite !split_aux_plain by done. done.
Qed.

(** C5, as the code has it.  On ordinary names, a leaf made of plain text, a
    marker [<:ref/>] whose inner text is not empty and holds no [>] and no
    line terminator, and a rest reads as the plain text, then what reading the
    key named by [ref] returns, then the rest with its own markers replaced
    the same way; a failing nested read fails the whole read.  The inner text
    names its key last: [ref] alone is a key of the same module, [ns:ref] a
    key of module [ns]; the key is split on the dots.  So [welcome] of
    [{ app: "X", welcome: "Hi <:app/>" }] reads as ["Hi X"], and
    [<:m2:other/>] inside module [m1] reads key [other] of module [m2]. *)
Theorem read_replaces_markers :
  (∀ (d : nat) (st : State) (locale module : string) (key : list string)
     (notifier : Notifier) (pre ref post : string),
     let leaf := pre +:+ "<:" +:+ ref +:+ "/>" +:+ post in
     read_known (S d) st locale module key = true →
     lookup2 (notifiers st) locale module = Some notifier →
     raw_of (lookup2 (resources st) locale module) key = VStr leaf →
     notifier key (VStr leaf) = Ok () →
     Nest.plain pre = true →
     ref ≠ "" → Str.mem ">" ref = false → Str.any Str.is_line_terminator ref = false →
     (read (S d) st locale module key).2
     = ('(ns, key') ← Nest.target module ref;
        inner ← (read d st locale ns key').2;
        rest ← (expand d st locale module post).2;
        Ok (pre +:+ inner +:+ rest)))
  ∧ (∀ module ref : string,
       Str.mem ":" ref = false → Nest.target module ref = Ok (module, Str.split "." ref))
  ∧ (∀ module ns ref : string,
       Str.mem ":" ns = false → Str.mem ":" ref = false →
       Nest.target module (ns +:+ ":" +:+ ref) = Ok (ns, Str.split "." ref))
  ∧ (read 8 (Demo.loaded Demo.params) "en-US" "m1" ["welcome"]).2 = Ok "Hi X"
  ∧ read 8 (Demo.loaded Demo.params) "en-US" "m1" ["k"]
    = ([ENotify "en-US" "m1" ["k"] (VStr "<:m2:other/>");
        ENotify "en-US" "m2" ["other"] (VStr "Y")], Ok "Y").
Proof.
  split; [|split; [|split; [|split]]].
  - intros d st locale module key notifier pre ref post leaf _ Hn Hraw Hcall Hpre Href
      Hgt Hlt.
    rewrite read_unfold, Hn, Hraw. cbn zeta. rewrite Hcall. cbn [Js.falsy].
    rewrite bool_decide_eq_false_2.
    2:{ intros H. apply (f_equal String.length) in H. subst leaf.
        rewrite !append_length in H. simpl in H. lia. }
    pose proof (replaceAll_marker
      (fun nestedId =>
         match Nest.target module nestedId with
         | Throw e => ([], Throw e)
         | Ok (ns, key') => read d st locale ns key'
         end) pre ref post Hpre Href Hgt Hlt) as H.
    fold leaf in H. fold (expand d st locale module leaf) in H.
    fold (expand d st locale module post) in H.
    destruct (expand d st locale module leaf) as [evs r]. cbn [snd] in *. rewrite H.
    by destruct (Nest.target module ref) as [[ns key']|e].
  - apply target_same_module.
  - apply target_other_module.
  - vm_compute. reflexivity.
  - vm_compute. reflexivity.
Qed.

Lemma read_replaces_markers_witness :
  (read 3 (Demo.loaded Demo.params) "en-US" "m1" ["welcome"]).2
  = ('(ns, key') ← Nest.target "m1" "app";
     inner ← (read 2 (Demo.loaded Demo.params) "en-US" ns key').2;
     rest ← (expand 2 (Demo.loaded Demo.params) "en-US" "m1" "").2;
     Ok ("Hi " +:+ inner +:+ rest)).
Proof.
  apply (proj1 read_replaces_markers 2 (Demo.loaded Demo.params) "en-US" "m1" ["welcome"]
           (default_notify "en-US" "m1") "Hi " "app" "").
  - vm_compute. reflexivity.
  - vm_compute. reflexivity.
  - vm_compute. reflexivity.
  - reflexivity.
  - reflexivity.
  - discriminate.
  - reflexivity.
  - reflexivity.
Defined.

(** C5 as stated fails: the resource holds a key whose name has a line feed
    in it, and the leaf [k] holds the marker that names it; [read] of [k]
    returns the leaf as it is, the marker not replaced, though [read] of the
    key itself returns ["X"]. *)
Lemma marker_line_feed_counterexample :
  read 8 (Demo.with_m1 Demo.m5) "en-US" "m1" ["k"]
  = ([ENotify "en-US" "m1" ["k"] (VStr ("<:a" +:+ Demo.line_feed +:+ "b/>"))],
     Ok ("<:a" +:+ Demo.line_feed +:+ "b/>"))
  ∧ (read 8 (Demo.with_m1 Demo.m5) "en-US" "m1" ["a" +:+ Demo.line_feed +:+ "b"]).2
    = Ok "X".
Proof. vm_compute. repeat split. Qed.

(** ** The tables indexed by locale and module *)

Lemma lookup2_insert2_eq {A} (locale module : string) (v : A) table :
  lookup2 (insert2 locale module v table) locale module = Some v.
Proof.
  unfold lookup2, insert2. rewrite lookup_insert_eq. cbn. apply lookup_insert_eq.
Qed.

Lemma lookup2_insert2_ne {A} (l m l' m' : string) (v : A) table :
  (l, m) ≠ (l', m') →
  lookup2 (insert2 l m v table) l' m' = lookup2 table l' m'.
Proof.
  intros Hne. unfold lookup2, insert2.
  destruct (decide (l = l')) as [<-|Hl].
  - rewrite lookup_insert_eq. cbn.
    rewrite lookup_insert_ne by congruence.
    by destruct (table !! l).
  - by rewrite lookup_insert_ne.
Qed.

Lemma lookup2_insert2 {A} (l m l' m' : string) (v : A) table :
  lookup2 (insert2 l m v table) l' m'
  = if decide ((l, m) = (l', m')) then Some v else lookup2 table l' m'.
Proof.
  case_decide as H.
  - injection H as <- <-. apply lookup2_insert2_eq.
  - by apply lookup2_insert2_ne.
Qed.

Lemma elem_of_cross (ls ms : list string) (l m : string) :
  (l, m) ∈ cross ls ms ↔ l ∈ ls ∧ m ∈ ms.
Proof.
  unfold cross. rewrite list_elem_of_bind. split.
  - intros (l' & Hin & Hl'). apply list_elem_of_fmap in Hin as (m' & [= -> ->] & Hm').
    done.
  - intros [Hl Hm]. exists l. split; [|done]. apply list_elem_of_fmap. eauto.
Qed.

Lemma uniq_from_elem (seen xs : list string) (x : string) :
  x ∈ uniq_from seen xs ↔ x ∈ xs ∧ x ∉ seen.
Proof.
  revert seen. induction xs as [|y xs IH]; intros seen; cbn [uniq_from].
  - split; [by intros ?%elem_of_nil|by intros [?%elem_of_nil _]].
  - case_decide as Hy.
    + rewrite IH, elem_of_cons. split; [tauto|].
      intros [[->|?] ?]; done.
    + rewrite !elem_of_cons, IH, not_elem_of_cons. split.
      * intros [->|[? [? ?]]]; eauto.
      * intros [[->|?] ?]; [by left|].
        destruct (decide (x = y)) as [->|]; [by left|right; done].
Qed.

Lemma uniq_elem (xs : list string) (x : string) : x ∈ uniq xs ↔ x ∈ xs.
Proof.
  unfold uniq. rewrite uniq_from_elem. split; [tauto|].
  intros H. split; [done|]. apply not_elem_of_nil.
Qed.

Lemma uniq_from_NoDup (seen xs : list string) : NoDup (uniq_from seen xs).
Proof.
  revert seen. induction xs as [|y xs IH]; intros seen; cbn [uniq_from].
  - constructor.
  - case_decide; [apply IH|].
    constructor; [|apply IH].
    rewrite uniq_from_elem, not_elem_of_cons. tauto.
Qed.

Lemma uniq_NoDup (xs : list string) : NoDup (uniq xs).
Proof. apply uniq_from_NoDup. Qed.

(** ** What [reload] and [settle] change *)

Section Reconciliation.
Variable params : Params.

Lemma start_loads_fields (todo : list (string * string)) (st : State) :
  let st' := foldl (start_load params) st todo in
  locales st' = locales st ∧ modules st' = modules st
  ∧ subscriptions st' = subscriptions st
  ∧ resources st' = resources st ∧ formatters st' = formatters st
  ∧ (∀ l m, lookup2 (promises st') l m
            = if decide ((l, m) ∈ todo) then Some Pending
              else lookup2 (promises st) l m)
  ∧ (∀ l m, lookup2 (notifiers st') l m
            = if decide ((l, m) ∈ todo) then Some (notify params l m)
              else lookup2 (notifiers st) l m).
Proof.
  revert st. induction todo as [|[l0 m0] todo IH] using rev_ind; intros st.
  - cbn. repeat split; intros; by rewrite decide_False by apply not_elem_of_nil.
  - cbn zeta. rewrite foldl_snoc.
    destruct (IH st) as (Hl & Hm & Hs & Hr & Hf & Hp & Hn).
    cbn [start_load locales modules subscriptions resources formatters promises
         notifiers set_promises set_notifiers add_log].
    repeat split; try done.
    + intros l m. rewrite lookup2_insert2, Hp.
      destruct (decide ((l0, m0) = (l, m))) as [[= -> ->]|Hne].
      * rewrite decide_True; [done|]. apply elem_of_app. right. apply list_elem_of_here.
      * destruct (decide ((l, m) ∈ todo)) as [Hin|Hin].
        -- rewrite decide_True; [done|]. apply elem_of_app. by left.
        -- rewrite decide_False; [done|].
           rewrite elem_of_app, list_elem_of_singleton. intros [?|?]; congruence.
    + intros l m. rewrite lookup2_insert2, Hn.
      destruct (decide ((l0, m0) = (l, m))) as [[= -> ->]|Hne].
      * rewrite decide_True; [done|]. apply elem_of_app. right. apply list_elem_of_here.
      * destruct (decide ((l, m) ∈ todo)) as [Hin|Hin].
        -- rewrite decide_True; [done|]. apply elem_of_app. by left.
        -- rewrite decide_False; [done|].
           rewrite elem_of_app, list_elem_of_singleton. intros [?|?]; congruence.
Qed.

(** After [reload] the pairs of the cross product that had no promise have
    a pending one and a notifier; nothing else moves. *)
Lemma reload_fields (st : State) :
  let st' := reload params st in
  locales st' = locales st ∧ modules st' = modules st
  ∧ subscriptions st' = subscriptions st
  ∧ resources st' = resources st ∧ formatters st' = formatters st
  ∧ (∀ l m, lookup2 (promises st') l m
            = if decide (in_cross st l m ∧ lookup2 (promises st) l m = None)
              then Some Pending else lookup2 (promises st) l m)
  ∧ (∀ l m, lookup2 (notifiers st') l m
            = if decide (in_cross st l m ∧ lookup2 (promises st) l m = None)
              then Some (notify params l m) else lookup2 (notifiers st) l m).
Proof.
  unfold reload, call_handlers.
  set (todo := filter _ _).
  destruct (start_loads_fields todo st) as (Hl & Hm & Hs & Hr & Hf & Hp & Hn).
  assert (∀ l m, (l, m) ∈ todo ↔ in_cross st l m ∧ lookup2 (promises st) l m = None)
    as Htodo.
  { intros l m. subst todo. rewrite list_elem_of_filter, elem_of_cross.
    unfold in_cross. cbn. tauto. }
  cbn zeta in *.
  cbn [locales modules subscriptions resources formatters promises notifiers add_log].
  repeat split; try done.
  - intros l m. rewrite Hp. apply decide_ext, Htodo.
  - intros l m. rewrite Hn. apply decide_ext, Htodo.
Qed.

End Reconciliation.

(** ** What [read] and [format] change *)

Lemma replaceAll_ext {E} (f g : string → list E * Result string) (ps : list Nest.Piece) :
  (∀ x, f x = g x) → Nest.replaceAll f ps = Nest.replaceAll g ps.
Proof.
  intros Hfg. induction ps as [|[c|x] ps IH]; cbn [Nest.replaceAll]; [done| |].
  - by rewrite IH.
  - by rewrite Hfg, IH.
Qed.

(** [read] looks at the resources and the notifiers only. *)
Lemma read_ext (d : nat) (st st' : State) (locale module : string) (key : list string) :
  resources st = resources st' → notifiers st = notifiers st' →
  read d st locale module key = read d st' locale module key.
Proof.
  intros Hr Hn. revert module key. induction d as [|d IH]; intros module key; [done|].
  cbn [read]. rewrite Hr, Hn.
  destruct (lookup2 (notifiers st') locale module) as [notifier|]; [|done].
  destruct (notifier _ _); [|done].
  destruct (Js.falsy _); [done|].
  destruct (raw_of _ _) as [|s|r|n]; try done.
  erewrite replaceAll_ext; [done|].
  intros x. cbn beta. destruct (Nest.target module x) as [[ns key']|e]; [apply IH|done].
Qed.

Section Formatting.
Variable params : Params.

Lemma attempt_fields d (st : State) locale module key values :
  let st' := (attempt params d st locale module key values).1 in
  locales st' = locales st ∧ modules st' = modules st
  ∧ subscriptions st' = subscriptions st ∧ promises st' = promises st
  ∧ resources st' = resources st ∧ notifiers st' = notifiers st
  ∧ (∀ id f, formatters st !! id = Some f → formatters st' !! id = Some f)
  ∧ (∀ id, id ≠ formatter_id locale module key →
       formatters st' !! id = formatters st !! id).
Proof.
  unfold attempt.
  destruct (formatters st !! formatter_id locale module key) as [f|] eqn:Hf.
  { cbn [fst]. repeat split; done. }
  destruct (read d st locale module key) as [evs [raw|e]].
  - destruct (parse params locale module [] raw) as [f|e];
      cbn [fst locales modules subscriptions promises resources notifiers formatters
           set_formatters add_log].
    + repeat split; try done.
      * intros id f' Hid. rewrite lookup_insert_ne; [done|].
        intros E. rewrite <- E, Hf in Hid. done.
      * intros id Hid. by rewrite lookup_insert_ne.
    + repeat split; done.
  - cbn [fst locales modules subscriptions promises resources notifiers formatters
         add_log].
    repeat split; done.
Qed.

Lemma format_from_fields d all todo (st : State) module key values :
  let st' := (format_from params d all todo st module key values).1 in
  locales st' = locales st ∧ modules st' = modules st
  ∧ subscriptions st' = subscriptions st ∧ promises st' = promises st
  ∧ resources st' = resources st ∧ notifiers st' = notifiers st
  ∧ (∀ id f, formatters st !! id = Some f → formatters st' !! id = Some f)
  ∧ (∀ id, (∀ locale, locale ∈ todo → id ≠ formatter_id locale module key) →
       formatters st' !! id = formatters st !! id).
Proof.
  revert st. induction todo as [|locale todo IH]; intros st.
  { cbn. repeat split; done. }
  cbn [format_from].
  destruct (attempt_fields d st locale module key values)
    as (Hl & Hm & Hs & Hp & Hr & Hn & Hmono & Hother).
  destruct (attempt params d st locale module key values) as [st1 [v|e]]; cbn [fst] in *.
  - repeat split; try done.
    intros id Hid. apply Hother, Hid, list_elem_of_here.
  - set (st2 := match lookup2 (resources st) locale module with
                | Some _ => add_log [EWarnFormat locale module key e] st1
                | None => st1
                end).
    assert (locales st2 = locales st1 ∧ modules st2 = modules st1
            ∧ subscriptions st2 = subscriptions st1 ∧ promises st2 = promises st1
            ∧ resources st2 = resources st1 ∧ notifiers st2 = notifiers st1
            ∧ formatters st2 = formatters st1) as (Hl2 & Hm2 & Hs2 & Hp2 & Hr2 & Hn2 & Hf2).
    { subst st2. destruct (lookup2 _ _ _); done. }
    destruct (IH st2) as (Hl' & Hm' & Hs' & Hp' & Hr' & Hn' & Hmono' & Hother').
    cbn zeta in *.
    repeat split; try congruence.
    + intros id f Hid. apply Hmono'. rewrite Hf2. by apply Hmono.
    + intros id Hid. rewrite Hother', Hf2, Hother; [done| |].
      * apply Hid, list_elem_of_here.
      * intros l Hl0. apply Hid. by apply list_elem_of_further.
Qed.

Lemma settle_fields (st : State) (locale module : string) :
  let st' := settle params locale module st in
  locales st' = locales st ∧ modules st' = modules st
  ∧ subscriptions st' = subscriptions st
  ∧ notifiers st' = notifiers st ∧ formatters st' = formatters st
  ∧ (∀ l m, lookup2 (promises st') l m
            = match lookup2 (promises st) l m with
              | Some Pending =>
                  if decide ((locale, module) = (l, m))
                  then Some (Fulfilled (settled_resource params l m))
                  else Some Pending
              | p => p
              end)
  ∧ (∀ l m, lookup2 (resources st') l m
            = match lookup2 (promises st) l m with
              | Some Pending =>
                  if decide ((locale, module) = (l, m))
                  then Some (settled_resource params l m)
                  else lookup2 (resources st) l m
              | _ => lookup2 (resources st) l m
              end).
Proof.
  assert (∀ l m, lookup2 (promises st) locale module ≠ Some Pending →
                 lookup2 (promises st) l m = Some Pending →
                 (locale, module) ≠ (l, m)) as Hother.
  { intros l m Hp Hp' [= <- <-]. done. }
  unfold settle, settled_resource.
  destruct (lookup2 (promises st) locale module) as [[|r|e]|] eqn:Hp.
  - cbn zeta.
    destruct (load params locale module) as [resource|error] eqn:Hload;
      cbn [locales modules subscriptions notifiers formatters promises resources
           set_resources set_promises add_log];
      repeat split; try done; intros l m; rewrite lookup2_insert2;
      (destruct (decide ((locale, module) = (l, m))) as [[= <- <-]|Hne];
       [rewrite Hp, ?Hload; done|by destruct (lookup2 (promises st) l m) as [[| |]|]]).
  - cbn zeta. repeat split; try done; intros l m;
      destruct (lookup2 (promises st) l m) as [[| |]|] eqn:Hp'; try done;
      rewrite decide_False by (by apply Hother); done.
  - cbn zeta. repeat split; try done; intros l m;
      destruct (lookup2 (promises st) l m) as [[| |]|] eqn:Hp'; try done;
      rewrite decide_False by (by apply Hother); done.
  - cbn zeta. repeat split; try done; intros l m;
      destruct (lookup2 (promises st) l m) as [[| |]|] eqn:Hp'; try done;
      rewrite decide_False by (by apply Hother); done.
Qed.

End Formatting.

(** ** The invariant holds in every reachable state *)

Section Reachable.
Variable params : Params.

Lemma Inv_init : Inv params init.
Proof.
  unfold Inv, in_cross. cbn. repeat split.
  - constructor.
  - by intros l m [?%elem_of_nil _].
  - by intros [? ?].
  - by intros [? ?].
  - done.
Qed.

Lemma Inv_agree (st st' : State) :
  locales st' = locales st → modules st' = modules st →
  promises st' = promises st → resources st' = resources st →
  notifiers st' = notifiers st →
  Inv params st → Inv params st'.
Proof.
  unfold Inv, in_cross. intros -> -> -> -> ->. done.
Qed.

Lemma Inv_reload (st0 : State) :
  NoDup (locales st0) →
  (∀ l m, is_Some (lookup2 (promises st0) l m) ↔ is_Some (lookup2 (notifiers st0) l m)) →
  (∀ l m p, lookup2 (promises st0) l m = Some p →
     p = Pending
     ∨ (p = Fulfilled (settled_resource params l m)
        ∧ lookup2 (resources st0) l m = Some (settled_resource params l m))) →
  Inv params (reload params st0).
Proof.
  intros Hnd H1 H3.
  destruct (reload_fields params st0) as (Hl & Hm & _ & Hr & _ & Hp & Hn).
  cbn zeta in *. unfold Inv, in_cross in *. rewrite Hl, Hm, Hr.
  split; [done|]. split; [|split].
  - intros l m Hin. rewrite Hp. case_decide as Hc; [done|].
    destruct (lookup2 (promises st0) l m); [done|]. by destruct Hc.
  - intros l m. rewrite Hp, Hn. case_decide; [done|]. apply H1.
  - intros l m p. rewrite Hp. case_decide; [|apply H3].
    intros [= <-]. by left.
Qed.

Lemma Inv_setLocales (ls : list string) (st : State) :
  Inv params st → Inv params (setLocales params ls st).
Proof.
  intros (_ & _ & H1 & H3). apply Inv_reload; [apply uniq_NoDup|done|done].
Qed.

Lemma Inv_setModules (ms : list string) (st : State) :
  Inv params st → Inv params (setModules params ms st).
Proof.
  intros (Hnd & _ & H1 & H3). by apply Inv_reload.
Qed.

Lemma Inv_settle (locale module : string) (st : State) :
  Inv params st → Inv params (settle params locale module st).
Proof.
  intros (Hnd & H2 & H1 & H3).
  destruct (settle_fields params st locale module) as (Hl & Hm & _ & Hn & _ & Hp & Hr).
  cbn zeta in *. unfold Inv, in_cross in *. rewrite Hl, Hm, Hn.
  split; [done|]. split; [|split].
  - intros l m Hin. rewrite Hp. destruct (H2 l m Hin) as [[| |] ->]; [|done..].
    by case_decide.
  - intros l m. rewrite Hp, <- H1.
    destruct (lookup2 (promises st) l m) as [[| |]|]; [|done..].
    case_decide; split; done.
  - intros l m p. rewrite Hp, Hr.
    destruct (lookup2 (promises st) l m) as [[|r|e]|] eqn:E; [| | |done].
    + case_decide; intros [= <-]; [right; done|by left].
    + intros [= <-]. destruct (H3 l m _ E) as [?|[? ?]]; [done|]. by right.
    + intros [= <-]. destruct (H3 l m _ E) as [?|[? ?]]; done.
Qed.

Lemma Inv_step (st : State) (op : Op) : Inv params st → Inv params (step params st op).
Proof.
  intros HI. destruct op as [ls|ms|h|h|l m|d l m key|d m key values]; cbn [step].
  - by apply Inv_setLocales.
  - by apply Inv_setModules.
  - by apply (Inv_agree st).
  - by apply (Inv_agree st).
  - by apply Inv_settle.
  - by apply (Inv_agree st).
  - destruct (format_from_fields params d (locales st) (locales st) st m key values)
      as (? & ? & ? & ? & ? & ? & _).
    by apply (Inv_agree st).
Qed.

Lemma run_app (a b : list Op) (st : State) :
  run params (a ++ b) st = run params b (run params a st).
Proof. apply foldl_app. Qed.

Lemma Inv_run (ops : list Op) (st : State) : Inv params st → Inv params (run params ops st).
Proof.
  revert st. induction ops as [|op ops IH]; intros st HI; [done|].
  cbn. apply IH. by apply Inv_step.
Qed.

(** Promises and notifiers are never removed. *)
Lemma step_keeps_tables (st : State) (op : Op) (l m : string) :
  (is_Some (lookup2 (promises st) l m) →
   is_Some (lookup2 (promises (step params st op)) l m))
  ∧ (is_Some (lookup2 (notifiers st) l m) →
     is_Some (lookup2 (notifiers (step params st op)) l m)).
Proof.
  destruct op as [ls|ms|h|h|l0 m0|d l0 m0 key|d m0 key values]; cbn [step]; try done.
  - destruct (reload_fields params (set_locales (uniq ls) st)) as (_ & _ & _ & _ & _ & Hp & Hn).
    cbn zeta in *. unfold setLocales. rewrite Hp, Hn. by split; case_decide.
  - destruct (reload_fields params (set_modules (uniq ms) st)) as (_ & _ & _ & _ & _ & Hp & Hn).
    cbn zeta in *. unfold setModules. rewrite Hp, Hn. by split; case_decide.
  - destruct (settle_fields params st l0 m0) as (_ & _ & _ & Hn & _ & Hp & _).
    cbn zeta in *. rewrite Hp, Hn. split; [|done].
    destruct (lookup2 (promises st) l m) as [[| |]|]; try done. by case_decide.
  - destruct (format_from_fields params d (locales st) (locales st) st m0 key values)
      as (_ & _ & _ & Hp & _ & Hn & _).
    cbn zeta in *. unfold format. by rewrite Hp, Hn.
Qed.

Lemma run_keeps_notifiers (ops : list Op) (st : State) (l m : string) :
  is_Some (lookup2 (notifiers st) l m) →
  is_Some (lookup2 (notifiers (run params ops st)) l m).
Proof.
  revert st. induction ops as [|op ops IH]; intros st H; [done|].
  cbn. apply IH. by apply step_keeps_tables.
Qed.

(** A notifier exists only for a pair that was in a cross product. *)
Lemma notifier_only_reconciled (ops : list Op) (l m : string) :
  is_Some (lookup2 (notifiers (run params ops init)) l m) →
  ∃ pre, pre `prefix_of` ops ∧ in_cross (run params pre init) l m.
Proof.
  induction ops as [|op ops IH] using rev_ind.
  { cbn. by intros [? ?]. }
  rewrite run_app. cbn [run foldl].
  fold (run params ops init).
  assert (is_Some (lookup2 (notifiers (run params ops init)) l m) →
          ∃ pre, pre `prefix_of` ops ++ [op] ∧ in_cross (run params pre init) l m) as Hold.
  { intros H. destruct (IH H) as (pre & Hpre & Hin). exists pre. split; [|done].
    by apply prefix_app_r. }
  assert (in_cross (step params (run params ops init) op) l m →
          ∃ pre, pre `prefix_of` ops ++ [op] ∧ in_cross (run params pre init) l m) as Hnew.
  { intros H. exists (ops ++ [op]). split; [done|]. by rewrite run_app. }
  clear IH. revert Hold Hnew. generalize (run params ops init). intros st Hold Hnew.
  destruct op as [ls|ms|h|h|l0 m0|d l0 m0 key|d m0 key values]; cbn [step] in *; try done.
  - destruct (reload_fields params (set_locales (uniq ls) st)) as (Hl & Hm & _ & _ & _ & _ & Hn).
    cbn zeta in *. unfold setLocales in *. rewrite Hn.
    case_decide as Hc; [|done]. intros _. apply Hnew.
    unfold in_cross in *. rewrite Hl, Hm. tauto.
  - destruct (reload_fields params (set_modules (uniq ms) st)) as (Hl & Hm & _ & _ & _ & _ & Hn).
    cbn zeta in *. unfold setModules in *. rewrite Hn.
    case_decide as Hc; [|done]. intros _. apply Hnew.
    unfold in_cross in *. rewrite Hl, Hm. tauto.
  - destruct (settle_fields params st l0 m0) as (_ & _ & _ & Hn & _).
    cbn zeta in *. by rewrite Hn.
  - destruct (format_from_fields params d (locales st) (locales st) st m0 key values)
      as (_ & _ & _ & _ & _ & Hn & _).
    cbn zeta in *. unfold format. by rewrite Hn.
Qed.

End Reachable.



(** ** Waiting for the loads *)

Lemma mapM_all_ok {A B} (f : A → Result B) (g : A → B) (xs : list A) :
  (∀ x, x ∈ xs → f x = Ok (g x)) → mapM f xs = Ok (g <$> xs).
Proof.
  induction xs as [|x xs IH]; intros H; [done|].
  cbn [mapM fmap list_fmap]. rewrite (H x) by apply list_elem_of_here.
  cbn [mbind result_bind]. fold (mapM f xs).
  rewrite IH; [done|]. intros y Hy. apply H. by apply list_elem_of_further.
Qed.

Lemma wait_ok (st : State) :
  (∀ l m, in_cross st l m → is_Some (lookup2 (promises st) l m)) →
  wait st = Ok (Some <$> cross (locales st) (modules st)).
Proof.
  intros H. unfold wait. apply mapM_all_ok. intros [l m] Hin.
  apply elem_of_cross in Hin. destruct (H l m Hin) as [p Hp].
  unfold lookup2 in Hp. cbn [fst snd].
  destruct (promises st !! l) as [row|]; [|done]. cbn in Hp. by rewrite Hp.
Qed.

Lemma all_state_fulfilled (st : State) (awaited : list (option (string * string))) :
  all_state st awaited = AllFulfilled ↔ ∀ a, a ∈ awaited → settled_as st a = AllFulfilled.
Proof.
  unfold all_state. split.
  - intros H a Ha.
    case_bool_decide as Hr; [done|]. case_bool_decide as Hp; [done|].
    destruct (settled_as st a) eqn:E; [| done |].
    + destruct Hp. rewrite <- E. by apply list_elem_of_fmap_2.
    + destruct Hr. rewrite <- E. by apply list_elem_of_fmap_2.
  - intros H.
    rewrite bool_decide_eq_false_2.
    2:{ intros (a & E & Ha)%list_elem_of_fmap. rewrite (H a Ha) in E. done. }
    rewrite bool_decide_eq_false_2; [done|].
    intros (a & E & Ha)%list_elem_of_fmap. rewrite (H a Ha) in E. done.
Qed.

Lemma all_state_not_rejected (st : State) (awaited : list (option (string * string))) :
  (∀ a, a ∈ awaited → settled_as st a ≠ AllRejected) →
  all_state st awaited ≠ AllRejected.
Proof.
  intros H. unfold all_state.
  rewrite bool_decide_eq_false_2.
  - by case_bool_decide.
  - intros (a & E & Ha)%list_elem_of_fmap. by destruct (H a Ha).
Qed.

Section Waiting.
Variable params : Params.

Lemma settled_as_not_rejected (st : State) (a : option (string * string)) :
  Inv params st → settled_as st a ≠ AllRejected.
Proof.
  intros (_ & _ & _ & H3). destruct a as [[l m]|]; [|done]. cbn.
  destruct (lookup2 (promises st) l m) as [[|r|e]|] eqn:E; try done.
  destruct (H3 l m _ E) as [?|[? _]]; done.
Qed.

Lemma step_keeps_fulfilled (st : State) (op : Op) (l m : string) (r : Resource) :
  lookup2 (promises st) l m = Some (Fulfilled r) →
  lookup2 (promises (step params st op)) l m = Some (Fulfilled r).
Proof.
  intros H.
  destruct op as [ls|ms|h|h|l0 m0|d l0 m0 key|d m0 key values]; cbn [step]; try done.
  - destruct (reload_fields params (set_locales (uniq ls) st)) as (_ & _ & _ & _ & _ & Hp & _).
    cbn zeta in *. unfold setLocales. rewrite Hp. case_decide as Hc; [|done].
    destruct Hc as [_ Hc]. cbn in Hc. congruence.
  - destruct (reload_fields params (set_modules (uniq ms) st)) as (_ & _ & _ & _ & _ & Hp & _).
    cbn zeta in *. unfold setModules. rewrite Hp. case_decide as Hc; [|done].
    destruct Hc as [_ Hc]. cbn in Hc. congruence.
  - destruct (settle_fields params st l0 m0) as (_ & _ & _ & _ & _ & Hp & _).
    cbn zeta in *. by rewrite Hp, H.
  - destruct (format_from_fields params d (locales st) (locales st) st m0 key values)
      as (_ & _ & _ & Hp & _).
    cbn zeta in *. unfold format. by rewrite Hp.
Qed.

Lemma run_keeps_fulfilled (ops : list Op) (st : State) (l m : string) (r : Resource) :
  lookup2 (promises st) l m = Some (Fulfilled r) →
  lookup2 (promises (run params ops st)) l m = Some (Fulfilled r).
Proof.
  revert st. induction ops as [|op ops IH]; intros st H; [done|].
  cbn. apply IH. by apply step_keeps_fulfilled.
Qed.

(** Settling a pair that has a promise fulfils it. *)
Lemma settle_fulfils (st : State) (l m : string) :
  Inv params st → is_Some (lookup2 (promises st) l m) →
  lookup2 (promises (settle params l m st)) l m
  = Some (Fulfilled (settled_resource params l m)).
Proof.
  intros (_ & _ & _ & H3) [p Hp].
  destruct (settle_fields params st l m) as (_ & _ & _ & _ & _ & Hp' & _).
  cbn zeta in *. rewrite Hp', Hp.
  destruct (H3 l m p Hp) as [->|[-> _]]; [|done]. by rewrite decide_True.
Qed.

Lemma settle_all_fulfils (pairs : list (string * string)) (st : State) (l m : string) :
  Inv params st → (l, m) ∈ pairs → is_Some (lookup2 (promises st) l m) →
  lookup2 (promises (run params ((fun p => OSettle p.1 p.2) <$> pairs) st)) l m
  = Some (Fulfilled (settled_resource params l m)).
Proof.
  revert st. induction pairs as [|[l0 m0] pairs IH]; intros st HI Hin Hsome.
  { by apply elem_of_nil in Hin. }
  cbn [fmap list_fmap run foldl step fst snd].
  fold (run params ((fun p => OSettle p.1 p.2) <$> pairs) (settle params l0 m0 st)).
  apply elem_of_cons in Hin as [[= -> ->]|Hin].
  - apply run_keeps_fulfilled. by apply settle_fulfils.
  - apply IH; [by apply Inv_settle|done|].
    by apply (step_keeps_tables params st (OSettle l0 m0)).
Qed.

End Waiting.

(** X21. With [params.notify] returning and on ordinary names: in any state
    reached by a run, after [setLocales(L)] and [setModules(M)], [wait()] does
    not throw and awaits the promise of every pair of L×M.  Whatever happens
    next, in whatever order the loads settle, no awaited promise is ever
    rejected, so neither is the promise [wait()] returned; once it is
    fulfilled every pair of L×M has its settled resource stored: the loaded
    one, or the empty one when the load threw or rejected.  And it does get
    fulfilled once each load has settled. *)
Theorem wait_settles_every_pair (params : Params) (ops : list Op) (L M : list string) :
  let st1 := setModules params M (setLocales params L (run params ops init)) in
  let awaited := Some <$> cross (uniq L) (uniq M) in
  run_known params (ops ++ [OSetLocales L; OSetModules M]) init →
  wait st1 = Ok awaited
  ∧ (∀ later : list Op,
       run_known params later st1 →
       let st2 := run params later st1 in
       all_state st2 awaited ≠ AllRejected
       ∧ (all_state st2 awaited = AllFulfilled →
          ∀ l m, l ∈ L → m ∈ M →
            lookup2 (resources st2) l m = Some (settled_resource params l m)
            ∧ settled_resource params l m
              = match load params l m with Ok r => r | Throw _ => ∅ end))
  ∧ all_state (run params ((fun p => OSettle p.1 p.2) <$> cross (uniq L) (uniq M)) st1)
      awaited = AllFulfilled.
Proof.
  intros st1 awaited _.
  assert (Inv params st1) as HI.
  { apply Inv_setModules, Inv_setLocales, Inv_run, Inv_init. }
  assert (locales st1 = uniq L ∧ modules st1 = uniq M) as [Hl Hm].
  { subst st1. unfold setModules, setLocales.
    destruct (reload_fields params
                (set_modules (uniq M)
                   (reload params (set_locales (uniq L) (run params ops init)))))
      as (-> & -> & _).
    destruct (reload_fields params (set_locales (uniq L) (run params ops init)))
      as (Hl & _).
    cbn zeta in *. split; [|done]. cbn [locales set_modules]. by rewrite Hl. }
  split; [|split].
  - rewrite (wait_ok st1) by apply (proj1 (proj2 HI)). by rewrite Hl, Hm.
  - intros later _ st2.
    assert (Inv params st2) as HI2 by by apply Inv_run.
    split.
    + apply all_state_not_rejected. intros a _. by apply (settled_as_not_rejected params).
    + intros Hall l m HlL HmM. split; [|done].
      assert (Some (l, m) ∈ awaited) as Hin.
      { subst awaited. apply list_elem_of_fmap_2, elem_of_cross.
        by rewrite !uniq_elem. }
      pose proof (proj1 (all_state_fulfilled st2 awaited) Hall _ Hin) as Hs.
      cbn in Hs. destruct (lookup2 (promises st2) l m) as [[|r|e]|] eqn:E; try done.
      destruct HI2 as (_ & _ & _ & H3).
      destruct (H3 l m _ E) as [?|[_ ?]]; done.
  - apply all_state_fulfilled. intros a (p & -> & Hp)%list_elem_of_fmap.
    destruct p as [l m]. cbn [settled_as].
    rewrite (settle_all_fulfils params _ st1 l m HI Hp); [done|].
    apply (proj1 (proj2 HI)). apply elem_of_cross in Hp.
    unfold in_cross. by rewrite Hl, Hm.
Qed.

Lemma wait_settles_every_pair_witness :
  lookup2 (resources (Demo.loaded Demo.params)) "pt-BR" "m2" = Some ∅
  ∧ lookup2 (resources (Demo.loaded Demo.params)) "en-US" "m2" = Some Demo.m2.
Proof.
  assert (run_known Demo.params
            ([] ++ [OSetLocales ["pt-BR"; "en-US"]; OSetModules ["m1"; "m2"]]) init) as Hk.
  { cbn. repeat split; repeat constructor. }
  pose proof (proj1 (proj2
    (wait_settles_every_pair Demo.params [] ["pt-BR"; "en-US"] ["m1"; "m2"] Hk))
      [OSettle "pt-BR" "m1"; OSettle "en-US" "m2"; OSettle "en-US" "m1";
       OSettle "pt-BR" "m2"]) as H.
  assert (run_known Demo.params
            [OSettle "pt-BR" "m1"; OSettle "en-US" "m2"; OSettle "en-US" "m1";
             OSettle "pt-BR" "m2"]
            (setModules Demo.params ["m1"; "m2"]
               (setLocales Demo.params ["pt-BR"; "en-US"] (run Demo.params [] init))))
    as Hlater.
  { cbn. repeat split. }
  specialize (H Hlater). cbn zeta in H. destruct H as [_ H].
  split.
  - refine (proj1 (H _ "pt-BR" "m2" _ _)).
    + vm_compute. reflexivity.
    + apply list_elem_of_here.
    + apply list_elem_of_further, list_elem_of_here.
  - refine (proj1 (H _ "en-US" "m2" _ _)).
    + vm_compute. reflexivity.
    + apply list_elem_of_further, list_elem_of_here.
    + apply list_elem_of_further, list_elem_of_here.
Defined.

(** ** Formatting *)

Lemma formatter_id_inj_locale (l l' module : string) (key : list string) :
  formatter_id l module key = formatter_id l' module key → l = l'.
Proof. unfold formatter_id. apply append_inv_tail. Qed.

Section Format.
Variable params : Params.

(** The body of [try] on a cache miss and on a cache hit. *)
Lemma attempt_miss d (st : State) locale module key values :
  formatters st !! formatter_id locale module key = None →
  (attempt params d st locale module key values).2
  = (raw ← (read d st locale module key).2;
     formatter ← parse params locale module [] raw;
     formatter values).
Proof.
  intros Hf. unfold attempt. rewrite Hf.
  destruct (read d st locale module key) as [evs [raw|e]]; [|done].
  cbn [snd mbind result_bind].
  by destruct (parse params locale module [] raw).
Qed.

Lemma attempt_hit d (st : State) locale module key values formatter :
  formatters st !! formatter_id locale module key = Some formatter →
  attempt params d st locale module key values = (st, formatter values).
Proof. intros Hf. unfold attempt. by rewrite Hf. Qed.

Lemma attempt_result_agree d (st st' : State) locale module key values :
  agree_on [formatter_id locale module key] st st' →
  (attempt params d st locale module key values).2
  = (attempt params d st' locale module key values).2.
Proof.
  intros (Hr & Hn & Hf).
  specialize (Hf _ (list_elem_of_here _ _)).
  destruct (formatters st' !! formatter_id locale module key) as [f|] eqn:E.
  - by rewrite (attempt_hit _ st _ _ _ _ f), (attempt_hit _ st' _ _ _ _ f).
  - rewrite !attempt_miss by done. by rewrite (read_ext d st st').
Qed.

Lemma format_from_first_ok d all (todo : list string) (st0 st : State) module key values :
  NoDup todo →
  agree_on ((fun l => formatter_id l module key) <$> todo) st0 st →
  (format_from params d all todo st module key values).2
  = first_ok ((fun l => (attempt params d st0 l module key values).2) <$> todo)
      (fallback all module key).
Proof.
  revert st. induction todo as [|l todo IH]; intros st Hnd Hag; [done|].
  apply NoDup_cons in Hnd as [Hl Hnd].
  cbn [format_from fmap list_fmap first_ok].
  rewrite (attempt_result_agree d st0 st).
  2:{ destruct Hag as (Hr & Hn & Hf). repeat split; try done.
      intros id ->%list_elem_of_singleton. apply Hf, list_elem_of_here. }
  destruct (attempt_fields params d st l module key values)
    as (_ & _ & _ & _ & Hr & Hn & _ & Hother).
  destruct (attempt params d st l module key values) as [st1 [v|e]]; cbn [fst snd] in *;
    [done|].
  apply IH; [done|].
  destruct Hag as (Hr0 & Hn0 & Hf0).
  assert (∀ id, id ∈ (fun l => formatter_id l module key) <$> todo →
                formatters st0 !! id = formatters st1 !! id) as Hf1.
  { intros id Hid. rewrite Hother.
    - apply Hf0. by apply list_elem_of_further.
    - intros ->. apply list_elem_of_fmap in Hid as (l' & E & Hl').
      apply formatter_id_inj_locale in E. by subst. }
  destruct (lookup2 (resources st) l module); repeat split; cbn;
    first [congruence | exact Hf1].
Qed.

Lemma first_ok_is_ok (results : list (Result string)) (fb : string) :
  ∃ v, first_ok results fb = Ok v.
Proof. induction results as [|[v|e] results IH]; cbn; eauto. Qed.

Lemma first_ok_found (pre post : list (Result string)) (v fb : string) :
  (∀ r, r ∈ pre → ∃ e, r = Throw e) →
  first_ok (pre ++ Ok v :: post) fb = Ok v.
Proof.
  induction pre as [|r pre IH]; intros H; [done|].
  destruct (H r (list_elem_of_here _ _)) as [e ->]. cbn.
  apply IH. intros r' Hr'. apply H. by apply list_elem_of_further.
Qed.

Lemma first_ok_none (results : list (Result string)) (fb : string) :
  (∀ r, r ∈ results → ∃ e, r = Throw e) → first_ok results fb = Ok fb.
Proof.
  induction results as [|r results IH]; intros H; [done|].
  destruct (H r (list_elem_of_here _ _)) as [e ->]. cbn.
  apply IH. intros r' Hr'. apply H. by apply list_elem_of_further.
Qed.

Lemma format_from_never_throws d all todo (st : State) module key values :
  ∃ v, (format_from params d all todo st module key values).2 = Ok v.
Proof.
  revert st. induction todo as [|l todo IH]; intros st; cbn [format_from]; [eauto|].
  destruct (attempt params d st l module key values) as [st1 [v|e]]; [eauto|].
  apply IH.
Qed.

End Format.

(** X20. On ordinary names [format] never throws: it returns a value.  With
    the locales in priority order and no locale twice (as [setLocales] leaves
    them), the value is that of the first locale whose attempt succeeds, the
    attempts being independent of each other; when every locale fails it is
    the locales joined by [|], a colon, the module, a colon, and the key
    segments joined by dots.  An attempt is the body of [try]: with no
    formatter stored under the identifier of the locale, module and key it
    reads the expanded string, parses it and calls the formatter with the
    values; with one stored it calls that formatter. *)
Theorem format_never_throws (params : Params) (d : nat) (st : State)
    (module : string) (key : list string) (values : Values) :
  let result := (format params d st module key values).2 in
  let try_ (locale : string) := (attempt params d st locale module key values).2 in
  format_known d st module key →
  (∃ v, result = Ok v)
  ∧ (NoDup (locales st) →
     result = first_ok (try_ <$> locales st) (fallback (locales st) module key)
     ∧ (∀ pre locale post v,
          locales st = pre ++ locale :: post →
          (∀ l, l ∈ pre → ∃ e, try_ l = Throw e) →
          try_ locale = Ok v → result = Ok v)
     ∧ ((∀ l, l ∈ locales st → ∃ e, try_ l = Throw e) →
        result = Ok (Str.join "|" (locales st) +:+ ":" +:+ module +:+ ":"
                     +:+ Str.join "." key)))
  ∧ (∀ locale,
       formatters st !! formatter_id locale module key = None →
       try_ locale = (raw ← (read d st locale module key).2;
                      formatter ← parse params locale module [] raw;
                      formatter values))
  ∧ (∀ locale formatter,
       formatters st !! formatter_id locale module key = Some formatter →
       try_ locale = formatter values).
Proof.
  intros result try_ _. split; [apply format_from_never_throws|].
  split; [|split].
  - intros Hnd.
    assert (result = first_ok (try_ <$> locales st) (fallback (locales st) module key))
      as Hfirst.
    { apply (format_from_first_ok params d (locales st) (locales st) st st); [done|].
      by repeat split. }
    split; [done|]. split.
    + intros pre locale post v Hsplit Hpre Hok.
      rewrite Hfirst, Hsplit, fmap_app, fmap_cons, Hok.
      apply first_ok_found. intros r (l & -> & Hl)%list_elem_of_fmap. by apply Hpre.
    + intros Hall. rewrite Hfirst.
      apply first_ok_none. intros r (l & -> & Hl)%list_elem_of_fmap. by apply Hall.
  - intros locale Hf. by apply attempt_miss.
  - intros locale formatter Hf. subst try_. cbn beta.
    by rewrite (attempt_hit params d st locale module key values formatter).
Qed.

Lemma format_known_loaded (key : list string) :
  read_known 8 (Demo.loaded Demo.params) "pt-BR" "m1" key = true →
  read_known 8 (Demo.loaded Demo.params) "en-US" "m1" key = true →
  format_known 8 (Demo.loaded Demo.params) "m1" key.
Proof.
  intros H1 H2. split; [reflexivity|]. intros l Hl. vm_compute in Hl.
  apply list_elem_of_In in Hl. cbn in Hl.
  destruct Hl as [<-|[<-|[]]]; split; (reflexivity || assumption).
Qed.

Lemma format_never_throws_witness :
  (format Demo.params 8 (Demo.loaded Demo.params) "m1" ["welcome"] None).2 = Ok "Hi X"
  ∧ (format Demo.params 8 (Demo.loaded Demo.params) "m1" ["absent"; "key"] None).2
    = Ok "pt-BR|en-US:m1:absent.key".
Proof.
  pose proof (proj1 (proj2 (format_never_throws Demo.params 8 (Demo.loaded Demo.params)
                              "m1" ["welcome"] None
                              (format_known_loaded ["welcome"] eq_refl eq_refl)))) as H1.
  pose proof (proj1 (proj2 (format_never_throws Demo.params 8 (Demo.loaded Demo.params)
                              "m1" ["absent"; "key"] None
                              (format_known_loaded ["absent"; "key"] eq_refl eq_refl))))
    as H2.
  split.
  - refine (proj1 (proj2 (H1 _)) ["pt-BR"] "en-US" [] "Hi X" _ _ _).
    + vm_compute. repeat constructor; intros H; apply list_elem_of_In in H; cbn in H;
        intuition discriminate.
    + vm_compute. reflexivity.
    + intros l ->%list_elem_of_singleton. vm_compute. eauto.
    + vm_compute. reflexivity.
  - refine (proj2 (proj2 (H2 _)) _).
    + vm_compute. repeat constructor; intros H; apply list_elem_of_In in H; cbn in H;
        intuition discriminate.
    + intros l Hl. vm_compute in Hl. apply list_elem_of_In in Hl. cbn in Hl.
      destruct Hl as [<-|[<-|[]]]; vm_compute; eauto.
Defined.

(** C1.  The claim fails at a failing input.  The identifier of a cached
    formatter is [`${locale}:${module}:${key}`], the key path joined by
    commas, so the key paths [["a,b"]] and [["a"; "b"]] share one.  In the
    loaded instance, once [["a,b"]] was formatted, reading [["a"; "b"]]
    returns ["nested"], parsing it and calling the formatter return
    ["nested"], and [format] of [["a"; "b"]] returns ["AB"], the text of the
    other key. *)
Theorem format_id_collision :
  let st := setLocales Demo.params ["en-US"] (Demo.loaded Demo.params) in
  let st1 := (format Demo.params 8 st "m1" ["a,b"] None).1 in
  (read 8 st1 "en-US" "m1" ["a"; "b"]).2 = Ok "nested"
  ∧ (formatter ← parse Demo.params "en-US" "m1" [] "nested"; formatter None) = Ok "nested"
  ∧ (format Demo.params 8 st "m1" ["a"; "b"] None).2 = Ok "nested"
  ∧ (format Demo.params 8 st1 "m1" ["a"; "b"] None).2 = Ok "AB".
Proof. vm_compute. repeat split. Qed.

(** ** Notifier calls *)

Lemma read_notifies_first d (st : State) locale module key (notifier : Notifier) :
  lookup2 (notifiers st) locale module = Some notifier →
  ∃ evs r,
    read (S d) st locale module key
    = (ENotify locale module key (raw_of (lookup2 (resources st) locale module) key)
         :: evs, r).
Proof.
  intros Hn. rewrite read_unfold, Hn. cbn zeta.
  destruct (notifier _ _); [|eauto].
  destruct (Js.falsy _); [eauto|].
  destruct (raw_of _ _) as [|s|r|n]; eauto.
  destruct (expand d st locale module s) as [evs r]. cbn. eauto.
Qed.

(** C6, as the code has it.  On ordinary names, every call of [read] on a pair
    that has a notifier calls it first, with the key path and the raw value,
    whatever follows (a return, KeyMissing, KeyPartial, or a throw of the
    notifier itself).  [format], and the proxy's call operator, which is
    [format] followed by the tagger, reach the notifier only through [read]:
    an attempt that finds no stored formatter reads and so notifies, an
    attempt that finds one changes nothing in the state, so no notifier is
    called. *)
Theorem notifier_called_by_read :
  (∀ (d : nat) (st : State) (locale module : string) (key : list string)
     (notifier : Notifier),
     pair_known st locale module key = true →
     lookup2 (notifiers st) locale module = Some notifier →
     ∃ evs r,
       read (S d) st locale module key
       = (ENotify locale module key (raw_of (lookup2 (resources st) locale module) key)
            :: evs, r))
  ∧ (∀ (params : Params) (d : nat) (st : State) (locale module : string)
       (key : list string) (values : Values) (notifier : Notifier),
       pair_known st locale module key = true →
       lookup2 (notifiers st) locale module = Some notifier →
       formatters st !! formatter_id locale module key = None →
       ∃ evs,
         log (attempt params (S d) st locale module key values).1
         = log st
           ++ ENotify locale module key (raw_of (lookup2 (resources st) locale module) key)
           :: evs)
  ∧ (∀ (params : Params) (d : nat) (st : State) (locale module : string)
       (key : list string) (values : Values) (formatter : Formatter),
       formatters st !! formatter_id locale module key = Some formatter →
       (attempt params d st locale module key values).1 = st)
  ∧ (∀ (params : Params) (d : nat) (st : State) (target : ProxyObject)
       (values : Values) tags,
       (proxy_apply params d st target values tags).1
       = (format params d st (px_module target) (px_key target) values).1).
Proof.
  split; [|split; [|split]].
  - intros d st locale module key notifier _. apply read_notifies_first.
  - intros params d st locale module key values notifier _ Hn Hf.
    destruct (read_notifies_first d st locale module key notifier Hn) as (evs & r & Hread).
    unfold attempt. rewrite Hf, Hread.
    destruct r as [raw|e]; [|cbn; eauto].
    destruct (parse params locale module [] raw) as [f|e]; cbn.
    + rewrite <- app_assoc. cbn. eauto.
    + rewrite <- app_assoc. cbn. eauto.
  - intros params d st locale module key values formatter Hf.
    by rewrite (attempt_hit params d st locale module key values formatter).
  - intros params d st target values tags. unfold proxy_apply.
    destruct (format params d st (px_module target) (px_key target) values) as [st' [v|e]];
      [|done].
    by destruct tags.
Qed.

Lemma notifier_called_by_read_witness :
  ∃ evs r,
    read 3 (Demo.loaded Demo.params) "en-US" "m1" ["empty"]
    = (ENotify "en-US" "m1" ["empty"]
         (raw_of (lookup2 (resources (Demo.loaded Demo.params)) "en-US" "m1") ["empty"])
         :: evs, r).
Proof.
  apply (proj1 notifier_called_by_read 2 (Demo.loaded Demo.params) "en-US" "m1" ["empty"]
           (default_notify "en-US" "m1")).
  - vm_compute. reflexivity.
  - vm_compute. reflexivity.
Defined.

(** C6 as stated fails: with [en-US] the only locale, the first [format] of
    key [app] calls the notifier of the pair once; the second [format] of the
    same key returns ["X"] again and calls no notifier. *)
Lemma format_cached_counterexample :
  let st := setLocales Demo.params ["en-US"] (Demo.loaded Demo.params) in
  let st1 := (format Demo.params 8 st "m1" ["app"] None).1 in
  let st2 := (format Demo.params 8 st1 "m1" ["app"] None).1 in
  (format Demo.params 8 st "m1" ["app"] None).2 = Ok "X"
  ∧ (format Demo.params 8 st1 "m1" ["app"] None).2 = Ok "X"
  ∧ notify_calls (log st) = []
  ∧ notify_calls (log st1) = [ENotify "en-US" "m1" ["app"] (VStr "X")]
  ∧ notify_calls (log st2) = [ENotify "en-US" "m1" ["app"] (VStr "X")].
Proof. vm_compute. repeat split. Qed.

(** ** The formatter cache *)

Lemma separator_inj (sep : ascii) (a a' r r' : string) :
  Str.mem sep a = false → Str.mem sep a' = false →
  a +:+ String sep r = a' +:+ String sep r' → a = a' ∧ r = r'.
Proof.
  revert a'. induction a as [|c a IH]; intros [|c' a'] Ha Ha' H; simpl in H.
  - by injection H.
  - injection H as <- _. unfold Str.mem in Ha'. cbn in Ha'.
    by rewrite Ascii.eqb_refl in Ha'.
  - injection H as -> _. unfold Str.mem in Ha. cbn in Ha.
    by rewrite Ascii.eqb_refl in Ha.
  - injection H as <- H.
    unfold Str.mem in Ha, Ha'. cbn [Str.any] in Ha, Ha'.
    apply orb_false_elim in Ha as [_ Ha]. apply orb_false_elim in Ha' as [_ Ha'].
    destruct (IH a' Ha Ha' H) as [-> ->]. done.
Qed.

Lemma split_join (sep : ascii) (key : list string) :
  key ≠ [] → Forall (fun s => Str.mem sep s = false) key →
  Str.split sep (Str.join (String sep "") key) = key.
Proof.
  induction key as [|x key IH]; intros Hne Hall; [done|].
  apply Forall_cons in Hall as [Hx Hall].
  destruct key as [|y key].
  - unfold Str.split, Str.join. cbn [String.concat]. by rewrite split_aux_plain.
  - rewrite join_cons2. unfold Str.split.
    change (String sep "" +:+ Str.join (String sep "") (y :: key))
      with (String sep (Str.join (String sep "") (y :: key))).
    rewrite split_aux_sep, split_aux_plain by done. cbn [app]. f_equal.
    by apply IH.
Qed.

(** Away from the separators the identifier determines the triple. *)
Lemma formatter_id_inj (l m l' m' : string) (k k' : list string) :
  Str.mem ":" l = false → Str.mem ":" l' = false →
  Str.mem ":" m = false → Str.mem ":" m' = false →
  Forall (fun s => Str.mem "," s = false) k → Forall (fun s => Str.mem "," s = false) k' →
  k ≠ [] → k' ≠ [] →
  formatter_id l m k = formatter_id l' m' k' → (l, m, k) = (l', m', k').
Proof.
  intros Hl Hl' Hm Hm' Hk Hk' Hne Hne' H. unfold formatter_id in H.
  change (":" +:+ m +:+ ":" +:+ Str.join "," k)
    with (String ":" (m +:+ String ":" (Str.join "," k))) in H.
  change (":" +:+ m' +:+ ":" +:+ Str.join "," k')
    with (String ":" (m' +:+ String ":" (Str.join "," k'))) in H.
  apply separator_inj in H as [-> H]; [|done..].
  apply separator_inj in H as [-> H]; [|done..].
  apply (f_equal (Str.split ",")) in H.
  rewrite !split_join in H by done. by subst.
Qed.

Lemma parse_calls_app (a b : list Event) :
  parse_calls (a ++ b) = parse_calls a + parse_calls b.
Proof. unfold parse_calls. by rewrite List.filter_app, length_app. Qed.

Lemma replaceAll_no_parse (f : string → list Event * Result string) (ps : list Nest.Piece) :
  (∀ x, parse_calls (f x).1 = 0) → parse_calls (Nest.replaceAll f ps).1 = 0.
Proof.
  intros Hf. induction ps as [|[c|x] ps IH]; cbn [Nest.replaceAll]; [done| |].
  - by destruct (Nest.replaceAll f ps).
  - specialize (Hf x). destruct (f x) as [evs [s|e]]; [|done].
    destruct (Nest.replaceAll f ps) as [evs' r]. cbn [fst] in *.
    rewrite parse_calls_app. lia.
Qed.

(** [read] never calls the parse collaborator. *)
Lemma read_no_parse d (st : State) locale module key :
  parse_calls (read d st locale module key).1 = 0.
Proof.
  revert module key. induction d as [|d IH]; intros module key; [done|].
  rewrite read_unfold. cbn zeta.
  destruct (lookup2 (notifiers st) locale module) as [notifier|]; [|done].
  destruct (notifier _ _); [|done].
  destruct (Js.falsy _); [done|].
  destruct (raw_of _ _) as [|s|r|n]; try done.
  pose proof (replaceAll_no_parse
    (fun nestedId =>
       match Nest.target module nestedId with
       | Throw e => ([], Throw e)
       | Ok (ns, key') => read d st locale ns key'
       end) (Nest.pieces s)) as H.
  fold (expand d st locale module s) in H.
  destruct (expand d st locale module s) as [evs r]. cbn [fst] in *.
  rewrite parse_calls_app, H; [done|].
  intros x. by destruct (Nest.target module x) as [[ns key']|e].
Qed.

(** C7, as the code has it.  Formatters are stored under the identifier
    built from the triple.  A call of [format] never replaces or removes a
    stored formatter, and leaves untouched every identifier other than those
    of its own module and key under the active locales; no other operation
    touches the cache.  An attempt that finds a formatter stored calls it and
    changes nothing: the parse collaborator is not called.  An attempt that
    finds none and reads successfully (on ordinary names) calls the parse
    collaborator exactly once: when it returns, the formatter is stored; when
    it throws, nothing is stored and the next attempt parses again.  Triples
    whose locale and module hold no colon and whose key path is non-empty with
    no comma in a segment have different identifiers when they differ. *)
Theorem formatter_cache (params : Params) (d : nat) (st : State) (module : string)
    (key : list string) (values : Values) :
  let st' := (format params d st module key values).1 in
  (∀ id f, formatters st !! id = Some f → formatters st' !! id = Some f)
  ∧ (∀ id, (∀ l, l ∈ locales st → id ≠ formatter_id l module key) →
       formatters st' !! id = formatters st !! id)
  ∧ (∀ op, (∀ d' m k v, op ≠ OFormat d' m k v) →
       formatters (step params st op) = formatters st)
  ∧ (∀ l f, formatters st !! formatter_id l module key = Some f →
       attempt params d st l module key values = (st, f values))
  ∧ (∀ l raw f,
       read_known d st l module key = true →
       formatters st !! formatter_id l module key = None →
       (read d st l module key).2 = Ok raw →
       parse params l module [] raw = Ok f →
       let after := attempt params d st l module key values in
       formatters after.1 !! formatter_id l module key = Some f
       ∧ after.2 = f values
       ∧ parse_calls (log after.1) = S (parse_calls (log st)))
  ∧ (∀ l raw e,
       read_known d st l module key = true →
       formatters st !! formatter_id l module key = None →
       (read d st l module key).2 = Ok raw →
       parse params l module [] raw = Throw e →
       let after := attempt params d st l module key values in
       let again := attempt params d after.1 l module key values in
       formatters after.1 = formatters st
       ∧ after.2 = Throw e
       ∧ parse_calls (log after.1) = S (parse_calls (log st))
       ∧ formatters again.1 = formatters st
       ∧ again.2 = Throw e
       ∧ parse_calls (log again.1) = S (S (parse_calls (log st))))
  ∧ (∀ l m l' m' k k',
       Str.mem ":" l = false → Str.mem ":" l' = false →
       Str.mem ":" m = false → Str.mem ":" m' = false →
       Forall (fun s => Str.mem "," s = false) k →
       Forall (fun s => Str.mem "," s = false) k' →
       k ≠ [] → k' ≠ [] →
       (l, m, k) ≠ (l', m', k') → formatter_id l m k ≠ formatter_id l' m' k').
Proof.
  intros st'.
  destruct (format_from_fields params d (locales st) (locales st) st module key values)
    as (_ & _ & _ & _ & _ & _ & Hmono & Hother).
  split; [exact Hmono|]. split; [exact Hother|]. split; [|split; [|split; [|split]]].
  - intros op Hop.
    destruct op as [ls|ms|h|h|l0 m0|d0 l0 m0 k0|d0 m0 k0 v0]; cbn [step];
      unfold setLocales, setModules; try done.
    + by destruct (reload_fields params (set_locales (uniq ls) st)) as (_ & _ & _ & _ & -> & _).
    + by destruct (reload_fields params (set_modules (uniq ms) st)) as (_ & _ & _ & _ & -> & _).
    + by destruct (settle_fields params st l0 m0) as (_ & _ & _ & _ & -> & _).
    + by destruct (Hop d0 m0 k0 v0).
  - intros l f. apply attempt_hit.
  - intros l raw f _ Hf Hread Hparse after. subst after. unfold attempt. rewrite Hf.
    pose proof (read_no_parse d st l module key) as Hnone.
    destruct (read d st l module key) as [evs r]. cbn [fst snd] in *. subst r.
    rewrite Hparse. cbn [fst snd formatters set_formatters add_log log].
    rewrite lookup_insert_eq, !parse_calls_app, Hnone. cbn. split; [done|].
    split; [done|lia].
  - intros l raw e _ Hf Hread Hparse after again.
    pose proof (read_no_parse d st l module key) as Hnone.
    assert (after = (add_log [EParse l module [] raw]
                       (add_log (read d st l module key).1 st), Throw e)) as Hafter.
    { subst after. unfold attempt. rewrite Hf.
      destruct (read d st l module key) as [evs r]. cbn [fst snd] in *. subst r.
      by rewrite Hparse. }
    assert (again = (add_log [EParse l module [] raw]
                       (add_log (read d st l module key).1 after.1), Throw e)) as Hagain.
    { subst again. rewrite Hafter. cbn [fst]. unfold attempt.
      cbn [formatters add_log]. rewrite Hf.
      rewrite (read_ext d _ st) by done.
      destruct (read d st l module key) as [evs r]. cbn [fst snd] in *. subst r.
      by rewrite Hparse. }
    rewrite Hagain, Hafter. cbn [fst snd formatters add_log log].
    rewrite !parse_calls_app, Hnone. cbn. repeat split; lia.
  - intros l m l' m' k k' Hl Hl' Hm Hm' Hk Hk' Hne Hne' Hdiff Hid.
    by apply Hdiff, formatter_id_inj.
Qed.

Lemma formatter_cache_witness :
  formatters (format Demo.params 8 (Demo.loaded Demo.params) "m1" ["app"] None).1
    !! formatter_id "en-US" "m2" ["other"]
  = formatters (Demo.loaded Demo.params) !! formatter_id "en-US" "m2" ["other"]
  ∧ formatter_id "en-US" "m1" ["app"] ≠ formatter_id "en-US" "m2" ["other"].
Proof.
  split.
  - apply (proj1 (proj2 (formatter_cache Demo.params 8 (Demo.loaded Demo.params)
                           "m1" ["app"] None))).
    intros l Hl. vm_compute in Hl. apply list_elem_of_In in Hl. cbn in Hl.
    destruct Hl as [<-|[<-|[]]]; vm_compute; discriminate.
  - apply (proj2 (proj2 (proj2 (proj2 (proj2
             (formatter_cache Demo.params 8 (Demo.loaded Demo.params) "m1" ["app"] None))))));
      try reflexivity; try discriminate.
    + repeat constructor.
    + repeat constructor.
Defined.

(** C7 as stated fails.  The triples with key paths [["a,b"]] and
    [["a"; "b"]] differ and have one identifier: once the first is formatted,
    [format] of the second returns the first one's text, not its own.  And
    with a parse collaborator that throws, two calls of [format] for one
    triple call it twice. *)
Lemma formatter_cache_counterexample :
  let st := setLocales Demo.params ["en-US"] (Demo.loaded Demo.params) in
  let st1 := (format Demo.params 8 st "m1" ["a,b"] None).1 in
  (["a,b"] : list string) ≠ ["a"; "b"]
  ∧ formatter_id "en-US" "m1" ["a,b"] = formatter_id "en-US" "m1" ["a"; "b"]
  ∧ (format Demo.params 8 st "m1" ["a"; "b"] None).2 = Ok "nested"
  ∧ (format Demo.params 8 st "m1" ["a,b"] None).2 = Ok "AB"
  ∧ (format Demo.params 8 st1 "m1" ["a"; "b"] None).2 = Ok "AB"
  ∧ (let s := setLocales Demo.strict_params ["en-US"] (Demo.loaded Demo.strict_params) in
     let s1 := (format Demo.strict_params 8 s "m1" ["app"] None).1 in
     let s2 := (format Demo.strict_params 8 s1 "m1" ["app"] None).1 in
     parse_calls (log s) = 0 ∧ parse_calls (log s1) = 1 ∧ parse_calls (log s2) = 2).
Proof. vm_compute. repeat split. discriminate. Qed.

(** * Further properties *)

(** ** Replacing the locales and the modules *)

Lemma uniq_from_snoc (seen xs : list string) (y : string) :
  uniq_from seen (xs ++ [y])
  = uniq_from seen xs ++ (if decide (y ∈ seen ∨ y ∈ xs) then [] else [y]).
Proof.
  revert seen. induction xs as [|x xs IH]; intros seen; cbn [app uniq_from].
  - destruct (decide (y ∈ seen)) as [Hy|Hy].
    + rewrite decide_True by (by left). done.
    + rewrite decide_False; [done|]. intros [?|?%elem_of_nil]; done.
  - destruct (decide (x ∈ seen)) as [Hx|Hx].
    + rewrite IH. f_equal. apply decide_ext. rewrite elem_of_cons. split; [tauto|].
      intros [?|[->|?]]; tauto.
    + rewrite IH. cbn [app]. do 2 f_equal. apply decide_ext.
      rewrite !elem_of_cons. tauto.
Qed.

Lemma uniq_from_sublist (seen xs : list string) : uniq_from seen xs `sublist_of` xs.
Proof.
  revert seen. induction xs as [|x xs IH]; intros seen; cbn [uniq_from]; [done|].
  case_decide; [by apply sublist_cons|by apply sublist_skip].
Qed.

Lemma uniq_from_NoDup_id (seen xs : list string) :
  NoDup xs → (∀ x, x ∈ xs → x ∉ seen) → uniq_from seen xs = xs.
Proof.
  revert seen. induction xs as [|x xs IH]; intros seen Hnd Hseen; [done|].
  apply NoDup_cons in Hnd as [Hx Hnd]. cbn [uniq_from].
  rewrite decide_False by (apply Hseen, list_elem_of_here).
  f_equal. apply IH; [done|]. intros y Hy. rewrite not_elem_of_cons. split.
  - by intros ->.
  - apply Hseen. by apply list_elem_of_further.
Qed.

(** X1. [setLocales] replaces the locale sequence by its arguments with the
    repeated ones dropped and leaves the modules alone; [setModules] does the
    same to the modules.  What is kept is the first occurrence of each
    element, in the order given: an element appended to the arguments is
    appended to the result when it is new and changes nothing when it is not;
    arguments without repetition are taken as they are. *)
Theorem setLocales_setModules_replace (params : Params) (xs : list string) (st : State) :
  locales (setLocales params xs st) = uniq xs
  ∧ modules (setLocales params xs st) = modules st
  ∧ modules (setModules params xs st) = uniq xs
  ∧ locales (setModules params xs st) = locales st
  ∧ NoDup (uniq xs)
  ∧ (∀ x, x ∈ uniq xs ↔ x ∈ xs)
  ∧ uniq xs `sublist_of` xs
  ∧ (∀ y, uniq (xs ++ [y]) = if decide (y ∈ xs) then uniq xs else uniq xs ++ [y])
  ∧ (NoDup xs → uniq xs = xs).
Proof.
  destruct (reload_fields params (set_locales (uniq xs) st)) as (Hl & Hm & _).
  destruct (reload_fields params (set_modules (uniq xs) st)) as (Hl' & Hm' & _).
  cbn zeta in *. unfold setLocales, setModules.
  rewrite Hl, Hm, Hl', Hm'. cbn [locales modules set_locales set_modules].
  repeat split; try done.
  - apply uniq_NoDup.
  - by apply uniq_elem.
  - by apply uniq_elem.
  - apply uniq_from_sublist.
  - intros y. unfold uniq. rewrite uniq_from_snoc.
    destruct (decide (y ∈ xs)) as [Hy|Hy].
    + rewrite decide_True by (by right). apply app_nil_r.
    + rewrite decide_False; [done|]. by intros [?%elem_of_nil|?].
  - intros Hnd. apply uniq_from_NoDup_id; [done|]. intros x _. apply not_elem_of_nil.
Qed.

Lemma setLocales_setModules_replace_witness :
  uniq ["pt-BR"; "en-US"] = ["pt-BR"; "en-US"].
Proof.
  apply (proj2 (proj2 (proj2 (proj2 (proj2 (proj2 (proj2 (proj2
           (setLocales_setModules_replace Demo.params ["pt-BR"; "en-US"] init))))))))).
  repeat constructor; intros H; apply list_elem_of_In in H; cbn in H; intuition discriminate.
Defined.

(** ** Walking the proxy *)

Lemma navigate_snoc (path : list string) (p : string) :
  navigate (path ++ [p]) = proxy_get (navigate path) p.
Proof. unfold navigate. by rewrite foldl_snoc. Qed.

Lemma navigate_from_module (m : string) (key path : list string) :
  m ≠ "" → "$" ∉ path →
  foldl proxy_get {| px_module := m; px_key := key |} path
  = {| px_module := m; px_key := key ++ path |}.
Proof.
  intros Hm. revert key. induction path as [|p path IH]; intros key Hpath.
  - by rewrite app_nil_r.
  - apply not_elem_of_cons in Hpath as [Hp Hpath]. cbn [foldl].
    unfold proxy_get at 2. rewrite decide_False by done. cbn [px_module px_key].
    rewrite !(decide_False (P := m = "")) by done.
    replace (if decide (length key = 0) then [p] else key ++ [p]) with (key ++ [p]).
    2:{ case_decide as Hk; [|done]. by destruct key. }
    rewrite IH by done. by rewrite <- app_assoc.
Qed.

Lemma navigate_skips (from : ProxyObject) (path : list string) :
  foldl proxy_get from path = foldl proxy_get from (filter (fun p => p ≠ "$") path).
Proof.
  revert from. induction path as [|p path IH]; intros from; [done|].
  destruct (decide (p = "$")) as [->|Hp].
  - rewrite filter_cons_False by (by intros ?). cbn [foldl].
    unfold proxy_get at 2. rewrite decide_True by done. apply IH.
  - rewrite filter_cons_True by done. cbn [foldl]. apply IH.
Qed.

(** X2. Reading properties with ordinary names from the root of the proxy:
    the first one is the module, the following ones are the key path, in
    order.  The property [$] gives back the node it is read from, anywhere in
    the path; an empty first property leaves the walk at the root. *)
Theorem proxy_navigation :
  (∀ (m : string) (key : list string),
     Forall (fun p => ordinary p = true) (m :: key) →
     m ≠ "" → m ≠ "$" → "$" ∉ key →
     navigate (m :: key) = {| px_module := m; px_key := key |})
  ∧ (∀ path : list string,
       Forall (fun p => ordinary p = true) path →
       navigate path = navigate (filter (fun p => p ≠ "$") path))
  ∧ (∀ path : list string,
       Forall (fun p => ordinary p = true) path →
       navigate ("" :: path) = navigate path)
  ∧ (∀ (path : list string) (p : string),
       Forall (fun p => ordinary p = true) (path ++ [p]) →
       navigate (path ++ [p]) = proxy_get (navigate path) p).
Proof.
  split; [|split; [|split]].
  - intros m key _ Hm Hd Hkey. unfold navigate. cbn [foldl].
    unfold proxy_get at 2. rewrite decide_False by done.
    cbn [proxy_root px_module px_key]. rewrite !(decide_True (P := "" = "")) by done.
    by rewrite navigate_from_module.
  - intros path _. apply navigate_skips.
  - intros path _. unfold navigate. cbn [foldl].
    done.
  - intros path p _. apply navigate_snoc.
Qed.

Lemma proxy_navigation_witness :
  navigate ["common"; "user"; "welcome"]
  = {| px_module := "common"; px_key := ["user"; "welcome"] |}.
Proof.
  apply (proj1 proxy_navigation "common" ["user"; "welcome"]).
  - repeat constructor.
  - discriminate.
  - discriminate.
  - intros H. apply list_elem_of_In in H. cbn in H. intuition discriminate.
Defined.



(** ** The tokens of the tag parser *)

Lemma substring_0_length (s : string) : String.substring 0 (String.length s) s = s.
Proof. induction s as [|c s IH]; simpl; [done|by rewrite IH]. Qed.

Lemma substring_0_app (a b : string) :
  String.substring 0 (String.length a) (a +:+ b) = a.
Proof.
  induction a as [|c a IH]; simpl; [by destruct b|by rewrite IH].
Qed.

Lemma substring_skip (a s : string) (n k : nat) :
  String.substring (String.length a + n) k (a +:+ s) = String.substring n k s.
Proof. induction a as [|c a IH]; simpl; done. Qed.

Lemma tag_match_at_head (c : ascii) (s : string) :
  Ascii.eqb c "<" = false → Tagger.match_at (String c s) = None.
Proof.
  intros H. unfold Tagger.match_at.
  destruct c as [[] [] [] [] [] [] [] []]; try done.
Qed.

Lemma matchAll_from_plain (skip pos : nat) (s : string) :
  Str.mem "<" s = false → Tagger.matchAll_from skip pos s = [].
Proof.
  revert skip pos. induction s as [|c s IH]; intros skip pos H; [done|].
  unfold Str.mem in H. cbn [Str.any] in H. apply orb_false_elim in H as [Hc Hs].
  cbn [Tagger.matchAll_from]. destruct skip; [|by apply IH].
  rewrite tag_match_at_head by done. by apply IH.
Qed.

(** X4. A text without [<] holds no tag: the tagger hands it to the
    fallback tag as the only child, under the empty name; the empty text
    gives the fallback tag no child at all. *)
Theorem createTagger_plain_text :
  ∀ (V : Type) (of_text : string → V) (tag : @Tagger.Wrapper V)
    (text : string) (tags : gmap string (@Tagger.Wrapper V)),
    Str.mem "<" text = false →
    Tagger.createTagger of_text tag text tags
    = Ok (tag (if decide (text = "") then [] else [of_text text]) "").
Proof.
  intros V of_text tag text tags Hplain.
  unfold Tagger.createTagger, Tagger.scan, Tagger.matchAll.
  rewrite matchAll_from_plain by done. cbn [Tagger.loop mbind result_bind].
  destruct text as [|c text].
  - cbn. done.
  - rewrite decide_True by (cbn; lia). rewrite decide_False by done.
    unfold Str.slice_from. rewrite Nat.sub_0_r, substring_0_length. done.
Qed.

Lemma createTagger_plain_text_witness :
  Tagger.createTagger id Tagger.default_tag "Hi X" ∅ = Ok "Hi X".
Proof.
  apply (createTagger_plain_text string id Tagger.default_tag "Hi X" ∅).
  reflexivity.
Defined.

Lemma span_spec (p : ascii → bool) (s a b : string) :
  Str.span p s = (a, b) →
  s = a +:+ b ∧ Str.any (fun c => negb (p c)) a = false
  ∧ match b with EmptyString => True | String c _ => p c = false end.
Proof.
  revert a b. induction s as [|c s IH]; intros a b H; cbn [Str.span] in H.
  - by injection H as <- <-.
  - destruct (p c) eqn:Hc.
    + destruct (Str.span p s) as [a' b'] eqn:E. injection H as <- <-.
      destruct (IH a' b' eq_refl) as (-> & Ha & Hb).
      cbn [Str.any]. rewrite Hc. done.
    + injection H as <- <-. done.
Qed.

(** What a match of the tag pattern looks like. *)
Lemma tag_match_at_spec (s m t : string) :
  Tagger.match_at s = Some (m, t) →
  ∃ slash1 slash2 rest,
    m = "<" +:+ slash1 +:+ t +:+ slash2 +:+ ">"
    ∧ s = m +:+ rest
    ∧ (slash1 = "" ∨ slash1 = "/") ∧ (slash2 = "" ∨ slash2 = "/")
    ∧ t ≠ "" ∧ Str.any (fun c => negb (Tagger.is_name_char c)) t = false.
Proof.
  unfold Tagger.match_at. destruct s as [|c r]; [done|].
  destruct (decide (c = "<"%char)) as [->|Hc].
  2:{ destruct c as [[] [] [] [] [] [] [] []]; done. }
  set (p1 := match r with String "/" r' => ("/", r') | _ => ("", r) end).
  assert (r = p1.1 +:+ p1.2 ∧ (p1.1 = "" ∨ p1.1 = "/")) as [Hr H1].
  { subst p1. destruct r as [|c r]; [by split; [|left]|].
    destruct (decide (c = "/"%char)) as [->|Hc]; [by split; [|right]|].
    destruct c as [[] [] [] [] [] [] [] []]; try done; by split; [|left]. }
  destruct p1 as [slash1 r1]. cbn [fst snd] in *.
  destruct (Str.span Tagger.is_name_char r1) as [name r2] eqn:Hspan.
  apply span_spec in Hspan as (Hr1 & Hname & _).
  destruct name as [|n0 name]; [done|].
  set (p2 := match r2 with String "/" r' => ("/", r') | _ => ("", r2) end).
  assert (r2 = p2.1 +:+ p2.2 ∧ (p2.1 = "" ∨ p2.1 = "/")) as [Hr2 H2].
  { subst p2. destruct r2 as [|c r2]; [by split; [|left]|].
    destruct (decide (c = "/"%char)) as [->|Hc]; [by split; [|right]|].
    destruct c as [[] [] [] [] [] [] [] []]; try done; by split; [|left]. }
  destruct p2 as [slash2 r3]. cbn [fst snd] in *.
  destruct r3 as [|c3 rest]; [done|].
  destruct (decide (c3 = ">"%char)) as [->|Hc3].
  2:{ destruct c3 as [[] [] [] [] [] [] [] []]; done. }
  intros [= <- <-]. exists slash1, slash2, rest.
  repeat split; try done.
  rewrite Hr, Hr1, Hr2. simpl. f_equal. rewrite !append_assoc. simpl.
  by rewrite !append_assoc.
Qed.

Lemma name_chars_no_colon (t : string) :
  Str.any (fun c => negb (Tagger.is_name_char c)) t = false → Str.mem ":" t = false.
Proof.
  unfold Str.mem. induction t as [|c t IH]; cbn [Str.any]; [done|].
  intros [Hc Ht]%orb_false_elim. rewrite (IH Ht), orb_false_r.
  apply negb_false_iff in Hc. unfold Tagger.is_name_char in Hc.
  destruct (Ascii.eqb c ":"); [done|done].
Qed.

Lemma matchAll_from_spec (s pre : string) (skip : nat) :
  Forall (fun mt => String.length pre + skip ≤ Tagger.m_index mt
                    ∧ token_ok (pre +:+ s) mt)
         (Tagger.matchAll_from skip (String.length pre) s)
  ∧ ∀ i j mi mj,
      i < j →
      Tagger.matchAll_from skip (String.length pre) s !! i = Some mi →
      Tagger.matchAll_from skip (String.length pre) s !! j = Some mj →
      token_end mi ≤ Tagger.m_index mj.
Proof.
  revert pre skip. induction s as [|c s IH]; intros pre skip.
  { cbn. split; [constructor|]. by intros i j mi mj _ ?. }
  assert (pre +:+ String c s = (pre +:+ String c "") +:+ s) as Htext
    by (by rewrite append_assoc).
  assert (String.length (pre +:+ String c "") = S (String.length pre)) as Hlen
    by (rewrite append_length; cbn; lia).
  specialize (IH (pre +:+ String c "")). rewrite Hlen, <- Htext in IH.
  cbn [Tagger.matchAll_from]. destruct skip as [|k].
  - destruct (Tagger.match_at (String c s)) as [[m t]|] eqn:Hm.
    + destruct (tag_match_at_spec _ _ _ Hm) as (s1 & s2 & rest & Hmt & Hs & _ & _ & Ht & Hname).
      assert (1 ≤ String.length m) as Hm1 by (rewrite Hmt; cbn; lia).
      destruct (IH (String.length m - 1)) as [Hall Hord].
      assert (token_ok (pre +:+ String c s) {| Tagger.m_text := m; Tagger.m_name := t;
                                               Tagger.m_index := String.length pre |}) as Hok.
      { repeat split; cbn [Tagger.m_name Tagger.m_index Tagger.m_text]; try done.
        - by apply name_chars_no_colon.
        - rewrite Hs. rewrite <- (Nat.add_0_r (String.length pre)).
          rewrite substring_skip. apply substring_0_app. }
      split.
      * constructor; [split; [cbn [Tagger.m_index]; lia|done]|].
        eapply Forall_impl; [exact Hall|]. intros mt [? ?]. split; [lia|done].
      * intros [|i] [|j] mi mj Hij Hi Hj; try lia.
        -- cbn in Hi, Hj. injection Hi as <-.
           apply list_elem_of_lookup_2 in Hj.
           rewrite Forall_forall in Hall. destruct (Hall _ Hj) as [Hge _].
           unfold token_end. cbn [Tagger.m_index Tagger.m_text]. lia.
        -- cbn in Hi, Hj. apply (Hord i j); [lia|done|done].
    + destruct (IH 0) as [Hall Hord]. split; [|done].
      eapply Forall_impl; [exact Hall|]. intros mt [? ?]. split; [lia|done].
  - destruct (IH k) as [Hall Hord]. split; [|done].
    eapply Forall_impl; [exact Hall|]. intros mt [? ?]. split; [lia|done].
Qed.

(** X5. The tokens the tagger acts on: each has a non-empty name made of
    characters that are not [:], [>], [/] or white space, so a reference
    marker [<:ref/>] is never taken for a tag; each is the text found at its
    index; and they come left to right without overlap, each starting at or
    after the end of the one before, so the literal text pushed between two
    tokens is exactly what lies between them. *)
Theorem tag_tokens (text : string) :
  Forall (token_ok text) (Tagger.matchAll text)
  ∧ (∀ i j mi mj,
       i < j →
       Tagger.matchAll text !! i = Some mi → Tagger.matchAll text !! j = Some mj →
       token_end mi ≤ Tagger.m_index mj)
  ∧ (∀ ref : string, Str.mem "<" ref = false →
       Tagger.matchAll ("<:" +:+ ref +:+ "/>") = []).
Proof.
  destruct (matchAll_from_spec text "" 0) as [Hall Hord].
  split; [|split].
  - eapply Forall_impl; [exact Hall|]. by intros mt [_ ?].
  - exact Hord.
  - intros ref Href. unfold Tagger.matchAll.
    change ("<:" +:+ ref +:+ "/>") with (String "<" (String ":" (ref +:+ "/>"))).
    cbn [Tagger.matchAll_from].
    assert (Tagger.match_at (String "<" (String ":" (ref +:+ "/>"))) = None) as ->.
    { unfold Tagger.match_at. cbn [Str.span].
      replace (Tagger.is_name_char ":") with false by reflexivity. done. }
    rewrite tag_match_at_head by done.
    apply matchAll_from_plain.
    unfold Str.mem in *. induction ref as [|c ref IH]; [done|].
    cbn [Str.any] in Href. apply orb_false_elim in Href as [Hc Href].
    change (String c ref +:+ "/>") with (String c (ref +:+ "/>")).
    cbn [Str.any]. by rewrite Hc, IH.
Qed.

(** ** One tag in a text *)

Lemma get_app_length (a b : string) (x : ascii) :
  String.get (String.length a) (a +:+ String x b) = Some x.
Proof. induction a as [|c a IH]; simpl; done. Qed.

Lemma string_snoc (s : string) : s ≠ "" → ∃ a x, s = a +:+ String x "".
Proof.
  induction s as [|c s IH]; [done|]. intros _.
  destruct s as [|c' s]; [by exists "", c|].
  destruct IH as (a & x & Ha); [done|]. exists (String c a), x. simpl. by rewrite <- Ha.
Qed.

Lemma any_app (p : ascii → bool) (a b : string) :
  Str.any p (a +:+ b) = Str.any p a || Str.any p b.
Proof. induction a as [|c a IH]; simpl; [done|]. by rewrite IH, orb_assoc. Qed.

Lemma span_name (name rest : string) :
  Str.any (fun c => negb (Tagger.is_name_char c)) name = false →
  match rest with EmptyString => True | String c _ => Tagger.is_name_char c = false end →
  Str.span Tagger.is_name_char (name +:+ rest) = (name, rest).
Proof.
  intros Hname Hrest. induction name as [|c name IH].
  - simpl. destruct rest as [|c rest]; [done|]. cbn [Str.span]. by rewrite Hrest.
  - cbn [Str.any] in Hname. apply orb_false_elim in Hname as [Hc Hname].
    apply negb_false_iff in Hc. simpl. rewrite Hc, (IH Hname). done.
Qed.

Lemma head_not_slash (c : ascii) (r : string) :
  Ascii.eqb c "/" = false →
  match String c r with String "/" r' => ("/", r') | _ => ("", String c r) end
  = ("", String c r).
Proof. intros H. destruct c as [[] [] [] [] [] [] [] []]; done. Qed.

Lemma name_char_not_slash (c : ascii) :
  Tagger.is_name_char c = true → Ascii.eqb c "/" = false.
Proof. unfold Tagger.is_name_char. by destruct (Ascii.eqb c "/"), (Ascii.eqb c ":"), (Ascii.eqb c ">"). Qed.

Lemma match_at_token (slash1 name slash2 rest : string) :
  tag_name name → (slash1 = "" ∨ slash1 = "/") → (slash2 = "" ∨ slash2 = "/") →
  Tagger.match_at (token slash1 name slash2 +:+ rest)
  = Some (token slash1 name slash2, name).
Proof.
  intros [Hne Hchars] H1 H2.
  assert (Str.span Tagger.is_name_char (name +:+ slash2 +:+ ">" +:+ rest)
          = (name, slash2 +:+ ">" +:+ rest)) as Hspan.
  { apply span_name; [done|]. by destruct H2 as [-> | ->]. }
  unfold token. rewrite !append_assoc.
  destruct name as [|c name]; [done|].
  assert (Ascii.eqb c "/" = false) as Hc.
  { cbn [Str.any] in Hchars. apply orb_false_elim in Hchars as [Hc _].
    apply negb_false_iff in Hc. by apply name_char_not_slash. }
  destruct H1 as [-> | ->].
  - change ("<" +:+ "" +:+ String c name +:+ slash2 +:+ ">" +:+ rest)
      with (String "<" (String c (name +:+ slash2 +:+ ">" +:+ rest))).
    change (String c name +:+ slash2 +:+ ">" +:+ rest)
      with (String c (name +:+ slash2 +:+ ">" +:+ rest)) in Hspan.
    unfold Tagger.match_at. rewrite (head_not_slash c _ Hc), Hspan.
    by destruct H2 as [-> | ->].
  - change ("<" +:+ "/" +:+ String c name +:+ slash2 +:+ ">" +:+ rest)
      with (String "<" (String "/" (String c name +:+ slash2 +:+ ">" +:+ rest))).
    unfold Tagger.match_at. rewrite Hspan.
    by destruct H2 as [-> | ->].
Qed.

Lemma token_length (slash1 name slash2 : string) :
  String.length (token slash1 name slash2)
  = 2 + String.length slash1 + String.length name + String.length slash2.
Proof. unfold token. rewrite !append_length. simpl. lia. Qed.

Lemma token_at_1 (name slash2 : string) :
  tag_name name →
  Str.at_ 1 (token "" name slash2) ≠ Some "/"%char
  ∧ Str.at_ 1 (token "/" name slash2) = Some "/"%char.
Proof.
  intros [Hne Hname]. split; [|done].
  destruct name as [|c name]; [done|].
  cbn [Str.any] in Hname. apply orb_false_elim in Hname as [Hc _].
  apply negb_false_iff in Hc. unfold token, Str.at_. simpl.
  intros [= ->]. done.
Qed.

Lemma token_at_back_2 (slash1 name : string) :
  tag_name name →
  Str.at_back 2 (token slash1 name "") ≠ Some "/"%char
  ∧ Str.at_back 2 (token slash1 name "/") = Some "/"%char.
Proof.
  intros [Hne Hname]. unfold Str.at_back.
  rewrite !decide_True by (rewrite token_length; lia).
  rewrite !token_length. split.
  - destruct (string_snoc name Hne) as (a & x & ->).
    rewrite any_app in Hname. apply orb_false_elim in Hname as [_ Hx].
    cbn [Str.any] in Hx. rewrite orb_false_r in Hx. apply negb_false_iff in Hx.
    replace (token slash1 (a +:+ String x "") "")
      with (("<" +:+ slash1 +:+ a) +:+ String x ">")
      by (unfold token; rewrite !append_assoc; done).
    replace (2 + String.length slash1 + String.length (a +:+ String x "")
             + String.length "" - 2)
      with (String.length ("<" +:+ slash1 +:+ a))
      by (rewrite !append_length; simpl; lia).
    rewrite get_app_length. intros [= ->]. done.
  - replace (token slash1 name "/") with (("<" +:+ slash1 +:+ name) +:+ String "/" ">")
      by (unfold token; rewrite !append_assoc; done).
    replace (2 + String.length slash1 + String.length name + String.length "/" - 2)
      with (String.length ("<" +:+ slash1 +:+ name))
      by (rewrite !append_length; simpl; lia).
    apply get_app_length.
Qed.

Lemma matchAll_from_skip (x s : string) (pos : nat) :
  Tagger.matchAll_from (String.length x) pos (x +:+ s)
  = Tagger.matchAll_from 0 (pos + String.length x) s.
Proof.
  revert pos. induction x as [|c x IH]; intros pos.
  - simpl. by rewrite Nat.add_0_r.
  - simpl. rewrite IH. f_equal. lia.
Qed.

Lemma matchAll_from_literal (lit s : string) (pos : nat) :
  Str.mem "<" lit = false →
  Tagger.matchAll_from 0 pos (lit +:+ s)
  = Tagger.matchAll_from 0 (pos + String.length lit) s.
Proof.
  revert pos. induction lit as [|c lit IH]; intros pos Hlit.
  - simpl. by rewrite Nat.add_0_r.
  - unfold Str.mem in Hlit. cbn [Str.any] in Hlit.
    apply orb_false_elim in Hlit as [Hc Hlit].
    change (String c lit +:+ s) with (String c (lit +:+ s)).
    cbn [Tagger.matchAll_from]. rewrite tag_match_at_head by done.
    rewrite IH by done. simpl. f_equal. lia.
Qed.

(** The matches of a text that begins with literal text and a token. *)
Lemma matchAll_from_token (a lit slash1 name slash2 b : string) :
  Str.mem "<" lit = false → tag_name name →
  (slash1 = "" ∨ slash1 = "/") → (slash2 = "" ∨ slash2 = "/") →
  Tagger.matchAll_from 0 (String.length a) (lit +:+ token slash1 name slash2 +:+ b)
  = {| Tagger.m_text := token slash1 name slash2; Tagger.m_name := name;
       Tagger.m_index := String.length (a +:+ lit) |}
      :: Tagger.matchAll_from 0 (String.length (a +:+ lit +:+ token slash1 name slash2)) b.
Proof.
  intros Hlit Hname H1 H2.
  rewrite matchAll_from_literal by done.
  pose proof (match_at_token slash1 name slash2 b Hname H1 H2) as Hm.
  remember (token slash1 name slash2) as tok eqn:Htok.
  assert (∃ tail, tok = String "<" tail) as [tail Htail].
  { subst tok. unfold token. by eexists. }
  rewrite Htail in Hm |- *.
  change (String "<" tail +:+ b) with (String "<" (tail +:+ b)) in Hm |- *.
  cbn [Tagger.matchAll_from]. rewrite Hm.
  rewrite !append_length. f_equal.
  replace (String.length (String "<" tail) - 1) with (String.length tail)
    by (cbn; lia).
  rewrite matchAll_from_skip. f_equal. cbn. lia.
Qed.

Section OneTag.
Context {V : Type}.
Variable of_text : string → V.
Variable tag : @Tagger.Wrapper V.
Variable tags : gmap string (@Tagger.Wrapper V).

Lemma slice_literal (a lit b : string) :
  Str.slice (String.length a) (String.length (a +:+ lit)) (a +:+ lit +:+ b) = lit.
Proof.
  unfold Str.slice. rewrite append_length.
  replace (String.length a + String.length lit - String.length a)
    with (String.length lit) by lia.
  rewrite <- (Nat.add_0_r (String.length a)) at 1.
  rewrite substring_skip. apply substring_0_app.
Qed.

(** The guarded push of the text between [done] and the next token. *)
Lemma push_literal (a lit b : string) (top : list V) (rest : Tagger.Stack) :
  (if decide (String.length a < String.length (a +:+ lit))
   then Tagger.push_top
          (of_text (Str.slice (String.length a) (String.length (a +:+ lit))
                      (a +:+ lit +:+ b))) (top :: rest)
   else Ok (top :: rest))
  = Ok ((top ++ pushed of_text lit) :: rest).
Proof.
  rewrite slice_literal, append_length. unfold pushed.
  destruct lit as [|c lit].
  - rewrite decide_False by (cbn; lia). rewrite decide_True by done.
    by rewrite app_nil_r.
  - rewrite decide_True by (cbn; lia). rewrite decide_False by done. done.
Qed.

(** One step of the loop on a token that follows the literal text [lit]:
    what it does to the stack, by the shape of the token. *)
Lemma step_on_token (a lit slash1 name slash2 b : string)
    (top : list V) (rest : Tagger.Stack) :
  tag_name name →
  let text := a +:+ lit +:+ token slash1 name slash2 +:+ b in
  let mt := {| Tagger.m_text := token slash1 name slash2; Tagger.m_name := name;
               Tagger.m_index := String.length (a +:+ lit) |} in
  let top' := top ++ pushed of_text lit in
  let w := Tagger.wrapper_of tag tags name in
  let done' := String.length (a +:+ lit +:+ token slash1 name slash2) in
  (slash1 = "" ∨ slash1 = "/") →
  (slash2 = "/" →
   Tagger.step of_text tag text tags (top :: rest, String.length a) mt
   = Ok ((top' ++ [w [] name]) :: rest, done'))
  ∧ (slash1 = "" → slash2 = "" →
     Tagger.step of_text tag text tags (top :: rest, String.length a) mt
     = Ok ([] :: top' :: rest, done'))
  ∧ (slash1 = "/" → slash2 = "" →
     Tagger.step of_text tag text tags (top :: rest, String.length a) mt
     = Ok (match rest with
           | below :: rest' => (below ++ [w top' name]) :: rest'
           | [] => [top' ++ [w top' name]]
           end, done')).
Proof.
  intros Hname text mt top' w done' H1.
  assert (∀ stack2 : list (list V),
    @Ok (list (list V) * nat)
      (stack2, Tagger.m_index mt + String.length (Tagger.m_text mt))
    = Ok (stack2, done')) as Hdone.
  { intros stack2. subst mt done'. cbn [Tagger.m_index Tagger.m_text].
    by rewrite <- !append_length, append_assoc. }
  pose proof (push_literal a lit (token slash1 name slash2 +:+ b) top rest) as Hpush.
  fold text in Hpush.
  unfold Tagger.step. cbn [Tagger.m_index Tagger.m_name Tagger.m_text mt] in *.
  unfold Tagger.Stack in *. rewrite Hpush. cbn [mbind result_bind].
  destruct (token_at_back_2 slash1 name Hname) as [Hb0 Hb1].
  split; [|split].
  - intros ->. rewrite bool_decide_eq_true_2 by done.
    cbn [Tagger.push_top mbind result_bind]. apply Hdone.
  - intros -> ->. rewrite bool_decide_eq_false_2 by done.
    rewrite bool_decide_eq_true_2 by apply (token_at_1 name "" Hname).
    cbn [mbind result_bind]. apply Hdone.
  - intros -> ->. rewrite bool_decide_eq_false_2 by done.
    rewrite bool_decide_eq_false_2
      by (intros H; apply H, (token_at_1 name "" Hname)).
    destruct rest as [|below rest'].
    + rewrite decide_False by (cbn; lia).
      cbn [Tagger.push_top mbind result_bind]. apply Hdone.
    + rewrite decide_True by (cbn; lia).
      cbn [Tagger.push_top mbind result_bind]. apply Hdone.
Qed.

(** What is left after the last token is pushed on the top frame. *)
Lemma finish_literal (a post : string) (top : list V) (rest : Tagger.Stack) :
  (if decide (String.length a < String.length (a +:+ post))
   then Tagger.push_top (of_text (Str.slice_from (String.length a) (a +:+ post)))
          (top :: rest)
   else Ok (top :: rest))
  = Ok ((top ++ pushed of_text post) :: rest).
Proof.
  assert (Str.slice_from (String.length a) (a +:+ post) = post) as ->.
  { unfold Str.slice_from. rewrite append_length.
    replace (String.length a + String.length post - String.length a)
      with (String.length post) by lia.
    rewrite <- (Nat.add_0_r (String.length a)) at 1.
    rewrite substring_skip. apply substring_0_length. }
  rewrite append_length. unfold pushed. destruct post as [|c post].
  - rewrite decide_False by (cbn; lia). rewrite decide_True by done.
    by rewrite app_nil_r.
  - rewrite decide_True by (cbn; lia). rewrite decide_False by done. done.
Qed.

End OneTag.

Section TagShapes.
Context {V : Type}.
Variable of_text : string → V.
Variable tag : @Tagger.Wrapper V.
Variable tags : gmap string (@Tagger.Wrapper V).

Lemma step_in_text (text a lit slash1 name slash2 b : string)
    (top : list V) (rest : list (list V)) :
  text = a +:+ lit +:+ token slash1 name slash2 +:+ b →
  tag_name name → (slash1 = "" ∨ slash1 = "/") → (slash2 = "" ∨ slash2 = "/") →
  Tagger.step of_text tag text tags (top :: rest, String.length a)
    {| Tagger.m_text := token slash1 name slash2; Tagger.m_name := name;
       Tagger.m_index := String.length (a +:+ lit) |}
  = Ok (let top' := top ++ pushed of_text lit in
        let w := Tagger.wrapper_of tag tags name in
        if decide (slash2 = "/") then (top' ++ [w [] name]) :: rest
        else if decide (slash1 = "") then [] :: top' :: rest
        else match rest with
             | below :: rest' => (below ++ [w top' name]) :: rest'
             | [] => [top' ++ [w top' name]]
             end,
        String.length (a +:+ lit +:+ token slash1 name slash2)).
Proof.
  intros -> Hname H1 H2.
  destruct (step_on_token of_text tag tags a lit slash1 name slash2 b top rest Hname H1)
    as (Hself & Hopen & Hclose).
  cbn zeta in *. destruct H2 as [-> | ->].
  - rewrite decide_False by done. destruct H1 as [-> | ->].
    + rewrite decide_True by done. by apply Hopen.
    + rewrite decide_False by done. by apply Hclose.
  - rewrite decide_True by done. by apply Hself.
Qed.

Lemma finish_in_text (text a post : string) (top : list V) (rest : list (list V)) :
  text = a +:+ post →
  (if decide (String.length a < String.length text)
   then Tagger.push_top (of_text (Str.slice_from (String.length a) text)) (top :: rest)
   else Ok (top :: rest))
  = Ok ((top ++ pushed of_text post) :: rest).
Proof. intros ->. apply finish_literal. Qed.

(** A text with one token between two literal texts. *)
Lemma scan_one_token (pre slash1 name slash2 post : string) :
  Str.mem "<" pre = false → Str.mem "<" post = false → tag_name name →
  (slash1 = "" ∨ slash1 = "/") → (slash2 = "" ∨ slash2 = "/") →
  Tagger.scan of_text tag (pre +:+ token slash1 name slash2 +:+ post) tags
  = Ok (let w := Tagger.wrapper_of tag tags name in
        if decide (slash2 = "/")
        then [pushed of_text pre ++ [w [] name] ++ pushed of_text post]
        else if decide (slash1 = "")
             then [pushed of_text post; pushed of_text pre]
             else [pushed of_text pre ++ [w (pushed of_text pre) name]
                   ++ pushed of_text post]).
Proof.
  intros Hpre Hpost Hname H1 H2.
  set (text := pre +:+ token slash1 name slash2 +:+ post).
  pose proof (matchAll_from_token "" pre slash1 name slash2 post Hpre Hname H1 H2) as Hms.
  rewrite (matchAll_from_plain _ _ post Hpost) in Hms.
  change (String.length "") with 0 in Hms. fold text in Hms.
  pose proof (step_in_text text "" pre slash1 name slash2 post [] [] eq_refl Hname H1 H2)
    as Hstep.
  change (String.length "") with 0 in Hstep.
  unfold Tagger.scan, Tagger.matchAll. unfold Tagger.Stack in *.
  rewrite Hms. cbn [Tagger.loop]. rewrite Hstep. cbn [mbind result_bind]. cbn zeta.
  destruct H2 as [-> | ->].
  - rewrite !(decide_False (P := "" = "/")) by done. destruct H1 as [-> | ->].
    + rewrite !(decide_True (P := "" = "")) by done.
      rewrite (finish_in_text text ("" +:+ pre +:+ token "" name "") post); [done|].
      subst text. by rewrite !append_assoc.
    + rewrite !(decide_False (P := "/" = "")) by done.
      rewrite (finish_in_text text ("" +:+ pre +:+ token "/" name "") post).
      * by rewrite <- app_assoc.
      * subst text. by rewrite !append_assoc.
  - rewrite !(decide_True (P := "/" = "/")) by done.
    rewrite (finish_in_text text ("" +:+ pre +:+ token slash1 name "/") post).
    + by rewrite <- app_assoc.
    + subst text. by rewrite !append_assoc.
Qed.

(** A text with an opening token and a closing token, literal text
    around and between. *)
Lemma scan_element (pre name1 body name2 post : string) :
  Str.mem "<" pre = false → Str.mem "<" body = false → Str.mem "<" post = false →
  tag_name name1 → tag_name name2 →
  Tagger.scan of_text tag
    (pre +:+ token "" name1 "" +:+ body +:+ token "/" name2 "" +:+ post) tags
  = Ok [pushed of_text pre
        ++ [Tagger.wrapper_of tag tags name2 (pushed of_text body) name2]
        ++ pushed of_text post].
Proof.
  intros Hpre Hbody Hpost Hn1 Hn2.
  set (tok1 := token "" name1 ""). set (tok2 := token "/" name2 "").
  set (text := pre +:+ tok1 +:+ body +:+ tok2 +:+ post).
  pose proof (matchAll_from_token "" pre "" name1 "" (body +:+ tok2 +:+ post)
                Hpre Hn1 (or_introl eq_refl) (or_introl eq_refl)) as Hms1.
  pose proof (matchAll_from_token ("" +:+ pre +:+ tok1) body "/" name2 "" post
                Hbody Hn2 (or_intror eq_refl) (or_introl eq_refl)) as Hms2.
  rewrite (matchAll_from_plain _ _ post Hpost) in Hms2.
  fold tok1 tok2 in Hms1, Hms2. rewrite Hms2 in Hms1.
  change (String.length "") with 0 in Hms1. fold text in Hms1.
  pose proof (step_in_text text "" pre "" name1 "" (body +:+ tok2 +:+ post) [] []
                eq_refl Hn1 (or_introl eq_refl) (or_introl eq_refl)) as Hstep1.
  change (String.length "") with 0 in Hstep1.
  assert (text = ("" +:+ pre +:+ tok1) +:+ body +:+ tok2 +:+ post) as Htext2
    by (subst text; by rewrite !append_assoc).
  pose proof (step_in_text text ("" +:+ pre +:+ tok1) body "/" name2 "" post
                [] [[] ++ pushed of_text pre]
                Htext2 Hn2 (or_intror eq_refl) (or_introl eq_refl)) as Hstep2.
  fold tok1 tok2 in Hstep1, Hstep2.
  unfold Tagger.scan, Tagger.matchAll. unfold Tagger.Stack in *.
  rewrite Hms1. cbn [Tagger.loop]. rewrite Hstep1. cbn [mbind result_bind]. cbn zeta.
  rewrite !(decide_False (P := "" = "/")) by done.
  rewrite !(decide_True (P := "" = "")) by done.
  rewrite Hstep2. cbn [mbind result_bind]. cbn zeta.
  rewrite !(decide_False (P := "" = "/")) by done.
  rewrite !(decide_False (P := "/" = "")) by done.
  rewrite (finish_in_text text (("" +:+ pre +:+ tok1) +:+ body +:+ tok2) post).
  - cbn [app]. by rewrite <- app_assoc.
  - subst text. by rewrite !append_assoc.
Qed.

End TagShapes.

(** X6. One element in a text.  With literal text before, inside and after,
    and names that are keys of the tag map or ordinary names, [<a>body</b>]
    becomes one child of the root: the wrapper looked up under the name of the
    closing tag, called with the body and that name; the name of the opening
    tag is not used.  A self-closing [<a/>] becomes the wrapper of its name
    called with no child.  The literal texts that are not empty are the other
    children, in order. *)
Theorem createTagger_one_element :
  ∀ (V : Type) (of_text : string → V) (tag : @Tagger.Wrapper V)
    (tags : gmap string (@Tagger.Wrapper V)) (pre name1 body name2 post : string),
    Str.mem "<" pre = false → Str.mem "<" body = false → Str.mem "<" post = false →
    tag_name name1 → tag_name name2 → name_known tags name1 → name_known tags name2 →
    Tagger.createTagger of_text tag
      (pre +:+ token "" name1 "" +:+ body +:+ token "/" name2 "" +:+ post) tags
    = Ok (tag (pushed of_text pre
               ++ [Tagger.wrapper_of tag tags name2 (pushed of_text body) name2]
               ++ pushed of_text post) "")
    ∧ Tagger.createTagger of_text tag (pre +:+ token "" name1 "/" +:+ post) tags
      = Ok (tag (pushed of_text pre
                 ++ [Tagger.wrapper_of tag tags name1 [] name1]
                 ++ pushed of_text post) "").
Proof.
  intros V of_text tag tags pre name1 body name2 post Hpre Hbody Hpost Hn1 Hn2 _ _.
  unfold Tagger.createTagger. split.
  - rewrite scan_element by done. cbn. by rewrite app_nil_r.
  - rewrite scan_one_token by first [done | by left | by right].
    rewrite decide_True by done. cbn. by rewrite app_nil_r.
Qed.

Lemma createTagger_one_element_witness :
  Tagger.createTagger id Tagger.default_tag
    ("Read " +:+ token "" "b" "" +:+ "this" +:+ token "/" "b" "" +:+ ".")
    {[ "b" := Tagger.wrap ]}
  = Ok (Tagger.default_tag
          (pushed id "Read "
           ++ [Tagger.wrapper_of Tagger.default_tag {[ "b" := Tagger.wrap ]} "b"
                 (pushed id "this") "b"]
           ++ pushed id ".") "").
Proof.
  refine (proj1 (createTagger_one_element string id Tagger.default_tag
                   {[ "b" := Tagger.wrap ]} "Read " "b" "this" "b" "." _ _ _ _ _ _ _));
    try reflexivity; try (right; reflexivity); split; (discriminate || reflexivity).
Defined.

(** X7. Unbalanced markup, one token in a text, the name a key of the tag map
    or an ordinary name.  An opening tag that is never closed is dropped: the
    text before it and the text after it reach the fallback tag as children.
    A closing tag with nothing open does not pop the root: where the children
    are strings, its wrapper is called with what the root holds so far and the
    string it returns is appended to the root after them. *)
Theorem createTagger_unbalanced :
  (∀ (V : Type) (of_text : string → V) (tag : @Tagger.Wrapper V)
     (tags : gmap string (@Tagger.Wrapper V)) (pre name post : string),
     Str.mem "<" pre = false → Str.mem "<" post = false → tag_name name →
     Tagger.createTagger of_text tag (pre +:+ token "" name "" +:+ post) tags
     = Ok (tag (pushed of_text pre ++ pushed of_text post) ""))
  ∧ (∀ (tag : @Tagger.Wrapper string) (tags : gmap string (@Tagger.Wrapper string))
       (pre name post : string),
       Str.mem "<" pre = false → Str.mem "<" post = false → tag_name name →
       name_known tags name →
       Tagger.createTagger id tag (pre +:+ token "/" name "" +:+ post) tags
       = Ok (tag (pushed id pre
                  ++ [Tagger.wrapper_of tag tags name (pushed id pre) name]
                  ++ pushed id post) "")).
Proof.
  split.
  - intros V of_text tag tags pre name post Hpre Hpost Hname.
    unfold Tagger.createTagger.
    rewrite scan_one_token by first [done | by left | by right].
    rewrite decide_False by done. rewrite decide_True by done.
    cbn. by rewrite app_nil_r.
  - intros tag tags pre name post Hpre Hpost Hname _.
    unfold Tagger.createTagger.
    rewrite scan_one_token by first [done | by left | by right].
    rewrite decide_False by done. rewrite decide_False by done.
    cbn. by rewrite app_nil_r.
Qed.

Lemma createTagger_unbalanced_witness :
  Tagger.createTagger id Tagger.default_tag ("x" +:+ token "/" "a" "" +:+ "") ∅
  = Ok (Tagger.default_tag
          (pushed id "x"
           ++ [Tagger.wrapper_of Tagger.default_tag ∅ "a" (pushed id "x") "a"]
           ++ pushed id "") "").
Proof.
  refine (proj2 createTagger_unbalanced Tagger.default_tag ∅ "x" "a" "" _ _ _ _);
    try reflexivity; try (right; reflexivity); split; (discriminate || reflexivity).
Defined.

(** X23. For every text whose tag names are keys of the tag map or ordinary
    names, over any tag type and any wrappers, the tagger returns a value and
    throws nothing, however unbalanced the markup: the stack always keeps its
    root frame, so no read of [stack.at(-1)] is ever [undefined]. *)
Theorem createTagger_returns :
  ∀ (V : Type) (of_text : string → V) (tag : @Tagger.Wrapper V)
    (text : string) (tags : gmap string (@Tagger.Wrapper V)),
    names_known tags text →
    ∃ v, Tagger.createTagger of_text tag text tags = Ok v.
Proof.
  intros V of_text tag text tags _. unfold Tagger.createTagger.
  destruct (scan_nonempty of_text tag text tags) as (stack & -> & _).
  cbn. eauto.
Qed.

Lemma createTagger_returns_witness :
  ∃ v, Tagger.createTagger id Tagger.default_tag "</a><b>" ∅ = Ok v.
Proof.
  apply (createTagger_returns string id Tagger.default_tag "</a><b>" ∅).
  apply Forall_forall. intros mt Hmt. vm_compute in Hmt.
  apply list_elem_of_In in Hmt. cbn in Hmt.
  destruct Hmt as [<-|[<-|[]]]; right; reflexivity.
Defined.

(** * Runs of an instance *)

(** ** What each operation adds to the log *)

Lemma count_of_app (k : Kind) (l m : string) (a b : list Event) :
  count_of k l m (a ++ b) = count_of k l m a + count_of k l m b.
Proof. unfold count_of. by rewrite filter_app, length_app. Qed.

Lemma count_of_none (k : Kind) (l m : string) (evs : list Event) :
  Forall (fun ev => ¬ (kind_of ev = k ∧ pair_of ev = Some (l, m))) evs →
  count_of k l m evs = 0.
Proof.
  unfold count_of. induction 1 as [|ev evs Hev _ IH]; [done|].
  by rewrite filter_cons, decide_False.
Qed.



Lemma warned_app (a b : list Event) : warned (a ++ b) = warned a ++ warned b.
Proof. apply omap_app. Qed.

Lemma warned_none (evs : list Event) :
  Forall (fun ev => kind_of ev ≠ KWarnFormat) evs → warned evs = [].
Proof.
  unfold warned. induction 1 as [|ev evs Hev _ IH]; [done|].
  destruct ev; cbn; done.
Qed.

Lemma count_of_loads (k : Kind) (l m : string) (todo : list (string * string)) :
  NoDup todo → k = KLoad ∨ k = KBind →
  count_of k l m (loads_of todo) = if decide ((l, m) ∈ todo) then 1 else 0.
Proof.
  intros Hnd Hk. unfold loads_of. induction Hnd as [|[l0 m0] todo Hnotin Hnd IH].
  { cbn. rewrite decide_False; [done|]. apply not_elem_of_nil. }
  change ((l0, m0) :: todo) with ([(l0, m0)] ++ todo) at 1.
  rewrite bind_app, count_of_app, IH.
  destruct (decide ((l0, m0) = (l, m))) as [[= -> ->]|Hne].
  - rewrite (decide_False (P := (l, m) ∈ todo)) by done.
    rewrite decide_True by apply list_elem_of_here.
    destruct Hk as [-> | ->]; unfold count_of; cbn;
      repeat (case_decide; try (exfalso; intuition congruence)); cbn; try done.
  - assert (count_of k l m ([(l0, m0)] ≫= (fun pair => [ELoad pair.1 pair.2; EBind pair.1 pair.2])) = 0) as ->.
    { apply count_of_none. cbn. repeat constructor; cbn; intros [_ [= -> ->]]; done. }
    apply decide_ext. rewrite elem_of_cons. split; [tauto|]. intros [[= -> ->]|?]; done.
Qed.

Lemma count_of_loads_other (k : Kind) (l m : string) (todo : list (string * string)) :
  k ≠ KLoad → k ≠ KBind → count_of k l m (loads_of todo) = 0.
Proof.
  intros H1 H2. apply count_of_none. unfold loads_of.
  apply Forall_forall. intros ev (p & Hev & _)%list_elem_of_bind.
  apply list_elem_of_In in Hev. cbn in Hev.
  destruct Hev as [<-|[<-|[]]]; cbn; intros [? _]; congruence.
Qed.

Lemma NoDup_cross (ls ms : list string) : NoDup ls → NoDup ms → NoDup (cross ls ms).
Proof.
  intros Hl Hm. unfold cross. apply NoDup_bind; [| |done].
  - intros l1 l2 [l m] _ _ (m1 & [= -> ->] & _)%list_elem_of_fmap
      (m2 & [= -> ->] & _)%list_elem_of_fmap. done.
  - intros l _. apply NoDup_fmap_2; [|done]. intros m1 m2 [= ->]. done.
Qed.

Section Logs.
Variable params : Params.

Lemma start_loads_log (todo : list (string * string)) (st : State) :
  log (foldl (start_load params) st todo) = log st ++ loads_of todo.
Proof.
  unfold loads_of. induction todo as [|[l m] todo IH] using rev_ind.
  - cbn. by rewrite app_nil_r.
  - rewrite foldl_snoc, bind_app. cbn [start_load log set_promises set_notifiers add_log].
    rewrite IH. cbn. by rewrite <- !app_assoc.
Qed.

(** [reload] starts the missing loads, then calls the handlers. *)
Lemma reload_log (st : State) :
  log (reload params st)
  = log st
    ++ loads_of (filter (fun pair => lookup2 (promises st) pair.1 pair.2 = None)
                   (cross (locales st) (modules st)))
    ++ ((fun h => EHandler h (locales st) (modules st)) <$> subscriptions st).
Proof.
  unfold reload, call_handlers. set (todo := filter _ _).
  destruct (start_loads_fields params todo st) as (Hl & Hm & Hs & _).
  cbn zeta in *. cbn [log add_log]. rewrite Hl, Hm, Hs, start_loads_log.
  by rewrite <- app_assoc.
Qed.

Lemma settle_log (locale module : string) (st : State) :
  log (settle params locale module st)
  = log st ++ match lookup2 (promises st) locale module, load params locale module with
              | Some Pending, Throw error => [EWarnLoad locale module error]
              | _, _ => []
              end.
Proof.
  unfold settle.
  destruct (lookup2 (promises st) locale module) as [[| |]|]; try by rewrite app_nil_r.
  destruct (load params locale module); cbn; [by rewrite app_nil_r|done].
Qed.

Lemma replaceAll_events (P : Event → Prop) (f : string → list Event * Result string)
    (ps : list Nest.Piece) :
  (∀ x, Forall P (f x).1) → Forall P (Nest.replaceAll f ps).1.
Proof.
  intros Hf. induction ps as [|[c|x] ps IH]; cbn [Nest.replaceAll]; [done| |].
  - by destruct (Nest.replaceAll f ps).
  - specialize (Hf x). destruct (f x) as [evs [s|e]]; [|done].
    destruct (Nest.replaceAll f ps) as [evs' r]. cbn [fst] in *.
    by apply Forall_app.
Qed.

(** A [read] calls notifiers of its own locale and nothing else. *)
Lemma read_events d (st : State) locale module key :
  Forall (fun ev => ∃ m k raw, ev = ENotify locale m k raw
                               ∧ is_Some (lookup2 (notifiers st) locale m))
    (read d st locale module key).1.
Proof.
  revert module key. induction d as [|d IH]; intros module key; [by cbn|].
  rewrite read_unfold. cbn zeta.
  destruct (lookup2 (notifiers st) locale module) as [notifier|] eqn:Hn; [|by cbn].
  assert (∀ raw, Forall (fun ev => ∃ m k raw, ev = ENotify locale m k raw
                                   ∧ is_Some (lookup2 (notifiers st) locale m))
                   [ENotify locale module key raw]) as Hone.
  { intros raw. apply Forall_singleton. exists module, key, raw. by rewrite Hn. }
  destruct (notifier _ _); [|by cbn].
  destruct (Js.falsy _); [by cbn|].
  destruct (raw_of _ _) as [|s|r|n] eqn:Hraw; try (by cbn).
  pose proof (replaceAll_events
    (fun ev => ∃ m k raw, ev = ENotify locale m k raw
                          ∧ is_Some (lookup2 (notifiers st) locale m))
    (fun nestedId =>
       match Nest.target module nestedId with
       | Throw e => ([], Throw e)
       | Ok (ns, key') => read d st locale ns key'
       end) (Nest.pieces s)) as H.
  fold (expand d st locale module s) in H.
  destruct (expand d st locale module s) as [evs r]. cbn [fst] in *.
  apply Forall_app. split; [done|]. apply H.
  intros x. destruct (Nest.target module x) as [[ns key']|e]; [apply IH|by cbn].
Qed.

(** An attempt of [format] adds the notifier calls of its read, then, when
    the read returned, one call of the parse collaborator. *)
Lemma attempt_log d (st : State) locale module key values :
  ∃ evs, log (attempt params d st locale module key values).1 = log st ++ evs
         ∧ Forall (fun ev => kind_of ev = KNotify ∨ kind_of ev = KParse) evs.
Proof.
  unfold attempt.
  destruct (formatters st !! formatter_id locale module key) as [f|].
  { exists []. by rewrite app_nil_r. }
  pose proof (read_events d st locale module key) as Hev.
  destruct (read d st locale module key) as [evs [raw|e]]; cbn [fst] in Hev.
  - exists (evs ++ [EParse locale module [] raw]). split.
    + destruct (parse params locale module [] raw); cbn; by rewrite app_assoc.
    + apply Forall_app. split.
      * eapply Forall_impl; [exact Hev|]. intros ev (? & ? & ? & -> & _). by left.
      * apply Forall_singleton. by right.
  - exists evs. split; [done|].
    eapply Forall_impl; [exact Hev|]. intros ev (? & ? & ? & -> & _). by left.
Qed.

Lemma format_from_log d all todo (st : State) module key values :
  ∃ evs, log (format_from params d all todo st module key values).1 = log st ++ evs
         ∧ Forall (fun ev => kind_of ev = KNotify ∨ kind_of ev = KParse
                             ∨ kind_of ev = KWarnFormat) evs.
Proof.
  revert st. induction todo as [|locale todo IH]; intros st.
  { exists []. cbn. by rewrite app_nil_r. }
  cbn [format_from].
  destruct (attempt_log d st locale module key values) as (evs & Hlog & Hev).
  assert (Forall (fun ev => kind_of ev = KNotify ∨ kind_of ev = KParse
                            ∨ kind_of ev = KWarnFormat) evs) as Hev'.
  { eapply Forall_impl; [exact Hev|]. intros ev [?|?]; tauto. }
  destruct (attempt params d st locale module key values) as [st1 [v|e]]; cbn [fst] in *.
  { eauto. }
  set (st2 := match lookup2 (resources st) locale module with
              | Some _ => add_log [EWarnFormat locale module key e] st1
              | None => st1
              end).
  assert (∃ evs2, log st2 = log st ++ evs2
                  ∧ Forall (fun ev => kind_of ev = KNotify ∨ kind_of ev = KParse
                                      ∨ kind_of ev = KWarnFormat) evs2)
    as (evs2 & Hlog2 & Hev2).
  { subst st2. destruct (lookup2 (resources st) locale module).
    - exists (evs ++ [EWarnFormat locale module key e]). cbn. rewrite Hlog, app_assoc.
      split; [done|]. apply Forall_app. split; [done|]. apply Forall_singleton. cbn. tauto.
    - eauto. }
  destruct (IH st2) as (evs3 & Hlog3 & Hev3).
  exists (evs2 ++ evs3). rewrite Hlog3, Hlog2, app_assoc. split; [done|].
  by apply Forall_app.
Qed.


End Logs.

(** ** More that every reachable state satisfies *)

Section Reached.
Variable params : Params.

Lemma todo_elem (st : State) (l m : string) :
  (l, m) ∈ filter (fun pair => lookup2 (promises st) pair.1 pair.2 = None)
             (cross (locales st) (modules st))
  ↔ in_cross st l m ∧ lookup2 (promises st) l m = None.
Proof. rewrite list_elem_of_filter, elem_of_cross. unfold in_cross. cbn. tauto. Qed.

Lemma handlers_no_pair (k : Kind) (l m : string) (ls ms : list string) (subs : list nat) :
  count_of k l m ((fun h => EHandler h ls ms) <$> subs) = 0.
Proof.
  apply count_of_none, Forall_fmap, Forall_forall. intros h _ [_ H]. done.
Qed.

Lemma Counted_reload (st : State) :
  NoDup (locales st) → NoDup (modules st) →
  Counted params st → Counted params (reload params st).
Proof.
  intros Hl Hm HC l m. destruct (HC l m) as (H1 & H2 & H3).
  destruct (reload_fields params st) as (_ & _ & _ & _ & _ & Hp & _). cbn zeta in Hp.
  assert (NoDup (filter (fun pair => lookup2 (promises st) pair.1 pair.2 = None)
                   (cross (locales st) (modules st)))) as Hnd
    by by apply NoDup_filter, NoDup_cross.
  rewrite reload_log, !count_of_app, !handlers_no_pair, Hp.
  rewrite !count_of_loads by first [done | by left | by right].
  rewrite count_of_loads_other by done.
  rewrite H1, H2, H3, !Nat.add_0_r.
  destruct (decide (in_cross st l m ∧ lookup2 (promises st) l m = None)) as [Hc|Hc].
  - rewrite decide_True by by apply todo_elem.
    destruct Hc as [_ ->]. done.
  - rewrite decide_False by by rewrite todo_elem.
    repeat split; lia.
Qed.

Lemma Counted_add (st st' : State) (evs : list Event) :
  log st' = log st ++ evs → promises st' = promises st →
  Forall (fun ev => kind_of ev ≠ KLoad ∧ kind_of ev ≠ KBind ∧ kind_of ev ≠ KWarnLoad) evs →
  Counted params st → Counted params st'.
Proof.
  intros Hlog Hp Hev HC l m. destruct (HC l m) as (H1 & H2 & H3).
  rewrite Hlog, Hp, !count_of_app.
  rewrite !(count_of_none _ l m evs); [rewrite !Nat.add_0_r; done|..];
    (eapply Forall_impl; [exact Hev|]); intros ev (? & ? & ?) [? _]; done.
Qed.

Lemma Counted_settle (locale module : string) (st : State) :
  Counted params st → Counted params (settle params locale module st).
Proof.
  intros HC l m. destruct (HC l m) as (H1 & H2 & H3).
  destruct (settle_fields params st locale module) as (_ & _ & _ & _ & _ & Hp & _).
  cbn zeta in Hp. rewrite settle_log, !count_of_app, Hp, H1, H2, H3.
  assert (∀ k, k ≠ KWarnLoad →
            count_of k l m
              match lookup2 (promises st) locale module, load params locale module with
              | Some Pending, Throw error => [EWarnLoad locale module error]
              | _, _ => []
              end = 0) as Hk.
  { intros k Hk. apply count_of_none.
    destruct (lookup2 (promises st) locale module) as [[| |]|]; try done.
    destruct (load params locale module); [done|].
    apply Forall_singleton. intros [? _]. done. }
  rewrite !Hk by done. rewrite !Nat.add_0_r.
  destruct (decide ((locale, module) = (l, m))) as [[= <- <-]|Hne].
  - destruct (lookup2 (promises st) locale module) as [[|r|e]|] eqn:E; cbn; try done.
    unfold count_of. destruct (load params locale module); cbn; [done|].
    by rewrite decide_True.
  - assert (count_of KWarnLoad l m
              match lookup2 (promises st) locale module, load params locale module with
              | Some Pending, Throw error => [EWarnLoad locale module error]
              | _, _ => []
              end = 0) as ->.
    { apply count_of_none.
      destruct (lookup2 (promises st) locale module) as [[| |]|]; try done.
      destruct (load params locale module); [done|].
      apply Forall_singleton. intros [_ [= -> ->]]. done. }
    destruct (lookup2 (promises st) l m) as [[|r|e]|]; cbn; repeat split; lia.
Qed.

Lemma Counted_step (st : State) (op : Op) :
  Inv params st → Stored st → Counted params st → Counted params (step params st op).
Proof.
  intros (Hl & _) (Hm & _) HC.
  destruct op as [ls|ms|h|h|l m|d l m key|d m key values]; cbn [step].
  - apply Counted_reload; [apply uniq_NoDup|done|done].
  - apply Counted_reload; [done|apply uniq_NoDup|done].
  - apply (Counted_add st _ [EHandler h (locales st) (modules st)]); try done.
    by apply Forall_singleton.
  - done.
  - by apply Counted_settle.
  - apply (Counted_add st _ (read d st l m key).1); try done.
    eapply Forall_impl; [apply read_events|]. intros ev (? & ? & ? & -> & _). done.
  - destruct (format_from_log params d (locales st) (locales st) st m key values)
      as (evs & Hlog & Hev).
    destruct (format_from_fields params d (locales st) (locales st) st m key values)
      as (_ & _ & _ & Hp & _).
    apply (Counted_add st _ evs); try done.
    eapply Forall_impl; [exact Hev|]. intros ev [E|[E|E]]; rewrite E; done.
Qed.

Lemma Stored_step (st : State) (op : Op) : Stored st → Stored (step params st op).
Proof.
  intros (Hm & Hs & Hr).
  destruct op as [ls|ms|h|h|l m|d l m key|d m key values]; cbn [step].
  - destruct (reload_fields params (set_locales (uniq ls) st))
      as (_ & Hm' & Hs' & Hr' & _ & Hp & _).
    cbn zeta in *. unfold setLocales, Stored. rewrite Hm', Hs', Hr'.
    split; [done|]. split; [done|]. intros l m r Hlr. rewrite Hp.
    cbn in Hlr |- *. rewrite (Hr l m r Hlr). by rewrite decide_False by (intros [_ ?]; done).
  - destruct (reload_fields params (set_modules (uniq ms) st))
      as (_ & Hm' & Hs' & Hr' & _ & Hp & _).
    cbn zeta in *. unfold setModules, Stored. rewrite Hm', Hs', Hr'.
    split; [apply uniq_NoDup|]. split; [done|]. intros l m r Hlr. rewrite Hp.
    cbn in Hlr |- *. rewrite (Hr l m r Hlr). by rewrite decide_False by (intros [_ ?]; done).
  - unfold subscribe, Stored. cbn. split; [done|]. split; [|done].
    case_decide as Hh; [done|]. apply NoDup_app. split; [done|]. split.
    + intros x Hx ->%list_elem_of_singleton. done.
    + apply NoDup_singleton.
  - unfold unsubscribe, Stored. cbn. split; [done|]. split; [|done].
    by apply NoDup_filter.
  - destruct (settle_fields params st l m) as (_ & Hm' & Hs' & _ & _ & Hp & Hr').
    cbn zeta in *. unfold Stored. rewrite Hm', Hs'.
    split; [done|]. split; [done|]. intros l0 m0 r. rewrite Hp, Hr'.
    destruct (lookup2 (promises st) l0 m0) as [[|r0|e]|] eqn:E.
    + case_decide; [by intros [= <-]|]. intros Hx. by rewrite (Hr _ _ _ Hx) in E.
    + intros Hx. by rewrite (Hr _ _ _ Hx) in E.
    + intros Hx. by rewrite (Hr _ _ _ Hx) in E.
    + intros Hx. by rewrite (Hr _ _ _ Hx) in E.
  - done.
  - destruct (format_from_fields params d (locales st) (locales st) st m key values)
      as (_ & Hm' & Hs' & Hp & Hr' & _).
    cbn zeta in *. unfold format, Stored. rewrite Hm', Hs', Hp, Hr'. done.
Qed.

Lemma Bound_step (st : State) (op : Op) : Bound params st → Bound params (step params st op).
Proof.
  intros HB.
  destruct op as [ls|ms|h|h|l m|d l m key|d m key values]; cbn [step]; try done.
  - destruct (reload_fields params (set_locales (uniq ls) st)) as (_ & _ & _ & _ & _ & _ & Hn).
    cbn zeta in *. intros l m n. unfold setLocales. rewrite Hn.
    case_decide; [by intros [= <-]|apply HB].
  - destruct (reload_fields params (set_modules (uniq ms) st)) as (_ & _ & _ & _ & _ & _ & Hn).
    cbn zeta in *. intros l m n. unfold setModules. rewrite Hn.
    case_decide; [by intros [= <-]|apply HB].
  - destruct (settle_fields params st l m) as (_ & _ & _ & Hn & _).
    cbn zeta in *. intros l0 m0 n. rewrite Hn. apply HB.
  - destruct (format_from_fields params d (locales st) (locales st) st m key values)
      as (_ & _ & _ & _ & _ & Hn & _).
    cbn zeta in *. intros l0 m0 n. unfold format. rewrite Hn. apply HB.
Qed.

Lemma Reach_init : Reach params init.
Proof.
  split; [apply Inv_init|]. split; [|split].
  - repeat split; try constructor. intros l m r H. done.
  - intros l m. done.
  - intros l m n H. done.
Qed.

Lemma Reach_step (st : State) (op : Op) : Reach params st → Reach params (step params st op).
Proof.
  intros (HI & HS & HC & HB). split; [by apply Inv_step|].
  split; [by apply Stored_step|]. split; [by apply Counted_step|by apply Bound_step].
Qed.

Lemma Reach_run (ops : list Op) (st : State) : Reach params st → Reach params (run params ops st).
Proof.
  revert st. induction ops as [|op ops IH]; intros st H; [done|].
  cbn. apply IH. by apply Reach_step.
Qed.

End Reached.

(** X8. Over any run of an instance on ordinary names, with [params.notify]
    returning, the load collaborator and [params.notify] are called the same
    number of times for a pair: once when the pair was part
    of the cross product of the active locales and modules at some point of the
    run, never otherwise.  A pair that leaves the cross product and comes back
    is not loaded again.  The warning of a failed load is logged once, when the
    promise of the pair settles. *)
Theorem load_once_per_pair :
  ∀ (params : Params) (ops : list Op) (l m : string),
    let st := run params ops init in
    run_known params ops init →
    count_of KLoad l m (log st) = count_of KBind l m (log st)
    ∧ ((∃ pre, pre `prefix_of` ops ∧ in_cross (run params pre init) l m) →
       count_of KLoad l m (log st) = 1)
    ∧ ((∀ pre, pre `prefix_of` ops → ¬ in_cross (run params pre init) l m) →
       count_of KLoad l m (log st) = 0)
    ∧ count_of KWarnLoad l m (log st)
      = match lookup2 (promises st) l m, load params l m with
        | Some (Fulfilled _), Throw _ => 1
        | _, _ => 0
        end.
Proof.
  intros params ops l m st _.
  destruct (Reach_run params ops init (Reach_init params)) as (HI & _ & HC & _).
  fold st in HI, HC. destruct (HC l m) as (H1 & H2 & H3).
  split; [by rewrite H1, H2|]. split; [|split; [|done]].
  - intros (pre & [later ->] & Hin). rewrite H1.
    assert (is_Some (lookup2 (promises st) l m)) as [p ->]; [|done].
    apply (proj1 (proj2 (proj2 HI))). subst st. rewrite run_app.
    apply run_keeps_notifiers.
    destruct (Inv_run params pre init (Inv_init params)) as (_ & Ha & Hb & _).
    apply Hb, Ha, Hin.
  - intros Hnever. rewrite H1.
    destruct (lookup2 (promises st) l m) as [p|] eqn:Hp; [|done].
    destruct (notifier_only_reconciled params ops l m) as (pre & Hpre & Hin).
    + apply (proj1 (proj2 (proj2 HI))). by rewrite Hp.
    + by destruct (Hnever pre Hpre).
Qed.





(** X10. On ordinary names, with [params.notify] returning, nothing an
    instance has stored for a pair is ever replaced or removed.  In a state an
    instance can reach, a stored resource is the one
    the load of the pair settled to (the loaded one, or the empty one after a
    failed load) and a stored notifier is the one [params.notify] returned for
    the pair; whatever happens later both are still stored, unchanged, and the
    pair is not loaded a second time. *)
Theorem stored_tables_persist :
  ∀ (params : Params) (ops later : list Op) (l m : string),
    let st := run params ops init in
    let st' := run params later st in
    run_known params (ops ++ later) init →
    (∀ r, lookup2 (resources st) l m = Some r →
          r = settled_resource params l m ∧ lookup2 (resources st') l m = Some r)
    ∧ (∀ n, lookup2 (notifiers st) l m = Some n →
            n = notify params l m ∧ lookup2 (notifiers st') l m = Some n)
    ∧ (is_Some (lookup2 (promises st) l m) →
       count_of KLoad l m (log st') = count_of KLoad l m (log st)).
Proof.
  intros params ops later l m st st' _.
  pose proof (Reach_run params ops init (Reach_init params)) as HR. fold st in HR.
  pose proof (Reach_run params later st HR) as HR'. fold st' in HR'.
  destruct HR as (HI & (_ & _ & HS) & HC & HB).
  destruct HR' as (HI' & _ & HC' & HB').
  split; [|split].
  - intros r Hr. pose proof (HS l m r Hr) as Hp.
    destruct (proj2 (proj2 (proj2 HI)) l m _ Hp) as [?|[[= ->] _]]; [done|].
    split; [done|].
    pose proof (run_keeps_fulfilled params later st l m _ Hp) as Hp'. fold st' in Hp'.
    destruct (proj2 (proj2 (proj2 HI')) l m _ Hp') as [?|[_ ?]]; done.
  - intros n Hn. split; [by apply HB|].
    destruct (run_keeps_notifiers params later st l m) as [n' Hn']; [by rewrite Hn|].
    fold st' in Hn'. rewrite Hn'. f_equal.
    rewrite (HB l m n Hn). by apply HB'.
  - intros Hp. rewrite (proj1 (HC l m)), (proj1 (HC' l m)).
    assert (is_Some (lookup2 (promises st') l m)) as [p' ->].
    { apply (proj1 (proj2 (proj2 HI'))). apply run_keeps_notifiers.
      by apply (proj1 (proj2 (proj2 HI))). }
    by destruct Hp as [p ->].
Qed.



Section Misses.
Variable params : Params.

Lemma format_from_miss d all todo (st : State) module key values :
  (∀ l, l ∈ todo →
        formatters st !! formatter_id l module key = None
        ∧ ∃ e, (read d st l module key).2 = Throw e) →
  let res := format_from params d all todo st module key values in
  res.2 = Ok (fallback all module key)
  ∧ formatters res.1 = formatters st
  ∧ parse_calls (log res.1) = parse_calls (log st)
  ∧ warned (log res.1)
    = warned (log st)
      ++ filter (fun l => is_Some (lookup2 (resources st) l module)) todo.
Proof.
  revert st. induction todo as [|locale todo IH]; intros st Hall.
  { cbn. by rewrite app_nil_r. }
  destruct (Hall locale (list_elem_of_here _ _)) as (Hf & e & Hread).
  cbn zeta. cbn [format_from]. unfold attempt. rewrite Hf.
  pose proof (read_no_parse d st locale module key) as Hnp.
  pose proof (read_events d st locale module key) as Hev.
  destruct (read d st locale module key) as [evs r]. cbn [fst snd] in *. subst r.
  set (st2 := match lookup2 (resources st) locale module with
              | Some _ => add_log [EWarnFormat locale module key e] (add_log evs st)
              | None => add_log evs st
              end).
  assert (formatters st2 = formatters st ∧ resources st2 = resources st
          ∧ notifiers st2 = notifiers st
          ∧ log st2 = log st ++ evs
                      ++ (if decide (is_Some (lookup2 (resources st) locale module))
                          then [EWarnFormat locale module key e] else []))
    as (Hf2 & Hr2 & Hn2 & Hl2).
  { subst st2. destruct (lookup2 (resources st) locale module) as [r|].
    - rewrite decide_True by done. cbn. by rewrite <- app_assoc.
    - rewrite decide_False by (by intros [? ?]). cbn. by rewrite app_nil_r. }
  destruct (IH st2) as (H1 & H2 & H3 & H4).
  { intros l Hl. destruct (Hall l (list_elem_of_further _ _ _ Hl)) as (Hfl & Hrl).
    rewrite Hf2. split; [done|]. by rewrite (read_ext d st2 st). }
  cbn zeta in *. rewrite H1, H2, H3, H4, Hf2, Hr2, Hl2. clear H1 H2 H3 H4.
  rewrite !parse_calls_app, !warned_app, Hnp.
  rewrite (warned_none evs)
    by (eapply Forall_impl; [exact Hev|]; intros ev (? & ? & ? & -> & _); done).
  rewrite filter_cons.
  destruct (decide (is_Some (lookup2 (resources st) locale module))).
  - cbn. repeat split; try done. by rewrite <- app_assoc.
  - cbn. rewrite !app_nil_r. done.
Qed.

End Misses.

(** X12. A call of [format], on ordinary names, that fails in every locale:
    when, for each active locale, no formatter is stored for the key and [read] throws, the result
    is the fallback string, nothing is stored in the formatter cache (so a
    later call reads again), the parse collaborator is not called, and the
    warning is logged once for each locale whose resource of the module is
    stored, in the order of the locales: a locale that is still loading is
    passed over in silence. *)
Theorem format_miss_leaves_cache :
  ∀ (params : Params) (d : nat) (st : State) (module : string) (key : list string)
    (values : Values),
    format_known d st module key →
    (∀ l, l ∈ locales st →
          formatters st !! formatter_id l module key = None
          ∧ ∃ e, (read d st l module key).2 = Throw e) →
    let res := format params d st module key values in
    res.2 = Ok (fallback (locales st) module key)
    ∧ formatters res.1 = formatters st
    ∧ parse_calls (log res.1) = parse_calls (log st)
    ∧ warned (log res.1)
      = warned (log st)
        ++ filter (fun l => is_Some (lookup2 (resources st) l module)) (locales st).
Proof.
  intros params d st module key values _ Hall. by apply format_from_miss.
Qed.

Lemma format_miss_leaves_cache_witness :
  let st := run Demo.params [OSettle "en-US" "m1"] (Demo.scheduled Demo.params) in
  let res := format Demo.params 8 st "m1" ["absent"] None in
  res.2 = Ok (fallback (locales st) "m1" ["absent"])
  ∧ formatters res.1 = formatters st
  ∧ parse_calls (log res.1) = parse_calls (log st)
  ∧ warned (log res.1)
    = warned (log st)
      ++ filter (fun l => is_Some (lookup2 (resources st) l "m1")) (locales st).
Proof.
  apply (format_miss_leaves_cache Demo.params 8
           (run Demo.params [OSettle "en-US" "m1"] (Demo.scheduled Demo.params))
           "m1" ["absent"] None).
  { split; [reflexivity|]. intros l Hl. vm_compute in Hl.
    apply list_elem_of_In in Hl. cbn in Hl.
    destruct Hl as [<-|[<-|[]]]; split; vm_compute; reflexivity. }
  intros l Hl. vm_compute in Hl. apply list_elem_of_In in Hl. cbn in Hl.
  destruct Hl as [<-|[<-|[]]]; split; vm_compute; eauto.
Defined.

(** X13. On ordinary names a [read] stays in its locale and calls nothing but
    notifiers: every
    call it makes, through however many markers, is a call of the notifier of
    a pair of the same locale; a marker is never resolved in another locale. *)
Theorem read_stays_in_locale :
  ∀ (d : nat) (st : State) (locale module : string) (key : list string),
    read_known d st locale module key = true →
    Forall (fun ev => ∃ m k raw, ev = ENotify locale m k raw
                                 ∧ is_Some (lookup2 (notifiers st) locale m))
      (read d st locale module key).1.
Proof. intros d st locale module key _. apply read_events. Qed.

Lemma read_stays_in_locale_witness :
  Forall (fun ev => ∃ m k raw, ev = ENotify "en-US" m k raw
                               ∧ is_Some (lookup2 (notifiers (Demo.loaded Demo.params))
                                            "en-US" m))
    (read 8 (Demo.loaded Demo.params) "en-US" "m1" ["k"]).1.
Proof.
  apply (read_stays_in_locale 8 (Demo.loaded Demo.params) "en-US" "m1" ["k"]).
  vm_compute. reflexivity.
Defined.

(** ** Splitting and joining *)

Lemma split_aux_cons (sep : ascii) (cur s : string) :
  ∃ x xs, Str.split_aux sep cur s = x :: xs.
Proof.
  revert cur. induction s as [|c s IH]; intros cur; cbn [Str.split_aux]; [eauto|].
  destruct (Ascii.eqb c sep); [eauto|apply IH].
Qed.

Lemma join_split_aux (sep : ascii) (cur s : string) :
  Str.join (String sep "") (Str.split_aux sep cur s) = cur +:+ s.
Proof.
  revert cur. induction s as [|c s IH]; intros cur; cbn [Str.split_aux].
  - unfold Str.join. cbn. by rewrite append_empty_r.
  - destruct (Ascii.eqb c sep) eqn:Hc.
    + apply Ascii.eqb_eq in Hc as ->.
      pose proof (IH "") as Hrest.
      destruct (split_aux_cons sep "" s) as (x & xs & E). rewrite E in Hrest |- *.
      rewrite join_cons2, Hrest. done.
    + rewrite IH, append_assoc. done.
Qed.

Lemma join_split (sep : ascii) (s : string) :
  Str.join (String sep "") (Str.split sep s) = s.
Proof. apply join_split_aux. Qed.

(** X14. The target of a marker.  Whatever its inner text, a marker names a
    module and a key path that is not empty, and computing them throws
    nothing.  Only the last two pieces between colons count: in [x:ns:ref] the
    piece [x] is ignored.  The default module is used only when there is no
    colon at all: [:ref] names the module with the empty name. *)
Theorem marker_target :
  (∀ module ref : string,
     ∃ ns key, Nest.target module ref = Ok (ns, key) ∧ key ≠ [])
  ∧ (∀ module extra ns ref : string,
       Str.mem ":" ns = false → Str.mem ":" ref = false →
       Nest.target module (extra +:+ ":" +:+ ns +:+ ":" +:+ ref)
       = Ok (ns, Str.split "." ref))
  ∧ (∀ module ref : string,
       Str.mem ":" ref = false →
       Nest.target module (":" +:+ ref) = Ok ("", Str.split "." ref)).
Proof.
  split; [|split].
  - intros module ref. unfold Nest.target.
    destruct (split_aux_cons ":" "" ref) as (x & xs & E). unfold Str.split. rewrite E.
    assert (∀ k, Str.split "." k ≠ []) as Hne.
    { intros k. unfold Str.split. by destruct (split_aux_cons "." "" k) as (? & ? & ->). }
    destruct (rev (x :: xs)) as [|key [|ns rest]] eqn:Hrev.
    + apply (f_equal (@length string)) in Hrev. rewrite length_rev in Hrev. done.
    + eauto.
    + eauto.
  - intros module extra ns ref Hns Href. unfold Nest.target, Str.split.
    change (":" +:+ ns +:+ ":" +:+ ref) with (String ":" (ns +:+ String ":" ref)).
    rewrite split_aux_sep. unfold Str.split. rewrite split_aux_sep.
    unfold Str.split. rewrite (split_aux_plain ":" "" ns), (split_aux_plain ":" "" ref) by done.
    rewrite app_assoc, !rev_app_distr. done.
  - intros module ref Href.
    apply (target_other_module module "" ref); done.
Qed.

(** X15. Splitting on a separator and joining with it gives the string back.
    So the inner text of a marker, taken whole, is first looked up as a
    flattened key: when the resource holds a key equal to [ref], dots
    included, [<:ref/>] names the value stored there, whatever the nested
    path would reach. *)
Theorem marker_finds_flat_key :
  (∀ (sep : ascii) (s : string), Str.join (String sep "") (Str.split sep s) = s)
  ∧ (∀ (module ref : string) (r : Resource) (e : Entry),
       Str.mem ":" ref = false → r !! ref = Some e →
       ∃ key, Nest.target module ref = Ok (module, key)
              ∧ raw_of (Some r) key = Js.of_entry e).
Proof.
  split; [apply join_split|].
  intros module ref r e Href Hr. exists (Str.split "." ref).
  split; [by apply target_same_module|].
  apply raw_of_flat_first. by rewrite join_split.
Qed.

Lemma marker_finds_flat_key_witness :
  ∃ key, Nest.target "m1" "a.b" = Ok ("m1", key)
         ∧ raw_of (Some (flat_resource ["a"; "b"] "x")) key = Js.of_entry (Leaf "x").
Proof.
  apply (proj2 marker_finds_flat_key "m1" "a.b" (flat_resource ["a"; "b"] "x") (Leaf "x")).
  - reflexivity.
  - vm_compute. reflexivity.
Defined.

(** X16. A leaf that refers to its own key never reads: with plain text
    before the marker, whatever follows it, and a notifier that returns, [read]
    of the key runs out of frames at every depth of the stack, and so throws
    the RangeError of the engine. *)
Theorem read_cycle_overflows :
  ∀ (d : nat) (st : State) (locale module k pre post : string) (notifier : Notifier)
    (r : Resource),
    let leaf := pre +:+ "<:" +:+ k +:+ "/>" +:+ post in
    lookup2 (notifiers st) locale module = Some notifier →
    notifier (Str.split "." k) (VStr leaf) = Ok () →
    lookup2 (resources st) locale module = Some r →
    r !! k = Some (Leaf leaf) →
    Nest.plain pre = true →
    k ≠ "" → Str.mem ">" k = false → Str.any Str.is_line_terminator k = false →
    Str.mem ":" k = false →
    (read d st locale module (Str.split "." k)).2 = Throw RangeError.
Proof.
  intros d st locale module k pre post notifier r leaf Hn Hcall Hr Hk Hpre Hne Hgt Hlt Hcolon.
  induction d as [|d IH]; [done|].
  rewrite read_unfold, Hn, Hr. cbn zeta.
  rewrite (raw_of_flat_first r (Str.split "." k) (Leaf leaf)) by (by rewrite join_split).
  cbn [Js.of_entry]. rewrite Hcall. cbn [Js.falsy].
  rewrite bool_decide_eq_false_2.
  2:{ intros H. apply (f_equal String.length) in H. subst leaf.
      rewrite !append_length in H. simpl in H. lia. }
  pose proof (replaceAll_marker
    (fun nestedId =>
       match Nest.target module nestedId with
       | Throw e => ([], Throw e)
       | Ok (ns, key') => read d st locale ns key'
       end) pre k post Hpre Hne Hgt Hlt) as H.
  fold leaf in H. fold (expand d st locale module leaf) in H.
  destruct (expand d st locale module leaf) as [evs res]. cbn [snd] in *. rewrite H.
  rewrite target_same_module by done. by rewrite IH.
Qed.

Lemma read_cycle_overflows_witness :
  (read 5 (set_resources (insert2 "en-US" "m1" {[ "loop" := Leaf "again <:loop/>!" ]}
                            (resources (Demo.loaded Demo.params)))
             (Demo.loaded Demo.params))
     "en-US" "m1" (Str.split "." "loop")).2 = Throw RangeError.
Proof.
  apply (read_cycle_overflows 5 _ "en-US" "m1" "loop" "again " "!"
           (default_notify "en-US" "m1") {[ "loop" := Leaf "again <:loop/>!" ]}).
  - vm_compute. reflexivity.
  - reflexivity.
  - vm_compute. reflexivity.
  - vm_compute. reflexivity.
  - reflexivity.
  - discriminate.
  - reflexivity.
  - reflexivity.
  - reflexivity.
Defined.






(** ** The default tag *)

Lemma join_empty_cons (x : string) (l : list string) :
  Str.join "" (x :: l) = x +:+ Str.join "" l.
Proof.
  destruct l as [|y l]; [by rewrite append_empty_r|]. by rewrite join_cons2.
Qed.

Lemma join_empty_app (a b : list string) :
  Str.join "" (a ++ b) = Str.join "" a +:+ Str.join "" b.
Proof.
  induction a as [|x a IH]; [done|].
  change ((x :: a) ++ b) with (x :: (a ++ b)).
  by rewrite !join_empty_cons, IH, append_assoc.
Qed.

Lemma join_pushed (s : string) : Str.join "" (pushed id s) = s.
Proof. unfold pushed. by case_decide. Qed.

(** X19. With the default tag, which joins the children, and ordinary names
    for which the tag map has no wrapper: an element is replaced by its body,
    a self-closing tag by nothing, so the markup is stripped; a closing tag
    with nothing open is replaced by a second copy of the text before it. *)
Theorem default_tag_strips_markup :
  ∀ (tags : gmap string (@Tagger.Wrapper string)) (pre name1 body name2 post : string),
    Str.mem "<" pre = false → Str.mem "<" body = false → Str.mem "<" post = false →
    tag_name name1 → tag_name name2 →
    ordinary name1 = true → ordinary name2 = true →
    tags !! name1 = None → tags !! name2 = None →
    Tagger.createTagger id Tagger.default_tag
      (pre +:+ token "" name1 "" +:+ body +:+ token "/" name2 "" +:+ post) tags
    = Ok (pre +:+ body +:+ post)
    ∧ Tagger.createTagger id Tagger.default_tag (pre +:+ token "" name1 "/" +:+ post) tags
      = Ok (pre +:+ post)
    ∧ Tagger.createTagger id Tagger.default_tag (pre +:+ token "/" name2 "" +:+ post) tags
      = Ok (pre +:+ pre +:+ post).
Proof.
  intros tags pre name1 body name2 post Hpre Hbody Hpost Hn1 Hn2 _ _ Ht1 Ht2.
  unfold Tagger.createTagger. split; [|split].
  - rewrite scan_element by done. cbn [mbind result_bind Tagger.flat rev app concat].
    rewrite app_nil_r. unfold Tagger.wrapper_of. rewrite Ht2. cbn [default].
    unfold Tagger.default_tag.
    by rewrite join_empty_app, join_empty_cons, !join_pushed.
  - rewrite scan_one_token by first [done | by left | by right].
    rewrite decide_True by done. cbn [mbind result_bind Tagger.flat rev app concat].
    rewrite app_nil_r. unfold Tagger.wrapper_of. rewrite Ht1. cbn [default].
    unfold Tagger.default_tag.
    by rewrite join_empty_app, join_empty_cons, !join_pushed.
  - rewrite scan_one_token by first [done | by left | by right].
    rewrite decide_False by done. rewrite decide_False by done.
    cbn [mbind result_bind Tagger.flat rev app concat].
    rewrite app_nil_r. unfold Tagger.wrapper_of. rewrite Ht2. cbn [default].
    unfold Tagger.default_tag.
    by rewrite join_empty_app, join_empty_cons, !join_pushed.
Qed.

Lemma default_tag_strips_markup_witness :
  Tagger.createTagger id Tagger.default_tag
    ("Read " +:+ token "" "b" "" +:+ "this" +:+ token "/" "b" "" +:+ ".") ∅
  = Ok ("Read " +:+ "this" +:+ ".").
Proof.
  refine (proj1 (default_tag_strips_markup ∅ "Read " "b" "this" "b" "."
                   _ _ _ _ _ _ _ _ _));
    try reflexivity; split; (discriminate || reflexivity).
Defined.

(** ** Instances of the properties above *)

Lemma tag_tokens_witness : Tagger.matchAll ("<:" +:+ "app" +:+ "/>") = [].
Proof. apply (proj2 (proj2 (tag_tokens "")) "app"). reflexivity. Defined.

Lemma load_once_per_pair_witness :
  count_of KLoad "en-US" "m1"
    (log (run Demo.params
            [OSetLocales ["en-US"]; OSetModules ["m1"]; OSetModules []; OSetModules ["m1"]]
            init)) = 1.
Proof.
  assert (run_known Demo.params
            [OSetLocales ["en-US"]; OSetModules ["m1"]; OSetModules []; OSetModules ["m1"]]
            init) as Hk.
  { cbn. repeat split; repeat constructor. }
  apply (proj1 (proj2 (load_once_per_pair Demo.params
           [OSetLocales ["en-US"]; OSetModules ["m1"]; OSetModules []; OSetModules ["m1"]]
           "en-US" "m1" Hk))).
  exists [OSetLocales ["en-US"]; OSetModules ["m1"]]. split.
  - by exists [OSetModules []; OSetModules ["m1"]].
  - split; vm_compute; apply list_elem_of_here.
Defined.


Lemma stored_tables_persist_witness :
  Demo.m2 = settled_resource Demo.params "en-US" "m2"
  ∧ lookup2 (resources (run Demo.params [OSetLocales ["pt-BR"]]
                          (run Demo.params
                             [OSetLocales ["pt-BR"; "en-US"]; OSetModules ["m1"; "m2"];
                              OSettle "en-US" "m2"] init))) "en-US" "m2"
    = Some Demo.m2.
Proof.
  assert (run_known Demo.params
            ([OSetLocales ["pt-BR"; "en-US"]; OSetModules ["m1"; "m2"];
              OSettle "en-US" "m2"] ++ [OSetLocales ["pt-BR"]]) init) as Hk.
  { cbn. repeat split; repeat constructor. }
  apply (proj1 (stored_tables_persist Demo.params
                  [OSetLocales ["pt-BR"; "en-US"]; OSetModules ["m1"; "m2"];
                   OSettle "en-US" "m2"]
                  [OSetLocales ["pt-BR"]] "en-US" "m2" Hk) Demo.m2).
  vm_compute. reflexivity.
Defined.


Lemma marker_target_witness :
  Nest.target "m1" ("x" +:+ ":" +:+ "m2" +:+ ":" +:+ "other")
  = Ok ("m2", Str.split "." "other").
Proof. apply (proj1 (proj2 marker_target) "m1" "x" "m2" "other"); reflexivity. Defined.
